(** * AuthorizedPasswordRecoveryAssistant: vault, audit trail, approval workflow

    A shallow embedding of [src/vault.js], [src/auditLogger.js] and
    [src/approvalWorkflow.js], and the properties of the specification
    checked against it; then the bridge between the window and the main
    process, [src/preload.js], [src/main.js] and [renderer/renderer.js],
    and further properties of all of them.

    Conventions.
    - Text and [Buffer]s are byte sequences ([list ascii]); a JavaScript
      string is represented by its UTF-8 bytes, except in the vault and
      on the bridge, where the UTF-16 code units matter and are modelled
      as such.
    - A [Map] keyed by strings is a [gmap]; an object that is serialised is
      an association list in the property order of JavaScript, array
      indices first.
    - A number that holds an integer is a [Z]; where the program computes
      with it, the result is rounded as a double is.
    - [Date.now()], [randomBytes] and the environment are inputs of the
      operation that reads them.
    - A call either returns or throws: [completion]; an [await] is a step
      of its own in the sequence of calls.
    - Of a library function the checks it makes on its arguments are
      definitions, and what it computes is a variable. *)

From Stdlib Require Import ZArith NArith Ascii String DecimalString DecimalPos DecimalZ.
From Stdlib Require Import List Bool Lia.
From stdpp Require Import base option list gmap strings fin_maps.

Set Default Proof Using "Type".
Set Warnings "-clear-no-such-hyp".

(** ** Text *)

Abbreviation text := (list ascii).

(** A string literal as text. *)
Definition str (s : string) : text := list_ascii_of_string s.
Arguments str : simpl never.

Definition byte_of_N (n : N) : ascii := ascii_of_N n.

(** ** Completions: a call returns a value or throws an error *)

Inductive jserror :=
  | SystemError (code : string)   (* fs errors: [error.code] is ENOENT, EACCES, ... *)
  | SyntaxError                   (* JSON.parse *)
  | TypeError                     (* an argument of the wrong type *)
  | CryptoError                   (* thrown by the crypto library *)
  | RangeError                    (* an argument outside the range a library accepts *)
  | Error (message : string).     (* [new Error(message)] *)

Inductive completion (A : Type) :=
  | Return (a : A)
  | Throw (e : jserror).
Arguments Return {A} a.
Arguments Throw {A} e.

#[global] Instance completion_ret : MRet completion := λ A a, Return a.
#[global] Instance completion_bind : MBind completion := λ A B k c,
  match c with
  | Return a => k a
  | Throw e => Throw e
  end.

(** [try { body } catch (error) { handler }] *)
Definition try_catch {A} (body : completion A) (handler : jserror → completion A)
  : completion A :=
  match body with
  | Return a => Return a
  | Throw e => handler e
  end.

Definition returns {A} (c : completion A) : Prop := ∃ a, c = Return a.

(** ** Hexadecimal: [Buffer.toString('hex')] and [Buffer.from(s, 'hex')] *)

Definition hex_digit (n : N) : ascii :=
  nth (N.to_nat n) (str "0123456789abcdef") "0"%char.

Definition hex_of_byte (c : ascii) : text :=
  [hex_digit (N_of_ascii c / 16); hex_digit (N_of_ascii c mod 16)].

(** [buf.toString('hex')] *)
Definition to_hex (buf : text) : text := flat_map hex_of_byte buf.

(** The value of a hexadecimal digit; both cases are accepted when decoding. *)
Definition hex_value (c : ascii) : option N :=
  let n := N_of_ascii c in
  if (48 <=? n)%N && (n <=? 57)%N then Some (n - 48)%N
  else if (97 <=? n)%N && (n <=? 102)%N then Some (n - 87)%N
  else if (65 <=? n)%N && (n <=? 70)%N then Some (n - 55)%N
  else None.

(** [Buffer.from(s, 'hex')]: pairs of digits, truncated at the first pair
    that is not hexadecimal. *)
Fixpoint from_hex (s : text) : text :=
  match s with
  | a :: b :: rest =>
      match hex_value a, hex_value b with
      | Some h, Some l => byte_of_N (h * 16 + l) :: from_hex rest
      | _, _ => []
      end
  | _ => []
  end.

(** [randomBytes(n)]: [n] bytes read from the entropy source. *)
Definition randomBytes (n : nat) (entropy : nat → ascii) : text :=
  map entropy (seq 0 n).

(** ** JSON serialisation: [JSON.stringify] on flat objects *)

Definition dquote : ascii := "034"%char.
Definition backslash : ascii := "092"%char.

(** The values that occur as members of the serialised objects. *)
Inductive jsval :=
  | JUndefined
  | JStr (s : text)
  | JNum (n : Z).

(** An object: its own enumerable properties, in property order. *)
Abbreviation jsobject := (list (text * jsval)).

(** QuoteJSONString, one character. *)
Definition json_escape_char (c : ascii) : text :=
  let n := N_of_ascii c in
  if (n =? 34)%N then [backslash; dquote]
  else if (n =? 92)%N then [backslash; backslash]
  else if (n =? 8)%N then [backslash; "b"%char]
  else if (n =? 9)%N then [backslash; "t"%char]
  else if (n =? 10)%N then [backslash; "n"%char]
  else if (n =? 12)%N then [backslash; "f"%char]
  else if (n =? 13)%N then [backslash; "r"%char]
  else if (n <? 32)%N then
    [backslash; "u"%char; "0"%char; "0"%char; hex_digit (n / 16); hex_digit (n mod 16)]
  else [c].

Definition json_escape (s : text) : text := flat_map json_escape_char s.

Definition json_quote (s : text) : text := dquote :: json_escape s ++ [dquote].

(** A number that holds an integer prints in decimal. *)
Definition json_number (n : Z) : text :=
  str (DecimalString.NilZero.string_of_int (Z.to_int n)).

(** One member, or nothing when the value is [undefined]. *)
Definition json_member (kv : text * jsval) : option text :=
  match kv.2 with
  | JUndefined => None
  | JStr s => Some (json_quote kv.1 ++ ":"%char :: json_quote s)
  | JNum n => Some (json_quote kv.1 ++ ":"%char :: json_number n)
  end.

Fixpoint join_comma (parts : list text) : text :=
  match parts with
  | [] => []
  | [p] => p
  | p :: rest => p ++ ","%char :: join_comma rest
  end.

Definition JSON_stringify (o : jsobject) : text :=
  "{"%char :: join_comma (omap json_member o) ++ ["}"%char].

(** An object whose properties are strings. *)
Abbreviation strobj := (list (text * text)).

Definition js (o : strobj) : jsobject := map (λ kv, (kv.1, JStr kv.2)) o.

(** A value that is a string or [undefined]. *)
Definition js_value (v : option text) : jsval :=
  match v with
  | Some s => JStr s
  | None => JUndefined
  end.

(** The text [JSON.stringify] gives for an object of strings. *)
Definition serialise (o : strobj) : text := JSON_stringify (js o).

(** The order of the properties of an object (OrdinaryOwnPropertyKeys):
    first the names that are array indices, in ascending numeric order,
    then the other names in the order in which they were created.

    An array index is the decimal numeral, without a leading zero, of an
    integer from 0 to 2^32 - 2. *)
Definition digit_value (c : ascii) : option N :=
  let n := N_of_ascii c in
  if (48 <=? n)%N && (n <=? 57)%N then Some (n - 48)%N else None.

Definition decimal_value (k : text) : option N :=
  foldl (λ acc c, a ← acc; d ← digit_value c; Some (a * 10 + d)%N) (Some 0%N) k.

Definition array_index (k : text) : option N :=
  match k with
  | [] => None
  | c :: rest =>
      if bool_decide (c = "0"%char) && negb (bool_decide (rest = [])) then None
      else n ← decimal_value k; if (n <? 4294967295)%N then Some n else None
  end.

(** Where a name is listed: an array index at its value, every other name
    after all of them. *)
Definition key_rank (k : text) : N := default 4294967295%N (array_index k).

(** A new property takes its place in the order. *)
Fixpoint obj_insert {V} (k : text) (v : V) (o : list (text * V)) : list (text * V) :=
  match o with
  | [] => [(k, v)]
  | (k', v') :: rest =>
      if (key_rank k <? key_rank k')%N then (k, v) :: o
      else (k', v') :: obj_insert k v rest
  end.

(** An existing property keeps its place and takes the value. *)
Fixpoint obj_replace {V} (k : text) (v : V) (o : list (text * V)) : list (text * V) :=
  match o with
  | [] => []
  | (k', v') :: rest =>
      if decide (k' = k) then (k, v) :: rest else (k', v') :: obj_replace k v rest
  end.

(** Property assignment [o[k] = v]. *)
Definition obj_set {V} (k : text) (v : V) (o : list (text * V)) : list (text * V) :=
  if decide (k ∈ o.*1) then obj_replace k v o else obj_insert k v o.

(** Property read [o[k]]; [None] is [undefined]. *)
Fixpoint obj_get {V} (k : text) (o : list (text * V)) : option V :=
  match o with
  | [] => None
  | (k', v') :: rest => if decide (k' = k) then Some v' else obj_get k rest
  end.

(** The object without property [k] (rest destructuring). *)
Definition obj_remove {V} (k : text) (o : list (text * V)) : list (text * V) :=
  filter (λ kv, kv.1 ≠ k) o.

(** Spread [{...base, ...extra}]. *)
Definition obj_spread {V} (base extra : list (text * V)) : list (text * V) :=
  foldl (λ o kv, obj_set kv.1 kv.2 o) base extra.

(** ** base64url: [Buffer.toString('base64url')] *)

Definition b64url_char (n : N) : ascii :=
  nth (N.to_nat n)
    (str "ABCDEFGHIJKLMNOPQRSTUVWXYZabcdefghijklmnopqrstuvwxyz0123456789-_") "A"%char.

Fixpoint base64url (buf : text) : text :=
  match buf with
  | [] => []
  | [a] =>
      let x := N_of_ascii a in
      [b64url_char (x / 4); b64url_char ((x mod 4) * 16)]
  | [a; b] =>
      let x := N_of_ascii a in
      let y := N_of_ascii b in
      [b64url_char (x / 4); b64url_char ((x mod 4) * 16 + y / 16);
       b64url_char ((y mod 16) * 4)]
  | a :: b :: c :: rest =>
      let x := N_of_ascii a in
      let y := N_of_ascii b in
      let z := N_of_ascii c in
      b64url_char (x / 4) :: b64url_char ((x mod 4) * 16 + y / 16)
        :: b64url_char ((y mod 16) * 4 + z / 64) :: b64url_char (z mod 64)
        :: base64url rest
  end.

(** ** JSON parsing: [JSON.parse] on the objects this program writes

    The model covers one object whose members are strings, with the
    white space and the escapes of the JSON grammar; that is the shape
    of every record [appendLog] writes. Any other text, valid JSON or
    not, is reported as the [SyntaxError] outcome; so is an escape of a
    surrogate code unit, which has no UTF-8 form. *)

Inductive token :=
  | TLBrace | TRBrace | TColon | TComma
  | TString (s : text).

Definition is_json_ws (c : ascii) : bool :=
  let n := N_of_ascii c in
  (n =? 32)%N || (n =? 9)%N || (n =? 10)%N || (n =? 13)%N.

(** The character an escape [\c] stands for. *)
Definition json_unescape (c : ascii) : option ascii :=
  let n := N_of_ascii c in
  if (n =? 34)%N then Some dquote
  else if (n =? 92)%N then Some backslash
  else if (n =? 47)%N then Some "/"%char
  else if (n =? 98)%N then Some (byte_of_N 8)
  else if (n =? 102)%N then Some (byte_of_N 12)
  else if (n =? 110)%N then Some (byte_of_N 10)
  else if (n =? 114)%N then Some (byte_of_N 13)
  else if (n =? 116)%N then Some (byte_of_N 9)
  else None.

(** The UTF-8 bytes of the code unit an escape [\uXXXX] stands for. *)
Definition json_unicode (a b c d : ascii) : option text :=
  h1 ← hex_value a; h2 ← hex_value b; h3 ← hex_value c; h4 ← hex_value d;
  let n := (((h1 * 16 + h2) * 16 + h3) * 16 + h4)%N in
  if (n <? 128)%N then Some [byte_of_N n]
  else if (n <? 2048)%N then Some [byte_of_N (192 + n / 64); byte_of_N (128 + n mod 64)]
  else if (55296 <=? n)%N && (n <=? 57343)%N then None
  else Some [byte_of_N (224 + n / 4096); byte_of_N (128 + (n / 64) mod 64);
             byte_of_N (128 + n mod 64)].

(** The lexer. [st] is [None] between tokens and [Some acc] inside a
    string, [acc] being the characters read so far, last first. *)
Fixpoint lex (st : option text) (s : text) {struct s} : option (list token) :=
  match st with
  | None =>
      match s with
      | [] => Some []
      | c :: rest =>
          if is_json_ws c then lex None rest
          else if decide (c = "{"%char) then (TLBrace ::.) <$> lex None rest
          else if decide (c = "}"%char) then (TRBrace ::.) <$> lex None rest
          else if decide (c = ":"%char) then (TColon ::.) <$> lex None rest
          else if decide (c = ","%char) then (TComma ::.) <$> lex None rest
          else if decide (c = dquote) then lex (Some []) rest
          else None
      end
  | Some acc =>
      match s with
      | [] => None
      | c :: rest =>
          if decide (c = dquote) then (TString (rev acc) ::.) <$> lex None rest
          else if decide (c = backslash) then
            match rest with
            | [] => None
            | e :: rest' =>
                if decide (e = "u"%char) then
                  match rest' with
                  | h1 :: h2 :: h3 :: h4 :: rest'' =>
                      match json_unicode h1 h2 h3 h4 with
                      | Some bytes => lex (Some (rev bytes ++ acc)) rest''
                      | None => None
                      end
                  | _ => None
                  end
                else
                  match json_unescape e with
                  | Some x => lex (Some (x :: acc)) rest'
                  | None => None
                  end
            end
          else if (N_of_ascii c <? 32)%N then None
          else lex (Some (c :: acc)) rest
      end
  end.

(** The members after the first one, up to the closing brace. *)
Fixpoint parse_more (ts : list token) : option strobj :=
  match ts with
  | [TRBrace] => Some []
  | TComma :: TString k :: TColon :: TString v :: rest =>
      ((k, v) ::.) <$> parse_more rest
  | _ => None
  end.

Definition parse_object (ts : list token) : option strobj :=
  match ts with
  | [TLBrace; TRBrace] => Some []
  | TLBrace :: TString k :: TColon :: TString v :: rest =>
      ((k, v) ::.) <$> parse_more rest
  | _ => None
  end.

(** [JSON.parse]: a repeated key keeps its first place and its last value. *)
Definition JSON_parse (s : text) : completion strobj :=
  match lex None s ≫= parse_object with
  | Some members => Return (obj_spread [] members)
  | None => Throw SyntaxError
  end.

(** ** Reading a token: base64url text and JSON with numbers

    What the holder of a token reads back from it. [from_base64url] is
    [Buffer.from(s, 'base64url')] on text without padding, as
    [toString('base64url')] writes it; [JSON_read] is [JSON.parse] on one
    object whose members are strings or integers written without
    fraction and exponent. Any other text is not read. *)

Definition b64url_value (c : ascii) : option N :=
  let n := N_of_ascii c in
  if (65 <=? n)%N && (n <=? 90)%N then Some (n - 65)%N
  else if (97 <=? n)%N && (n <=? 122)%N then Some (n - 71)%N
  else if (48 <=? n)%N && (n <=? 57)%N then Some (n + 4)%N
  else if (n =? 45)%N then Some 62%N
  else if (n =? 95)%N then Some 63%N
  else None.

Fixpoint from_base64url (s : text) : option text :=
  match s with
  | [] => Some []
  | [_] => None
  | [c1; c2] =>
      v1 ← b64url_value c1; v2 ← b64url_value c2;
      Some [byte_of_N (v1 * 4 + v2 / 16)]
  | [c1; c2; c3] =>
      v1 ← b64url_value c1; v2 ← b64url_value c2; v3 ← b64url_value c3;
      Some [byte_of_N (v1 * 4 + v2 / 16); byte_of_N (v2 mod 16 * 16 + v3 / 4)]
  | c1 :: c2 :: c3 :: c4 :: rest =>
      v1 ← b64url_value c1; v2 ← b64url_value c2; v3 ← b64url_value c3;
      v4 ← b64url_value c4; bytes ← from_base64url rest;
      Some (byte_of_N (v1 * 4 + v2 / 16) :: byte_of_N (v2 mod 16 * 16 + v3 / 4)
              :: byte_of_N (v3 mod 4 * 64 + v4) :: bytes)
  end.

Inductive jtoken :=
  | JLBrace | JRBrace | JColon | JComma
  | JString (s : text)
  | JNumber (n : Z).

(** Where the reader is: between tokens, inside a string ([acc] holds the
    characters read so far, last first), after a backslash, inside the
    four digits of a [\u] escape, or inside a number. *)
Inductive lex_state :=
  | Between
  | InString (acc : text)
  | InEscape (acc : text)
  | InUnicode (acc : text) (digits : text)
  | InNumber (acc : text).

Definition is_digit (c : ascii) : bool :=
  (48 <=? N_of_ascii c)%N && (N_of_ascii c <=? 57)%N.

(** The integer of a numeral, which has to be the numeral that
    [JSON.stringify] writes for it. *)
Definition read_number (numeral : text) : option Z :=
  match DecimalString.NilZero.int_of_string (string_of_list_ascii numeral) with
  | Some i =>
      let z := Z.of_int i in
      if decide (json_number z = numeral) then Some z else None
  | None => None
  end.

(** One character between tokens: the token it is, if it is one, and the
    state after it. *)
Definition lex_between (c : ascii) : option (list jtoken * lex_state) :=
  if is_json_ws c then Some ([], Between)
  else if decide (c = "{"%char) then Some ([JLBrace], Between)
  else if decide (c = "}"%char) then Some ([JRBrace], Between)
  else if decide (c = ":"%char) then Some ([JColon], Between)
  else if decide (c = ","%char) then Some ([JComma], Between)
  else if decide (c = dquote) then Some ([], InString [])
  else if is_digit c || bool_decide (c = "-"%char) then Some ([], InNumber [c])
  else None.

Definition lex_step (st : lex_state) (c : ascii) : option (list jtoken * lex_state) :=
  match st with
  | Between => lex_between c
  | InString acc =>
      if decide (c = dquote) then Some ([JString (rev acc)], Between)
      else if decide (c = backslash) then Some ([], InEscape acc)
      else if (N_of_ascii c <? 32)%N then None
      else Some ([], InString (c :: acc))
  | InEscape acc =>
      if decide (c = "u"%char) then Some ([], InUnicode acc [])
      else x ← json_unescape c; Some ([], InString (x :: acc))
  | InUnicode acc digits =>
      match digits with
      | [h3; h2; h1] =>
          bytes ← json_unicode h1 h2 h3 c; Some ([], InString (rev bytes ++ acc))
      | _ => Some ([], InUnicode acc (c :: digits))
      end
  | InNumber acc =>
      if is_digit c then Some ([], InNumber (c :: acc))
      else
        z ← read_number (rev acc);
        r ← lex_between c;
        Some (JNumber z :: r.1, r.2)
  end.

Fixpoint lex_json (st : lex_state) (s : text) : option (list jtoken) :=
  match s with
  | [] =>
      match st with
      | Between => Some []
      | InNumber acc => z ← read_number (rev acc); Some [JNumber z]
      | _ => None
      end
  | c :: rest =>
      r ← lex_step st c;
      ts ← lex_json r.2 rest;
      Some (r.1 ++ ts)
  end.

Definition member_value (t : jtoken) : option jsval :=
  match t with
  | JString s => Some (JStr s)
  | JNumber n => Some (JNum n)
  | _ => None
  end.

Fixpoint read_more (ts : list jtoken) : option jsobject :=
  match ts with
  | [JRBrace] => Some []
  | JComma :: JString k :: JColon :: t :: rest =>
      v ← member_value t; ((k, v) ::.) <$> read_more rest
  | _ => None
  end.

Definition read_object (ts : list jtoken) : option jsobject :=
  match ts with
  | [JLBrace; JRBrace] => Some []
  | JLBrace :: JString k :: JColon :: t :: rest =>
      v ← member_value t; ((k, v) ::.) <$> read_more rest
  | _ => None
  end.

Definition JSON_read (s : text) : option jsobject :=
  members ← lex_json Between s ≫= read_object;
  Some (obj_spread [] members).

(** ** [String.prototype.trim] and [split('\n')] on UTF-8 text

    The white space of the ASCII range is stripped; the multi-byte
    white space characters are not. *)

Definition LF : ascii := "010"%char.

Definition is_js_space (c : ascii) : bool :=
  let n := N_of_ascii c in
  (n =? 9)%N || (n =? 10)%N || (n =? 11)%N || (n =? 12)%N || (n =? 13)%N || (n =? 32)%N.

Fixpoint trim_start (s : text) : text :=
  match s with
  | [] => []
  | c :: rest => if is_js_space c then trim_start rest else s
  end.

Definition trim (s : text) : text := rev (trim_start (rev (trim_start s))).

(** [s.split('\n')]: never empty; the empty text gives one empty part. *)
Fixpoint split_lf (s : text) : list text :=
  match s with
  | [] => [[]]
  | c :: rest =>
      if decide (c = LF) then [] :: split_lf rest
      else match split_lf rest with
           | l :: ls => (c :: l) :: ls
           | [] => [[c]]
           end
  end.

(** ** UTF-16 strings and the ['utf8'] encoding of [Buffer]

    Where the encoding matters a JavaScript string is the list of its
    UTF-16 code units. Writing a string as ['utf8'] replaces an unpaired
    surrogate by U+FFFD; decoding replaces each ill-formed subsequence by
    U+FFFD (the WHATWG decoder, without byte order mark handling). *)

Abbreviation jsstring := (list N).

Definition is_high_surrogate (u : N) : bool := (55296 <=? u)%N && (u <=? 56319)%N.
Definition is_low_surrogate (u : N) : bool := (56320 <=? u)%N && (u <=? 57343)%N.

Definition utf8_of_code_point (cp : N) : text :=
  if (cp <? 128)%N then [byte_of_N cp]
  else if (cp <? 2048)%N then
    [byte_of_N (192 + cp / 64); byte_of_N (128 + cp mod 64)]
  else if (cp <? 65536)%N then
    [byte_of_N (224 + cp / 4096); byte_of_N (128 + (cp / 64) mod 64);
     byte_of_N (128 + cp mod 64)]
  else
    [byte_of_N (240 + cp / 262144); byte_of_N (128 + (cp / 4096) mod 64);
     byte_of_N (128 + (cp / 64) mod 64); byte_of_N (128 + cp mod 64)].

Definition REPLACEMENT : N := 65533.

Fixpoint utf8_encode (s : jsstring) : text :=
  match s with
  | [] => []
  | u :: rest =>
      if is_high_surrogate u then
        match rest with
        | v :: rest' =>
            if is_low_surrogate v then
              utf8_of_code_point (65536 + (u - 55296) * 1024 + (v - 56320))
                ++ utf8_encode rest'
            else utf8_of_code_point REPLACEMENT ++ utf8_encode rest
        | [] => utf8_of_code_point REPLACEMENT
        end
      else if is_low_surrogate u then utf8_of_code_point REPLACEMENT ++ utf8_encode rest
      else utf8_of_code_point u ++ utf8_encode rest
  end.

Record utf8_state := {
  u8_code_point : N;
  u8_seen : N;
  u8_needed : N;
  u8_lower : N;
  u8_upper : N;
}.

Definition utf8_initial : utf8_state :=
  {| u8_code_point := 0; u8_seen := 0; u8_needed := 0; u8_lower := 128; u8_upper := 191 |}.

Definition code_units_of (cp : N) : jsstring :=
  if (cp <? 65536)%N then [cp]
  else [(55296 + (cp - 65536) / 1024)%N; (56320 + (cp - 65536) mod 1024)%N].

(** A byte read when no sequence is open. *)
Definition utf8_lead (b : N) : utf8_state * jsstring :=
  if (b <? 128)%N then (utf8_initial, [b])
  else if (194 <=? b)%N && (b <=? 223)%N then
    ({| u8_code_point := b - 192; u8_seen := 0; u8_needed := 1;
        u8_lower := 128; u8_upper := 191 |}, [])
  else if (224 <=? b)%N && (b <=? 239)%N then
    ({| u8_code_point := b - 224; u8_seen := 0; u8_needed := 2;
        u8_lower := if (b =? 224)%N then 160 else 128;
        u8_upper := if (b =? 237)%N then 159 else 191 |}, [])
  else if (240 <=? b)%N && (b <=? 244)%N then
    ({| u8_code_point := b - 240; u8_seen := 0; u8_needed := 3;
        u8_lower := if (b =? 240)%N then 144 else 128;
        u8_upper := if (b =? 244)%N then 143 else 191 |}, [])
  else (utf8_initial, [REPLACEMENT]).

Definition utf8_step (st : utf8_state) (b : N) : utf8_state * jsstring :=
  if (u8_needed st =? 0)%N then utf8_lead b
  else if negb ((u8_lower st <=? b)%N && (b <=? u8_upper st)%N) then
    let r := utf8_lead b in (r.1, REPLACEMENT :: r.2)
  else
    let cp := (u8_code_point st * 64 + (b - 128))%N in
    if (u8_seen st + 1 =? u8_needed st)%N then (utf8_initial, code_units_of cp)
    else ({| u8_code_point := cp; u8_seen := u8_seen st + 1;
             u8_needed := u8_needed st; u8_lower := 128; u8_upper := 191 |}, []).

Fixpoint utf8_decode_from (st : utf8_state) (bytes : text) : jsstring :=
  match bytes with
  | [] => if (u8_needed st =? 0)%N then [] else [REPLACEMENT]
  | b :: rest =>
      let r := utf8_step st (N_of_ascii b) in
      r.2 ++ utf8_decode_from r.1 rest
  end.

Definition utf8_decode (bytes : text) : jsstring := utf8_decode_from utf8_initial bytes.

(** No unpaired surrogate, and every element a code unit. *)
Fixpoint well_formed (s : jsstring) : bool :=
  match s with
  | [] => true
  | u :: rest =>
      if is_high_surrogate u then
        match rest with
        | v :: rest' => is_low_surrogate v && well_formed rest'
        | [] => false
        end
      else (u <? 65536)%N && negb (is_low_surrogate u) && well_formed rest
  end.

(** [String.prototype.toWellFormed]: the string with U+FFFD in place of
    each unpaired surrogate. *)
Fixpoint to_well_formed (s : jsstring) : jsstring :=
  match s with
  | [] => []
  | u :: rest =>
      if is_high_surrogate u then
        match rest with
        | v :: rest' =>
            if is_low_surrogate v then u :: v :: to_well_formed rest'
            else REPLACEMENT :: to_well_formed rest
        | [] => [REPLACEMENT]
        end
      else if is_low_surrogate u then REPLACEMENT :: to_well_formed rest
      else u :: to_well_formed rest
  end.

(** * approvalWorkflow.js *)

Module ApprovalWorkflow.

Inductive request_status := PENDING | APPROVED | EXPIRED.

#[global] Instance request_status_eq_dec : EqDecision request_status.
Proof. solve_decision. Defined.

(** The string a status is in the program. *)
Definition status_name (s : request_status) : text :=
  match s with
  | PENDING => str "PENDING"
  | APPROVED => str "APPROVED"
  | EXPIRED => str "EXPIRED"
  end.

Record approval := { approverId : text; timestamp : Z }.

Record request := {
  id : text;
  requesterId : text;
  action : text;
  details : text;
  status : request_status;
  requiredApprovals : Z;
  potentialApprovers : list text;
  approvals : list approval;
  createdAt : Z;
  expiresAt : Z;
}.

Definition set_status (r : request) (s : request_status) : request :=
  {| id := id r; requesterId := requesterId r; action := action r;
     details := details r; status := s;
     requiredApprovals := requiredApprovals r;
     potentialApprovers := potentialApprovers r; approvals := approvals r;
     createdAt := createdAt r; expiresAt := expiresAt r |}.

Definition push_approval (r : request) (a : approval) : request :=
  {| id := id r; requesterId := requesterId r; action := action r;
     details := details r; status := status r;
     requiredApprovals := requiredApprovals r;
     potentialApprovers := potentialApprovers r;
     approvals := approvals r ++ [a];
     createdAt := createdAt r; expiresAt := expiresAt r |}.

(** [const pendingRequests = new Map()] *)
Abbreviation store := (gmap text request).

(** ** The signing secret *)

Definition DEFAULT_SECRET : text := str "default-super-secret-key-for-dev-only".

(** [process.env.APPROVAL_TOKEN_SECRET || '...']: the argument is the value
    of the environment variable, [None] when it is not set. An empty
    string is falsy. *)
Definition TOKEN_SECRET (env_secret : option text) : text :=
  match env_secret with
  | Some (c :: s) => c :: s
  | Some [] | None => DEFAULT_SECRET
  end.

(** The module's top-level statements: what importing it does. *)
Record module_state := { secret : text; pendingRequests : store }.

Definition load (env_secret : option text) : completion module_state :=
  Return {| secret := TOKEN_SECRET env_secret; pendingRequests := ∅ |}.

(** ** Numbers

    The clock readings and the [ttl] are integers, held by doubles. The
    sum and the product of two integers are rounded to the nearest
    double, ties to even: an integer of magnitude up to 2^53 is kept as
    it is, a larger one keeps its 53 leading bits. Results beyond the
    largest double, where JavaScript has [Infinity], are outside the
    model. *)
Definition to_double (z : Z) : Z :=
  let a := Z.abs z in
  let e := (Z.log2 a - 52)%Z in
  if (e <=? 0)%Z then z
  else
    let q := Z.shiftr a e in
    let r := Z.land a (Z.ones e) in
    let half := Z.shiftl 1 (e - 1) in
    let q' := if (half <? r)%Z || ((r =? half)%Z && Z.odd q) then (q + 1)%Z else q in
    (Z.sgn z * Z.shiftl q' e)%Z.

(** ** createRequest *)

Record create_options := {
  opt_requesterId : text;
  opt_action : text;
  opt_details : text;
  opt_requiredApprovals : option Z;
  opt_potentialApprovers : option (list text);
  opt_ttl : option Z;
}.

Record create_result := {
  cr_success : bool;
  cr_requestId : option text;
  cr_error : option text;
}.

Definition createRequest (requests : store) (options : create_options)
    (entropy : nat → ascii) (now now' : Z) : create_result * store :=
  let requiredApprovals := default 2%Z (opt_requiredApprovals options) in
  let ttl := default 3600%Z (opt_ttl options) in
  let invalid :=
    match opt_potentialApprovers options with
    | None => true
    | Some l => (Z.of_nat (length l) <? requiredApprovals)%Z
    end in
  if bool_decide (opt_requesterId options = []) || bool_decide (opt_action options = [])
     || invalid
  then ({| cr_success := false; cr_requestId := None;
           cr_error := Some (str "Invalid request parameters. Ensure requester, action, and a valid set of approvers are provided.") |},
        requests)
  else
    let requestId := to_hex (randomBytes 16 entropy) in
    let expiresAt := to_double (now + to_double (ttl * 1000)) in
    let request :=
      {| id := requestId;
         requesterId := opt_requesterId options;
         action := opt_action options;
         details := opt_details options;
         status := PENDING;
         requiredApprovals := requiredApprovals;
         potentialApprovers := default [] (opt_potentialApprovers options);
         approvals := [];
         createdAt := now';
         expiresAt := expiresAt |} in
    ({| cr_success := true; cr_requestId := Some requestId; cr_error := None |},
     <[requestId := request]> requests).

(** ** listPendingApprovals

    The clock is read in the filter, once per request: [clock i] is the
    reading at the [i]th request. The order of the result is the order of
    [map_to_list], not the insertion order of the [Map]. *)
Definition listPendingApprovals (requests : store) (clock : nat → Z) : list request :=
  omap (λ x, x)
    (imap (λ i kv,
       if bool_decide (status kv.2 = PENDING) && (expiresAt kv.2 >? clock i)%Z
       then Some kv.2 else None)
      (map_to_list requests)).

(** ** applyApproval *)

Record apply_result := {
  ar_success : bool;
  ar_status : option text;
  ar_error : option text;
}.

Definition apply_failure (msg : text) : apply_result :=
  {| ar_success := false; ar_status := None; ar_error := Some msg |}.

Definition applyApproval (requests : store) (requestId approver : text)
    (now now' : Z) : apply_result * store :=
  match requests !! requestId with
  | None => (apply_failure (str "Request not found."), requests)
  | Some request =>
      if (expiresAt request <=? now)%Z then
        (apply_failure (str "Request has expired."),
         <[requestId := set_status request EXPIRED]> requests)
      else if bool_decide (status request ≠ PENDING) then
        (apply_failure (str "Request is no longer pending (status: "
                          ++ status_name (status request) ++ str ")."),
         requests)
      else if bool_decide (approver ∉ potentialApprovers request) then
        (apply_failure (str "User is not authorized to approve this request."),
         requests)
      else if bool_decide (Exists (λ a, approverId a = approver) (approvals request)) then
        (apply_failure (str "User has already approved this request."), requests)
      else
        let request1 :=
          push_approval request {| approverId := approver; timestamp := now' |} in
        let request2 :=
          if (Z.of_nat (length (approvals request1)) >=? requiredApprovals request1)%Z
          then set_status request1 APPROVED else request1 in
        ({| ar_success := true; ar_status := Some (status_name (status request2));
            ar_error := None |},
         <[requestId := request2]> requests)
  end.

(** ** checkApprovalStatus *)

Record check_result := {
  ck_status : text;
  ck_token : option text;
  ck_error : option text;
}.

Section Token.
(** [createHmac('sha256', key).update(message).digest()] *)
Variable hmac_sha256 : text → text → text.

(** The signed payload of a token. [Date.now()] is an integer of
    magnitude at most 8.64e15, to which 300000 is added without
    rounding. *)
Definition token_payload (request : request) (requestId : text) (now : Z) : text :=
  JSON_stringify
    [(str "sub", JStr (requesterId request));
     (str "req", JStr requestId);
     (str "act", JStr (action request));
     (str "exp", JNum (now + 300 * 1000))].

Definition mint_token (key : text) (payload : text) : text :=
  let signature := to_hex (hmac_sha256 key payload) in
  base64url payload ++ "."%char :: signature.

Definition checkApprovalStatus (key : text) (requests : store) (requestId : text)
    (now now' : Z) : check_result * store :=
  match requests !! requestId with
  | None =>
      ({| ck_status := str "NOT_FOUND"; ck_token := None;
          ck_error := Some (str "Request not found.") |}, requests)
  | Some request0 =>
      let expired :=
        (expiresAt request0 <=? now)%Z && bool_decide (status request0 = PENDING) in
      let request := if expired then set_status request0 EXPIRED else request0 in
      let requests1 :=
        if expired then <[requestId := request]> requests else requests in
      if bool_decide (status request = APPROVED) then
        let payload := token_payload request requestId now' in
        let token := mint_token key payload in
        ({| ck_status := str "APPROVED"; ck_token := Some token; ck_error := None |},
         delete requestId requests1)
      else
        ({| ck_status := status_name (status request); ck_token := None;
            ck_error := None |}, requests1)
  end.

(** ** Sequences of calls on the module *)

Inductive call :=
  | CreateRequest (options : create_options) (entropy : nat → ascii) (now now' : Z)
  | ListPendingApprovals (clock : nat → Z)
  | ApplyApproval (requestId approver : text) (now now' : Z)
  | CheckApprovalStatus (requestId : text) (now now' : Z).

(** The store after one call. *)
Definition step (key : text) (requests : store) (c : call) : store :=
  match c with
  | CreateRequest options entropy now now' =>
      (createRequest requests options entropy now now').2
  | ListPendingApprovals _ => requests
  | ApplyApproval requestId approver now now' =>
      (applyApproval requests requestId approver now now').2
  | CheckApprovalStatus requestId now now' =>
      (checkApprovalStatus key requests requestId now now').2
  end.

Definition run (key : text) (requests : store) (calls : list call) : store :=
  foldl (step key) requests calls.

(** The request id a call would generate, if it is a [createRequest]. *)
Definition generates (c : call) (requestId : text) : Prop :=
  match c with
  | CreateRequest _ entropy _ _ => to_hex (randomBytes 16 entropy) = requestId
  | _ => False
  end.
End Token.

End ApprovalWorkflow.

(** * vault.js *)

Module Vault.

Definition KEY_LENGTH : nat := 32.
Definition SALT_LENGTH : nat := 16.
Definition IV_LENGTH : nat := 12.
Definition AUTH_TAG_LENGTH : nat := 16.

(** The options of [crypto.scrypt]: the cost [N], the block size [r], the
    parallelization [p] and the memory bound, [None] when it is not
    given. The fields have the long names that Node gives to [N], [r]
    and [p], [N] being the type of the code units here. *)
Record scrypt_options := {
  cost : Z;
  blockSize : Z;
  parallelization : Z;
  maxmem : option Z;
}.

Definition SCRYPT_PARAMS : scrypt_options :=
  {| cost := 32768; blockSize := 8; parallelization := 1; maxmem := None |}.

(** [crypto.scrypt] refuses parameters whose memory need exceeds
    [maxmem], 32 MiB when it is not given. The need is counted as
    OpenSSL counts it: 128 * r * p bytes for the blocks and
    128 * r * (N + 2) for the table. *)
Definition DEFAULT_MAXMEM : Z := 32 * 1024 * 1024.

Definition scrypt_memory (o : scrypt_options) : Z :=
  128 * blockSize o * parallelization o + 128 * blockSize o * (cost o + 2).

(** The private fields of the [Vault] class. The stored payloads are
    hexadecimal text. *)
Record vault := {
  derivedKey : option text;
  salt : option text;
  store_ : gmap jsstring text;
  initialized : bool;
}.

(** [new Vault()] *)
Definition new_vault : vault :=
  {| derivedKey := None; salt := None; store_ := ∅; initialized := false |}.

Record store_result := {
  sr_success : bool;
  sr_error : option text;
}.

Record retrieve_result := {
  rr_success : bool;
  rr_data : option jsstring;
  rr_error : option text;
}.

(** [buf.slice(from, to)] and [buf.slice(from)] *)
Definition slice (buf : text) (from to : nat) : text := take (to - from) (drop from buf).
Definition slice_from (buf : text) (from : nat) : text := drop from buf.

Section Crypto.
(** The scrypt key derivation function: password, salt, length of the
    key, parameters. *)
Variable scrypt_kdf : jsstring → text → nat → scrypt_options → text.

(** [scryptAsync(password, salt, keylen, options)], the promisified
    [crypto.scrypt]: the key the promise resolves with, or the error it
    is rejected with. Of the checks of the options the one on the memory
    is modelled. *)
Definition scryptAsync (password : jsstring) (salt0 : text) (keylen : nat)
    (options : scrypt_options) : completion text :=
  if (default DEFAULT_MAXMEM (maxmem options) <? scrypt_memory options)%Z
  then Throw RangeError
  else Return (scrypt_kdf password salt0 keylen options).

(** [createCipheriv('aes-256-gcm', key, iv)], [update], [final] and
    [getAuthTag]: the ciphertext and the tag, or the error thrown. *)
Variable aes_256_gcm_encrypt : text → text → text → completion (text * text).

(** [createDecipheriv('aes-256-gcm', key, iv)], [setAuthTag], [update]
    and [final]: the plaintext, or the error thrown (a tag that does
    not verify, among others). Arguments: key, iv, tag, ciphertext. *)
Variable aes_256_gcm_decrypt : text → text → text → text → completion text.

(** A field where a [Buffer] is required: [null] is a [TypeError]. *)
Definition required (field : option text) : completion text :=
  match field with
  | Some b => Return b
  | None => Throw TypeError
  end.

(** [init(masterPassword)] up to its [await]; [None] is an argument that
    is not a string. [Throw e]: the promise of [init] is rejected with
    [e]. [Return key]: the call waits for the key derivation, which will
    give [key]. *)
Definition init (v : vault) (masterPassword : option jsstring) (entropy : nat → ascii)
  : completion text * vault :=
  if initialized v then
    (Throw (Error "Vault has already been initialized."), v)
  else
    match masterPassword with
    | None =>
        (Throw (Error "Master password must be a string of at least 12 characters."), v)
    | Some password =>
        if (length password <? 12)%nat then
          (Throw (Error "Master password must be a string of at least 12 characters."), v)
        else
          let salt1 := randomBytes SALT_LENGTH entropy in
          let v1 := {| derivedKey := derivedKey v; salt := Some salt1;
                       store_ := store_ v; initialized := initialized v |} in
          (scryptAsync password salt1 KEY_LENGTH SCRYPT_PARAMS, v1)
    end.

(** [init] after its [await], with the key the derivation gave: the two
    assignments that are left. The promise of [init] is then resolved. *)
Definition init_resume (v : vault) (key : text) : vault :=
  {| derivedKey := Some key; salt := salt v; store_ := store_ v; initialized := true |}.

(** [store(key, value)] *)
Definition store (v : vault) (key value : jsstring) (entropy : nat → ascii)
  : completion (store_result * vault) :=
  if negb (initialized v) then
    Return ({| sr_success := false; sr_error := Some (str "Vault not initialized.") |}, v)
  else
    try_catch
      (let iv := randomBytes IV_LENGTH entropy in
       derived ← required (derivedKey v);
       sealed ← aes_256_gcm_encrypt derived iv (utf8_encode value);
       let encryptedValue := sealed.1 in
       let authTag := sealed.2 in
       salt0 ← required (salt v);
       let storedPayload := to_hex (salt0 ++ iv ++ authTag ++ encryptedValue) in
       Return ({| sr_success := true; sr_error := None |},
               {| derivedKey := derivedKey v; salt := salt v;
                  store_ := <[key := storedPayload]> (store_ v);
                  initialized := initialized v |}))
      (λ error,
         Return ({| sr_success := false;
                    sr_error := Some (str "Failed to encrypt and store value.") |}, v)).

(** [retrieve(key)] *)
Definition retrieve (v : vault) (key : jsstring) : completion (retrieve_result * vault) :=
  if negb (initialized v) then
    Return ({| rr_success := false; rr_data := None;
               rr_error := Some (str "Vault not initialized.") |}, v)
  else
    match store_ v !! key with
    | None =>
        Return ({| rr_success := false; rr_data := None;
                   rr_error := Some (str "Key not found in vault.") |}, v)
    | Some stored =>
        try_catch
          (let payload := from_hex stored in
           let iv := slice payload SALT_LENGTH (SALT_LENGTH + IV_LENGTH) in
           let authTag :=
             slice payload (SALT_LENGTH + IV_LENGTH)
               (SALT_LENGTH + IV_LENGTH + AUTH_TAG_LENGTH) in
           let encryptedValue :=
             slice_from payload (SALT_LENGTH + IV_LENGTH + AUTH_TAG_LENGTH) in
           derived ← required (derivedKey v);
           decrypted ← aes_256_gcm_decrypt derived iv authTag encryptedValue;
           Return ({| rr_success := true; rr_data := Some (utf8_decode decrypted);
                      rr_error := None |}, v))
          (λ error,
             Return ({| rr_success := false; rr_data := None;
                        rr_error := Some (str "Decryption failed. The data may be corrupt or the key is incorrect.") |}, v))
    end.

(** The vault together with the calls of [init] that wait for their key:
    [deriving] holds the keys the derivations under way will give. *)
Record process := {
  this : vault;
  deriving : list text;
}.

Definition start : process := {| this := new_vault; deriving := [] |}.

(** What happens to the vault: a call of one of its methods, or the end
    of the [i]th key derivation under way, after which that call of
    [init] goes on. The derivations end in any order. *)
Inductive call :=
  | Init (masterPassword : option jsstring) (entropy : nat → ascii)
  | Store (key value : jsstring) (entropy : nat → ascii)
  | Retrieve (key : jsstring)
  | Derived (i : nat).

(** The vault after a call, whether the call returned or threw. *)
Definition after {A} (r : completion (A * vault)) (v : vault) : vault :=
  match r with
  | Return (_, v') => v'
  | Throw _ => v
  end.

Definition step (s : process) (c : call) : process :=
  match c with
  | Init masterPassword entropy =>
      let r := init (this s) masterPassword entropy in
      {| this := r.2;
         deriving := match r.1 with
                     | Return key => deriving s ++ [key]
                     | Throw _ => deriving s
                     end |}
  | Store key value entropy =>
      {| this := after (store (this s) key value entropy) (this s);
         deriving := deriving s |}
  | Retrieve key =>
      {| this := after (retrieve (this s) key) (this s); deriving := deriving s |}
  | Derived i =>
      match deriving s !! i with
      | Some key => {| this := init_resume (this s) key; deriving := delete i (deriving s) |}
      | None => s
      end
  end.

(** The vault after a sequence of calls on [new Vault()]. *)
Definition run (calls : list call) : vault := this (foldl step start calls).
End Crypto.

End Vault.

(** * auditLogger.js *)

Module AuditLogger.

(** What is at [LOG_FILE_PATH]: no file, a file with its bytes, or
    something on which every file operation fails with an error other
    than ENOENT (no permission, a directory, ...). *)
Inductive file :=
  | Absent
  | Contents (data : text)
  | Inaccessible.

Definition GENESIS_HASH : text := replicate 64 "0"%char.

(** [fs.open(path, 'r')] followed by reads, and [fs.readFile]. *)
Definition read_file (f : file) : completion text :=
  match f with
  | Absent => Throw (SystemError "ENOENT")
  | Contents data => Return data
  | Inaccessible => Throw (SystemError "EACCES")
  end.

(** [fs.appendFile(path, line)] *)
Definition append_file (f : file) (line : text) : completion file :=
  match f with
  | Absent => Return (Contents line)
  | Contents data => Return (Contents (data ++ line))
  | Inaccessible => Throw (SystemError "EACCES")
  end.

(** [getLastLine]: [None] is [null]. The buffer is trimmed and split as
    the bytes that the file holds. The program decodes it first: on a
    buffer that is UTF-8 text without white space outside the ASCII range
    at its ends the two agree; a buffer that starts inside a character
    starts with U+FFFD in the program and with the rest of the character
    here. *)
Definition getLastLine (f : file) : completion (option text) :=
  try_catch
    (data ← read_file f;
     let size := length data in
     if (size =? 0)%nat then Return None
     else
       let bufferSize := Nat.min 1024 size in
       let buffer := drop (size - bufferSize) data in
       let lines := split_lf (trim buffer) in
       Return (Some (default [] (last lines))))
    (λ error,
       match error with
       | SystemError "ENOENT" => Return None
       | _ => Throw error
       end).

Record append_result := {
  ap_success : bool;
  ap_error : option text;
}.

Record query_result := {
  logs : list strobj;
  isValid : bool;
  qr_error : option text;
}.

(** A falsy property: [undefined] or the empty string. *)
Definition falsy (v : option text) : bool :=
  match v with
  | None | Some [] => true
  | Some _ => false
  end.

Section Hash.
(** [createHash('sha256').update(data).digest('hex')] *)
Variable sha256_hex : text → text.

Definition createChecksum (data : text) : text := sha256_hex data.

(** The record of an entry: [{ timestamp, ...entry, previousChecksum }],
    its properties in the order of JavaScript. *)
Definition log_record (timestamp : text) (entry : strobj)
    (previousChecksum : option text) : jsobject :=
  obj_set (str "previousChecksum") (js_value previousChecksum)
    (obj_spread [(str "timestamp", JStr timestamp)] (js entry)).

(** [appendLog(entry)]; [None] is a missing entry, [timestamp] is
    [new Date().toISOString()]. *)
Definition appendLog (f : file) (entry : option strobj) (timestamp : text)
  : completion (append_result * file) :=
  let missing :=
    match entry with
    | None => true
    | Some e =>
        falsy (obj_get (str "userId") e) || falsy (obj_get (str "action") e)
        || falsy (obj_get (str "target") e) || falsy (obj_get (str "outcome") e)
    end in
  if missing then
    Return ({| ap_success := false;
               ap_error := Some (str "Log entry is missing required fields.") |}, f)
  else
    try_catch
      (lastLine ← getLastLine f;
       previousChecksum ←
         match lastLine with
         | None | Some [] => Return (Some GENESIS_HASH)
         | Some line => o ← JSON_parse line; Return (obj_get (str "checksum") o)
         end;
       let logRecord := log_record timestamp (default [] entry) previousChecksum in
       let dataToHash := JSON_stringify logRecord in
       let logRecord' :=
         obj_set (str "checksum") (JStr (createChecksum dataToHash)) logRecord in
       let logLine := JSON_stringify logRecord' ++ [LF] in
       f' ← append_file f logLine;
       Return ({| ap_success := true; ap_error := None |}, f'))
      (λ error,
         Return ({| ap_success := false;
                    ap_error := Some (str "Could not write to the audit log.") |}, f)).

(** The integrity loop of [queryLogs]: [false] at the first mismatch. *)
Fixpoint chain_valid (previousChecksum : text) (logs : list strobj) : bool :=
  match logs with
  | [] => true
  | log :: rest =>
      let checksum := obj_get (str "checksum") log in
      let recordWithoutChecksum := obj_remove (str "checksum") log in
      let expectedChecksum :=
        createChecksum (JSON_stringify (js recordWithoutChecksum)) in
      match checksum with
      | None => false
      | Some checksum =>
          if bool_decide (checksum ≠ expectedChecksum)
             || bool_decide (obj_get (str "previousChecksum") recordWithoutChecksum
                             ≠ Some previousChecksum)
          then false
          else chain_valid checksum rest
      end
  end.

(** [JSON.parse] on every line. *)
Fixpoint parse_lines (lines : list text) : completion (list strobj) :=
  match lines with
  | [] => Return []
  | line :: rest =>
      log ← JSON_parse line;
      logs ← parse_lines rest;
      Return (log :: logs)
  end.

Definition matches (filters log : strobj) : bool :=
  forallb (λ kv, bool_decide (obj_get kv.1 log = Some kv.2)) filters.

(** [queryLogs(filters)] *)
Definition queryLogs (f : file) (filters : strobj) : completion query_result :=
  try_catch
    (data ← read_file f;
     let lines := split_lf (trim data) in
     logs ← parse_lines lines;
     if chain_valid GENESIS_HASH logs then
       Return {| logs := filter (λ log, matches filters log) logs; isValid := true;
                 qr_error := None |}
     else
       Return {| logs := []; isValid := false;
                 qr_error := Some (str "Log tampering detected!") |})
    (λ error,
       match error with
       | SystemError "ENOENT" =>
           Return {| logs := []; isValid := true; qr_error := None |}
       | _ =>
           Return {| logs := []; isValid := false;
                     qr_error := Some (str "Could not read or parse the audit log.") |}
       end).

(** A sequence of [appendLog] calls, each on the file the previous one
    left: the results and the final file. *)
Fixpoint append_all (f : file) (calls : list (option strobj * text))
  : completion (list append_result * file) :=
  match calls with
  | [] => Return ([], f)
  | (entry, timestamp) :: rest =>
      r ← appendLog f entry timestamp;
      rs ← append_all r.2 rest;
      Return (r.1 :: rs.1, rs.2)
  end.
End Hash.

(** ** The log file as a list of records *)

(** The bytes of a log file that holds the records [recs], one line each. *)
Definition log_text (recs : list strobj) : text :=
  flat_map (λ r, serialise r ++ [LF]) recs.

(** The file holds the records [recs]. *)
Definition holds (f : file) (recs : list strobj) : Prop :=
  (f = Absent ∧ recs = []) ∨ f = Contents (log_text recs).

(** An entry of the documented shape has no property [checksum] of its own. *)
Definition no_own_checksum (c : option strobj * text) : Prop :=
  ∀ e, c.1 = Some e → str "checksum" ∉ e.*1.

End AuditLogger.

(** * The public operations together *)

Module Api.

Section Libraries.
Variable scrypt_kdf : jsstring → text → nat → Vault.scrypt_options → text.
Variable aes_256_gcm_encrypt : text → text → text → completion (text * text).
Variable aes_256_gcm_decrypt : text → text → text → text → completion text.
Variable sha256_hex : text → text.
Variable hmac_sha256 : text → text → text.

(** The state the three modules keep. *)
Record system := {
  the_vault : Vault.vault;
  log_file : AuditLogger.file;
  requests : gmap text ApprovalWorkflow.request;
  token_secret : text;
}.

Inductive operation :=
  | VaultInit (masterPassword : option jsstring) (entropy : nat → ascii)
  | VaultStore (key value : jsstring) (entropy : nat → ascii)
  | VaultRetrieve (key : jsstring)
  | AuditAppend (entry : option strobj) (timestamp : text)
  | AuditQuery (filters : strobj)
  | ApprovalCreate (options : ApprovalWorkflow.create_options)
      (entropy : nat → ascii) (now now' : Z)
  | ApprovalApply (requestId approver : text) (now now' : Z)
  | ApprovalCheck (requestId : text) (now now' : Z).

(** What a call hands back: a result object, or nothing ([init]
    resolves with [undefined]). *)
Inductive outcome :=
  | Nothing
  | Stored (r : Vault.store_result)
  | Retrieved (r : Vault.retrieve_result)
  | Appended (r : AuditLogger.append_result)
  | Queried (r : AuditLogger.query_result)
  | Created (r : ApprovalWorkflow.create_result)
  | Applied (r : ApprovalWorkflow.apply_result)
  | Checked (r : ApprovalWorkflow.check_result).

(** A structured result: an object that tells success from failure, with
    the data of a success and the error message of a failure. The result
    of [checkApprovalStatus] has no flag: it carries a token when the
    status is APPROVED, and an error message when the request is not
    found. *)
Definition structured (o : outcome) : Prop :=
  match o with
  | Nothing => False
  | Stored r =>
      if Vault.sr_success r then Vault.sr_error r = None else Vault.sr_error r ≠ None
  | Retrieved r =>
      if Vault.rr_success r then Vault.rr_data r ≠ None ∧ Vault.rr_error r = None
      else Vault.rr_data r = None ∧ Vault.rr_error r ≠ None
  | Appended r =>
      if AuditLogger.ap_success r then AuditLogger.ap_error r = None
      else AuditLogger.ap_error r ≠ None
  | Queried r =>
      if AuditLogger.isValid r then AuditLogger.qr_error r = None
      else AuditLogger.logs r = [] ∧ AuditLogger.qr_error r ≠ None
  | Created r =>
      if ApprovalWorkflow.cr_success r
      then ApprovalWorkflow.cr_requestId r ≠ None ∧ ApprovalWorkflow.cr_error r = None
      else ApprovalWorkflow.cr_requestId r = None ∧ ApprovalWorkflow.cr_error r ≠ None
  | Applied r =>
      if ApprovalWorkflow.ar_success r
      then ApprovalWorkflow.ar_status r ≠ None ∧ ApprovalWorkflow.ar_error r = None
      else ApprovalWorkflow.ar_status r = None ∧ ApprovalWorkflow.ar_error r ≠ None
  | Checked r =>
      (ApprovalWorkflow.ck_token r ≠ None ↔ ApprovalWorkflow.ck_status r = str "APPROVED")
      ∧ (ApprovalWorkflow.ck_error r ≠ None ↔ ApprovalWorkflow.ck_status r = str "NOT_FOUND")
  end.

(** The functions of approvalWorkflow.js have no [throw] statement and
    no [try]; on arguments of their types none of their calls throws. *)
Definition invoke (s : system) (op : operation) : completion outcome :=
  match op with
  | VaultInit masterPassword entropy =>
      (Vault.init scrypt_kdf (the_vault s) masterPassword entropy).1 ≫= λ _, Return Nothing
  | VaultStore key value entropy =>
      r ← Vault.store aes_256_gcm_encrypt (the_vault s) key value entropy;
      Return (Stored r.1)
  | VaultRetrieve key =>
      r ← Vault.retrieve aes_256_gcm_decrypt (the_vault s) key;
      Return (Retrieved r.1)
  | AuditAppend entry timestamp =>
      r ← AuditLogger.appendLog sha256_hex (log_file s) entry timestamp;
      Return (Appended r.1)
  | AuditQuery filters =>
      r ← AuditLogger.queryLogs sha256_hex (log_file s) filters;
      Return (Queried r)
  | ApprovalCreate options entropy now now' =>
      Return (Created (ApprovalWorkflow.createRequest (requests s) options entropy now now').1)
  | ApprovalApply requestId approver now now' =>
      Return (Applied (ApprovalWorkflow.applyApproval (requests s) requestId approver now now').1)
  | ApprovalCheck requestId now now' =>
      Return (Checked (ApprovalWorkflow.checkApprovalStatus hmac_sha256 (token_secret s)
                         (requests s) requestId now now').1)
  end.
End Libraries.

End Api.

(** * preload.js, main.js and renderer.js: the bridge to the main process *)

(** A string literal of the program as a JavaScript string (ASCII only). *)
Definition units (s : string) : jsstring := N_of_ascii <$> list_ascii_of_string s.

Module Ipc.

(** The values that pass the context bridge and the IPC channel. A number
    is an integer here. *)
#[local] Unset Elimination Schemes.
Inductive value :=
  | VUndefined
  | VNull
  | VBoolean (b : bool)
  | VNumber (n : Z)
  | VString (s : jsstring)
  | VArray (items : list value)
  | VObject (properties : list (jsstring * value)).
#[local] Set Elimination Schemes.

(** [typeof v === 'string' && v.length > 0] *)
Definition is_nonempty_string (v : value) : bool :=
  match v with
  | VString (_ :: _) => true
  | _ => false
  end.

(** [typeof v === 'object' && v !== null] *)
Definition is_object (v : value) : bool :=
  match v with
  | VArray _ | VObject _ => true
  | _ => false
  end.

(** [o.name], for a name that is neither [length] nor an index nor a
    property of a prototype: [undefined] unless [o] is an object that has
    it, and a [TypeError] on [undefined] and [null]. *)
Definition property (name : jsstring) (o : value) : completion value :=
  match o with
  | VUndefined | VNull => Throw TypeError
  | VObject properties =>
      Return (default VUndefined
                ((λ found, found.2.2) <$> list_find (λ kv, kv.1 = name) properties))
  | _ => Return VUndefined
  end.

(** A number in a template literal. *)
Definition decimal (n : Z) : jsstring := N_of_ascii <$> json_number n.

Fixpoint join16 (parts : list jsstring) : jsstring :=
  match parts with
  | [] => []
  | [p] => p
  | p :: rest => p ++ 44%N :: join16 rest
  end.

(** [String(v)], as a template literal takes it. *)
Fixpoint to_string (v : value) : jsstring :=
  match v with
  | VUndefined => units "undefined"
  | VNull => units "null"
  | VBoolean true => units "true"
  | VBoolean false => units "false"
  | VNumber n => decimal n
  | VString s => s
  | VArray items =>
      join16 (map (λ x, match x with
                        | VUndefined | VNull => []
                        | _ => to_string x
                        end) items)
  | VObject _ => units "[object Object]"
  end.

End Ipc.

(** ** preload.js: the functions of [window.recoveryAPI] *)

Module Preload.
Import Ipc.

Section Api.
(** [ipcRenderer.invoke(channel, ...args)]: what the promise settles to,
    [Throw] being a rejection. *)
Variable invoke : string → list value → completion value.

Definition requestScan (folderPaths : value) : completion value :=
  match folderPaths with
  | VArray items =>
      if forallb is_nonempty_string items then invoke "request-scan" [folderPaths]
      else Throw (Error "Invalid argument: folderPaths must be an array of non-empty strings.")
  | _ => Throw (Error "Invalid argument: folderPaths must be an array of non-empty strings.")
  end.

Definition requestVaultAccess (itemId : value) : completion value :=
  if is_nonempty_string itemId
  then invoke "request-vault" [VObject [(units "itemId", itemId)]]
  else Throw (Error "Invalid argument: itemId must be a non-empty string.").

Definition requestApproval (approvalDetails : value) : completion value :=
  if is_object approvalDetails then invoke "request-approval" [approvalDetails]
  else Throw (Error "Invalid argument: approvalDetails must be an object.").

Definition submitApproval (token : value) : completion value :=
  if is_nonempty_string token then invoke "submit-approval" [token]
  else Throw (Error "Invalid argument: token must be a non-empty string.").

Definition exportRecoveryPackage : completion value :=
  invoke "export-recovery-package" [].
End Api.

End Preload.

(** ** main.js: the handlers of the main process *)

Module Main.
Import Ipc.

(** The handler of [request-scan]. [now] is the clock reading when the
    timer fires and [found] the value of
    [Math.floor(Math.random() * 10)]; nothing in the [try] block throws. *)
Definition handle_request_scan (now found : Z) (scanOptions : value) : completion value :=
  Return (VObject
    [(units "success", VBoolean true);
     (units "data",
      VObject [(units "id", VString (units "scan_" ++ decimal now));
               (units "status", VString (units "completed"));
               (units "found", VNumber found)])]).

(** What the handler of [request-vault] answers. *)
Definition DENIED : value :=
  VObject
    [(units "success", VBoolean false);
     (units "error",
      VString (units "Direct vault access is prohibited. An approval is required to proceed."));
     (units "requiresApproval", VBoolean true)].

(** The handler of [request-vault]; it reads [vaultRequest.itemId] for
    the console. *)
Definition handle_request_vault (vaultRequest : value) : completion value :=
  _ ← property (units "itemId") vaultRequest;
  Return DENIED.

(** The [detail] text of the message box. *)
Definition review_detail (action : value) : jsstring :=
  units "Your request to " ++ 34%N :: to_string action
    ++ 34%N :: units " requires review. You will be notified once it is approved or denied.".

(** The handler of [request-approval]. [showMessageBox] is the call of
    [dialog.showMessageBox] on the detail text: it returns or throws. *)
Definition handle_request_approval (now : Z)
    (showMessageBox : jsstring → completion unit) (approvalDetails : value)
  : completion value :=
  try_catch
    (let approvalId := units "approval_" ++ decimal now in
     action ← property (units "action") approvalDetails;
     _ ← showMessageBox (review_detail action);
     Return (VObject
       [(units "success", VBoolean true);
        (units "data",
         VObject [(units "approvalId", VString approvalId);
                  (units "status", VString (units "pending"))])]))
    (λ error,
       Return (VObject
         [(units "success", VBoolean false);
          (units "error", VString (units "Could not initiate the approval process."))])).

(** The channels that [ipcMain.handle] is called on. *)
Definition CHANNELS : list string :=
  ["request-scan"; "request-vault"; "request-approval"]%string.

(** [ipcRenderer.invoke] against these handlers: the promise resolves
    with what the handler returns and is rejected when the handler
    throws or the channel has no handler. [remote_error] is the [Error]
    Electron rejects with, made from the channel and the error of the
    main process ([None] for a channel without handler). *)
Definition invoke (remote_error : string → option jserror → jserror) (now found : Z)
    (showMessageBox : jsstring → completion unit)
    (channel : string) (args : list value) : completion value :=
  let arg := default VUndefined (head args) in
  let handled (settled : completion value) : completion value :=
    match settled with
    | Return v => Return v
    | Throw e => Throw (remote_error channel (Some e))
    end in
  if String.eqb channel "request-scan" then handled (handle_request_scan now found arg)
  else if String.eqb channel "request-vault" then handled (handle_request_vault arg)
  else if String.eqb channel "request-approval" then
    handled (handle_request_approval now showMessageBox arg)
  else Throw (remote_error channel None).

End Main.

(** ** renderer.js: what the window passes to the bridge *)

Module Renderer.
Import Ipc.

(** The code units [trim] strips: WhiteSpace and LineTerminator. *)
Definition is_white_space (u : N) : bool :=
  (u =? 9)%N || (u =? 10)%N || (u =? 11)%N || (u =? 12)%N || (u =? 13)%N || (u =? 32)%N
  || (u =? 160)%N || (u =? 5760)%N || ((8192 <=? u)%N && (u <=? 8202)%N)
  || (u =? 8232)%N || (u =? 8233)%N || (u =? 8239)%N || (u =? 8287)%N
  || (u =? 12288)%N || (u =? 65279)%N.

Fixpoint trim_start (s : jsstring) : jsstring :=
  match s with
  | [] => []
  | u :: rest => if is_white_space u then trim_start rest else s
  end.

(** [s.trim()] *)
Definition trim (s : jsstring) : jsstring := rev (trim_start (rev (trim_start s))).

(** [s.split('\n')] *)
Fixpoint split_lf (s : jsstring) : list jsstring :=
  match s with
  | [] => [[]]
  | u :: rest =>
      if (u =? 10)%N then [] :: split_lf rest
      else match split_lf rest with
           | l :: ls => (u :: l) :: ls
           | [] => [[u]]
           end
  end.

(** The submit handler of the intake form, up to its call of
    [requestScan]: the argument of the call, or [None] when the input is
    blank and the handler reports that and returns. [input] is
    [scanPathsInput.value]. *)
Definition scan_request (input : jsstring) : option value :=
  let pathsText := trim input in
  if bool_decide (pathsText = []) then None
  else
    let folderPaths := filter (λ p, trim p ≠ []) (split_lf pathsText) in
    Some (VArray (VString <$> folderPaths)).

(** The click handler of the approval button, up to its call of
    [requestApproval]: the argument of the call, or [None] when the item
    or the justification is missing. *)
Definition approval_request (itemId justificationInput : jsstring) : option value :=
  let justification := trim justificationInput in
  if bool_decide (itemId = []) || bool_decide (justification = []) then None
  else
    Some (VObject [(units "action", VString (units "Access Vault Item: " ++ itemId));
                   (units "justification", VString justification)]).

End Renderer.


(** * Stand-ins for the library functions, for the examples *)

Module Samples.

Definition zeros : nat → ascii := λ _, "000"%char.

(** A key derivation that gives zero bytes. *)
Definition kdf (password : jsstring) (salt : text) (keylen : nat)
    (options : Vault.scrypt_options) : text :=
  replicate keylen "000"%char.

(** A cipher that leaves the plaintext as it is, with a tag of 16 zero bytes. *)
Definition encrypt (key iv plaintext : text) : completion (text * text) :=
  Return (plaintext, replicate 16 "000"%char).

Definition decrypt (key iv tag ciphertext : text) : completion text :=
  Return ciphertext.

(** A digest without collisions: the data itself. *)
Definition digest (data : text) : text := data.

Definition mac (key message : text) : text := key ++ message.

Definition password : jsstring := replicate 12 97%N.

Definition fresh : Api.system :=
  {| Api.the_vault := Vault.new_vault; Api.log_file := AuditLogger.Absent;
     Api.requests := ∅; Api.token_secret := ApprovalWorkflow.DEFAULT_SECRET |}.

(** A request that one approval of [bob] approves, valid for one second. *)
Definition options : ApprovalWorkflow.create_options :=
  {| ApprovalWorkflow.opt_requesterId := str "alice";
     ApprovalWorkflow.opt_action := str "ACCESS_VAULT_ITEM";
     ApprovalWorkflow.opt_details := str "key_123";
     ApprovalWorkflow.opt_requiredApprovals := Some 1%Z;
     ApprovalWorkflow.opt_potentialApprovers := Some [str "bob"];
     ApprovalWorkflow.opt_ttl := Some 1%Z |}.

Definition request_id : text := to_hex (randomBytes 16 zeros).

(** The store after the request is created at time 0 ... *)
Definition created : gmap text ApprovalWorkflow.request :=
  (ApprovalWorkflow.createRequest ∅ options zeros 0 0).2.

(** ... and after [bob] approves it at time 500. *)
Definition approved : gmap text ApprovalWorkflow.request :=
  (ApprovalWorkflow.applyApproval created request_id (str "bob") 500 500).2.

(** Two audit entries. *)
Definition entries : list (option strobj * text) :=
  [(Some [(str "userId", str "u1"); (str "action", str "LOGIN");
          (str "target", str "vault"); (str "outcome", str "SUCCESS")],
    str "2026-01-01T00:00:00.000Z");
   (Some [(str "userId", str "u2"); (str "action", str "VAULT_ACCESS_REQUEST");
          (str "target", str "key_123"); (str "reason", str "recovery");
          (str "outcome", str "PENDING")],
    str "2026-01-01T00:00:01.000Z")].

End Samples.

(** * Proofs *)

(** ** JSON: parsing what was serialised *)

Arguments json_quote : simpl never.
Arguments json_escape : simpl never.
Arguments JSON_stringify : simpl never.
Arguments serialise : simpl never.

(** Case analysis on all 256 values of a character. *)
Ltac each_char c := destruct c as [[] [] [] [] [] [] [] []].

Lemma lex_escape_char c acc rest :
  lex (Some acc) (json_escape_char c ++ rest) = lex (Some (c :: acc)) rest.
Proof. each_char c; reflexivity. Qed.

Lemma lex_escape x : ∀ acc rest,
  lex (Some acc) (json_escape x ++ dquote :: rest)
  = (TString (rev acc ++ x) ::.) <$> lex None rest.
Proof.
  induction x as [|c x IH]; intros acc rest.
  - simpl. by rewrite app_nil_r.
  - change (json_escape (c :: x)) with (json_escape_char c ++ json_escape x).
    rewrite <- app_assoc, lex_escape_char, IH. simpl. by rewrite <- app_assoc.
Qed.

Lemma lex_quote x rest :
  lex None (json_quote x ++ rest) = (TString x ::.) <$> lex None rest.
Proof.
  unfold json_quote.
  change (lex None ((dquote :: json_escape x ++ [dquote]) ++ rest))
    with (lex (Some []) ((json_escape x ++ [dquote]) ++ rest)).
  rewrite <- app_assoc. apply lex_escape.
Qed.

Definition member_text (kv : text * text) : text :=
  json_quote kv.1 ++ ":"%char :: json_quote kv.2.

Lemma omap_member_js (o : strobj) : omap json_member (js o) = map member_text o.
Proof.
  induction o as [|[k v] o IH]; [done|].
  change (omap json_member (js ((k, v) :: o)))
    with (member_text (k, v) :: omap json_member (js o)).
  by rewrite IH.
Qed.

Fixpoint more_tokens (o : strobj) : list token :=
  match o with
  | [] => [TRBrace]
  | (k, v) :: o' => TComma :: TString k :: TColon :: TString v :: more_tokens o'
  end.

Definition object_tokens (o : strobj) : list token :=
  match o with
  | [] => [TLBrace; TRBrace]
  | (k, v) :: o' => TLBrace :: TString k :: TColon :: TString v :: more_tokens o'
  end.

Lemma lex_punct c s :
  lex None (c :: s) =
  if decide (c = ":"%char) then (TColon ::.) <$> lex None s
  else if decide (c = ","%char) then (TComma ::.) <$> lex None s
  else if decide (c = "{"%char) then (TLBrace ::.) <$> lex None s
  else if decide (c = "}"%char) then (TRBrace ::.) <$> lex None s
  else lex None (c :: s).
Proof. repeat case_decide; subst; reflexivity. Qed.

Lemma lex_member k v rest :
  lex None (member_text (k, v) ++ rest)
  = (λ ts, TString k :: TColon :: TString v :: ts) <$> lex None rest.
Proof.
  unfold member_text. cbn [fst snd]. rewrite <- app_assoc, lex_quote.
  rewrite <- app_comm_cons, lex_punct. simpl decide. cbv iota.
  rewrite lex_quote. by destruct (lex None rest).
Qed.

Lemma lex_more (o : strobj) :
  ∀ k v, lex None (join_comma (map member_text ((k, v) :: o)) ++ ["}"%char])
         = Some (TString k :: TColon :: TString v :: more_tokens o).
Proof.
  induction o as [|[k' v'] o IH]; intros k v.
  - cbn [map join_comma]. by rewrite lex_member.
  - change (join_comma (map member_text ((k, v) :: (k', v') :: o)))
      with (member_text (k, v) ++ ","%char :: join_comma (map member_text ((k', v') :: o))).
    rewrite <- app_assoc, lex_member, <- app_comm_cons, lex_punct.
    simpl decide. cbv iota. by rewrite IH.
Qed.

Lemma lex_stringify (o : strobj) :
  lex None (JSON_stringify (js o)) = Some (object_tokens o).
Proof.
  unfold JSON_stringify. rewrite omap_member_js, lex_punct. simpl decide. cbv iota.
  destruct o as [|[k v] o]; [done|]. by rewrite lex_more.
Qed.

Lemma parse_more_tokens (o : strobj) : parse_more (more_tokens o) = Some o.
Proof. induction o as [|[k v] o IH]; [done|]. simpl. by rewrite IH. Qed.

Lemma parse_object_tokens (o : strobj) : parse_object (object_tokens o) = Some o.
Proof.
  destruct o as [|[k v] o]; [done|]. simpl.
  destruct (more_tokens o) eqn:E.
  { by destruct o as [|[]]. }
  rewrite <- E, parse_more_tokens. simpl.
  destruct o as [|[??] ?]; simpl in *; by simplify_eq.
Qed.

(** The names of an object are in order: no name is listed after one of
    a higher rank. *)
Fixpoint ordered (ks : list text) : Prop :=
  match ks with
  | [] => True
  | k :: rest => Forall (λ k', (key_rank k ≤ key_rank k')%N) rest ∧ ordered rest
  end.

(** An object as JavaScript has it: no name twice, the names in order. *)
Definition js_object {V} (o : list (text * V)) : Prop := NoDup o.*1 ∧ ordered o.*1.

Lemma ordered_app ks1 ks2 :
  ordered (ks1 ++ ks2) ↔
  ordered ks1 ∧ ordered ks2
  ∧ Forall (λ k, Forall (λ k', (key_rank k ≤ key_rank k')%N) ks2) ks1.
Proof.
  induction ks1 as [|k ks1 IH]; simpl.
  - rewrite Forall_nil. naive_solver.
  - rewrite Forall_app, Forall_cons, IH. naive_solver.
Qed.

Lemma ordered_filter (P : text → Prop) `{∀ k, Decision (P k)} ks :
  ordered ks → ordered (filter P ks).
Proof.
  induction ks as [|k ks IH]; [done|]. intros [Hk Hks].
  rewrite filter_cons. case_decide; [|by auto]. split; [|by auto].
  rewrite Forall_forall in Hk |- *. intros k' [_ ?]%list_elem_of_filter. by apply Hk.
Qed.

Lemma obj_replace_keys {V} k (v : V) o : (obj_replace k v o).*1 = o.*1.
Proof.
  induction o as [|[k' v'] o IH]; [done|]. simpl.
  case_decide; simpl; [by subst|]. f_equal. exact IH.
Qed.

Lemma obj_insert_keys {V} k (v : V) o k' :
  k' ∈ (obj_insert k v o).*1 ↔ k' = k ∨ k' ∈ o.*1.
Proof.
  induction o as [|[k1 v1] o IH]; simpl.
  - rewrite list_elem_of_singleton. set_solver.
  - destruct (_ <? _)%N; simpl; rewrite ?elem_of_cons, ?IH; naive_solver.
Qed.

Lemma obj_insert_ordered {V} k (v : V) o :
  ordered o.*1 → ordered (obj_insert k v o).*1.
Proof.
  induction o as [|[k1 v1] o IH]; simpl; [by split|]. intros [Hk1 Ho].
  destruct (N.ltb_spec (key_rank k) (key_rank k1)) as [Hlt|Hle]; simpl.
  - split; [|by split]. apply Forall_cons. split; [lia|].
    eapply Forall_impl; [exact Hk1|]. simpl. intros; lia.
  - split; [|by apply IH]. rewrite Forall_forall. intros k' Hin.
    apply obj_insert_keys in Hin as [->|Hin]; [done|].
    rewrite Forall_forall in Hk1. by apply Hk1.
Qed.

(** A name that comes after all the others is added at the end. *)
Lemma obj_insert_last {V} k (v : V) o :
  Forall (λ k', (key_rank k' ≤ key_rank k)%N) o.*1 → obj_insert k v o = o ++ [(k, v)].
Proof.
  induction o as [|[k1 v1] o IH]; [done|]. simpl. intros [Hk1 Ho]%Forall_cons.
  rewrite (proj2 (N.ltb_ge _ _)) by done. by rewrite IH.
Qed.

Lemma obj_set_fresh {V} k (v : V) (o : list (text * V)) :
  k ∉ o.*1 → Forall (λ k', (key_rank k' ≤ key_rank k)%N) o.*1 →
  obj_set k v o = o ++ [(k, v)].
Proof.
  intros Hk Ho. unfold obj_set. rewrite decide_False by done. by apply obj_insert_last.
Qed.

Lemma obj_spread_fresh {V} (extra base : list (text * V)) :
  js_object (base ++ extra) → obj_spread base extra = base ++ extra.
Proof.
  revert base. induction extra as [|[k v] extra IH]; intros base [Hnd Ho].
  - by rewrite app_nil_r.
  - unfold obj_spread in *. simpl.
    rewrite obj_set_fresh.
    + rewrite IH; rewrite <- app_assoc; done.
    + rewrite fmap_app in Hnd. apply NoDup_app in Hnd as (_ & Hd & _).
      intros Hin. apply (Hd _ Hin). simpl. left.
    + rewrite fmap_app in Ho. apply ordered_app in Ho as (_ & _ & Ho).
      eapply Forall_impl; [exact Ho|]. simpl. intros k' Hk'. by apply Forall_inv in Hk'.
Qed.

Theorem parse_stringify (o : strobj) :
  js_object o → JSON_parse (JSON_stringify (js o)) = Return o.
Proof.
  intros Ho. unfold JSON_parse. rewrite lex_stringify. simpl.
  rewrite parse_object_tokens. by rewrite obj_spread_fresh.
Qed.

Lemma stringify_inj (o1 o2 : strobj) :
  JSON_stringify (js o1) = JSON_stringify (js o2) → o1 = o2.
Proof.
  intros E. pose proof (lex_stringify o1) as H1. rewrite E, lex_stringify in H1.
  injection H1 as H1. pose proof (parse_object_tokens o1) as H2.
  rewrite <- H1, parse_object_tokens in H2. congruence.
Qed.

(** ** No proper suffix of a serialised object parses *)

Lemma suffix_cons_cases {A} (F : list A) y l :
  F `suffix_of` y :: l → F = y :: l ∨ F `suffix_of` l.
Proof. intros [[|? k] E]; simplify_eq/=; [by left|right]. by apply suffix_app_r. Qed.

Lemma suffix_app_cases {A} (F a b : list A) :
  F `suffix_of` a ++ b →
  (∃ a', a' `suffix_of` a ∧ F = a' ++ b) ∨ F `suffix_of` b.
Proof.
  induction a as [|x a IH]; simpl; intros HF; [by right|].
  apply suffix_cons_cases in HF as [->|HF].
  - left. by exists (x :: a).
  - destruct (IH HF) as [(a' & Ha' & ->)|?]; [left|by right].
    exists a'. split; [by apply suffix_cons_r|done].
Qed.

Lemma suffix_flat_map {A B} (f : A → list B) (R : list B) x :
  R `suffix_of` flat_map f x →
  ∃ P x', R = P ++ flat_map f x' ∧ (P = [] ∨ ∃ c, P `suffix_of` f c).
Proof.
  induction x as [|c x IH]; simpl; intros HR.
  - apply suffix_nil_inv in HR as ->. exists [], []. auto.
  - apply suffix_app_cases in HR as [(P & HP & ->)|HR]; [|by apply IH].
    exists P, x. eauto.
Qed.

(** Between tokens, an escaped character stops the lexer, is skipped, or
    is one punctuation token. *)
Lemma lex_outside_escape_char c s :
  lex None (json_escape_char c ++ s) = None
  ∨ lex None (json_escape_char c ++ s) = lex None s
  ∨ ∃ t, lex None (json_escape_char c ++ s) = (t ::.) <$> lex None s.
Proof.
  each_char c;
    first [ by left | by (right; left) | by (right; right; eexists) ].
Qed.

(** The text after a closing quote of a serialised object. *)
Inductive rest_ok : text → Prop :=
  | rest_end : rest_ok ["}"%char]
  | rest_str c x T :
      c = ":"%char ∨ c = ","%char → rest_ok T → rest_ok (c :: json_quote x ++ T).

Lemma lex_outside_escape x T :
  (∀ acc, lex (Some acc) T = None) →
  lex None (json_escape x ++ dquote :: T) = None.
Proof.
  intros HT. induction x as [|c x IH].
  - apply (HT []).
  - change (json_escape (c :: x)) with (json_escape_char c ++ json_escape x).
    rewrite <- app_assoc.
    destruct (lex_outside_escape_char c (json_escape x ++ dquote :: T))
      as [->|[->|[t ->]]]; [done|done|by rewrite IH].
Qed.

Lemma lex_inside_rest T : rest_ok T → ∀ acc, lex (Some acc) T = None.
Proof.
  induction 1 as [|c x T Hc _ IH]; intros acc; [done|].
  assert (lex (Some acc) (c :: json_quote x ++ T)
          = lex (Some (c :: acc)) (json_quote x ++ T)) as ->
    by (by destruct Hc as [-> | ->]).
  unfold json_quote.
  change (lex (Some (c :: acc)) ((dquote :: json_escape x ++ [dquote]) ++ T))
    with ((TString (rev (c :: acc)) ::.) <$> lex None ((json_escape x ++ [dquote]) ++ T)).
  rewrite <- app_assoc. simpl app. by rewrite lex_outside_escape.
Qed.

(** A suffix of one escaped character: all of it, none of it, the quote
    of an escaped quote, or something the lexer rejects between tokens. *)
Lemma suffix_escape_char c P :
  P `suffix_of` json_escape_char c →
  P = [] ∨ P = json_escape_char c ∨ P = [dquote] ∨ ∀ s, lex None (P ++ s) = None.
Proof.
  intros HP.
  each_char c; vm_compute in HP;
    repeat (apply suffix_cons_cases in HP as [->|HP]; [by auto|]);
    apply suffix_nil_inv in HP as ->; by auto.
Qed.

Definition unparsable (F : text) : Prop := lex None F ≫= parse_object = None.

Lemma unparsable_lex_none F : lex None F = None → unparsable F.
Proof. unfold unparsable. by intros ->. Qed.

Lemma unparsable_string_first F x s :
  lex None F = (TString x ::.) <$> s → unparsable F.
Proof. unfold unparsable. intros ->. by destruct s. Qed.

Lemma unparsable_suffix T : rest_ok T → ∀ F, F `suffix_of` T → unparsable F.
Proof.
  induction 1 as [|c x T Hc HT IH]; intros F HF.
  - apply suffix_cons_cases in HF as [->|HF]; [done|].
    by apply suffix_nil_inv in HF as ->.
  - apply suffix_cons_cases in HF as [->|HF].
    { unfold unparsable. rewrite lex_punct.
      destruct Hc as [-> | ->]; simpl decide; cbv iota;
        by destruct (lex None _). }
    unfold json_quote in HF. rewrite <- app_comm_cons in HF.
    apply suffix_cons_cases in HF as [->|HF].
    { eapply unparsable_string_first.
      change (lex None (dquote :: ?s)) with (lex (Some []) s).
      rewrite <- app_assoc. apply lex_escape. }
    rewrite <- app_assoc in HF. simpl app in HF.
    apply suffix_app_cases in HF as [(R & HR & ->)|HF].
    + apply suffix_flat_map in HR as (P & x' & -> & HP).
      fold (json_escape x'). rewrite <- app_assoc.
      assert (unparsable (json_escape x' ++ dquote :: T)) as Haligned.
      { apply unparsable_lex_none, lex_outside_escape. by apply lex_inside_rest. }
      destruct HP as [->|[c' HP]]; [done|].
      apply suffix_escape_char in HP as [->|[->|[->|HP]]].
      * done.
      * apply unparsable_lex_none.
        rewrite app_assoc.
        change (json_escape_char c' ++ json_escape x') with (json_escape (c' :: x')).
        apply lex_outside_escape. by apply lex_inside_rest.
      * eapply unparsable_string_first. simpl app.
        change (lex None (dquote :: ?s)) with (lex (Some []) s).
        apply lex_escape.
      * by apply unparsable_lex_none.
    + apply suffix_cons_cases in HF as [->|HF]; [|by apply IH].
      apply unparsable_lex_none.
      change (lex None (dquote :: T)) with (lex (Some []) T).
      by apply lex_inside_rest.
Qed.

Lemma rest_ok_members (o : strobj) k v :
  rest_ok (","%char :: join_comma (map member_text ((k, v) :: o)) ++ ["}"%char]).
Proof.
  revert k v. induction o as [|[k' v'] o IH]; intros k v.
  - cbn [map join_comma]. unfold member_text. cbn [fst snd].
    rewrite <- app_assoc, <- app_comm_cons.
    apply rest_str; [by right|]. apply rest_str; [by left|]. constructor.
  - change (join_comma (map member_text ((k, v) :: (k', v') :: o)))
      with (member_text (k, v) ++ ","%char :: join_comma (map member_text ((k', v') :: o))).
    unfold member_text at 1. cbn [fst snd].
    rewrite <- !app_assoc, <- !app_comm_cons.
    apply rest_str; [by right|]. apply rest_str; [by left|].
    apply IH.
Qed.

(** A serialised object is the only suffix of itself that parses. *)
Theorem parse_proper_suffix (o : strobj) F :
  F `suffix_of` JSON_stringify (js o) → F ≠ JSON_stringify (js o) →
  JSON_parse F = Throw SyntaxError.
Proof.
  intros HF Hne. unfold JSON_stringify in *. rewrite omap_member_js in *.
  apply suffix_cons_cases in HF as [->|HF]; [done|].
  assert (unparsable F) as HU; [|unfold JSON_parse; by rewrite HU].
  destruct o as [|[k v] o].
  - by apply (unparsable_suffix _ rest_end).
  - apply (unparsable_suffix _ (rest_ok_members o k v)). by apply suffix_cons_r.
Qed.

(** ** Lines: [trim] and [split_lf] *)

Lemma split_lf_nonempty s : ∃ l ls, split_lf s = l :: ls.
Proof.
  induction s as [|c s (l & ls & IH)]; simpl; [by eauto|].
  case_decide; [by eauto|]. rewrite IH. eauto.
Qed.

Lemma split_lf_no_lf s : LF ∉ s → split_lf s = [s].
Proof.
  induction s as [|c s IH]; intros Hs; [done|]. simpl.
  apply not_elem_of_cons in Hs as [Hc Hs].
  rewrite decide_False by done. by rewrite IH.
Qed.

Lemma split_lf_app s t : split_lf (s ++ LF :: t) = split_lf s ++ split_lf t.
Proof.
  induction s as [|c s IH]; [done|].
  rewrite <- app_comm_cons. cbn [split_lf]. rewrite IH.
  case_decide; [done|].
  destruct (split_lf_nonempty s) as (l & ls & E). rewrite E. reflexivity.
Qed.

Lemma last_split_lf s t : LF ∉ t → last (split_lf (s ++ LF :: t)) = Some t.
Proof.
  intros Ht. rewrite split_lf_app, (split_lf_no_lf t) by done. apply last_snoc.
Qed.

Lemma trim_start_suffix s : trim_start s `suffix_of` s.
Proof.
  induction s as [|c s IH]; [done|]. simpl.
  destruct (is_js_space c); [by apply suffix_cons_r|done].
Qed.

Lemma trim_start_head c s : is_js_space c = false → trim_start (c :: s) = c :: s.
Proof. simpl. by intros ->. Qed.

(** Trimming stops at or before a character that is not a space. *)
Lemma trim_start_app s d t :
  is_js_space d = false → trim_start (s ++ d :: t) = trim_start (s ++ [d]) ++ t.
Proof.
  intros Hd. induction s as [|c s IH]; simpl.
  - by rewrite Hd.
  - destruct (is_js_space c); [done|]. by rewrite <- app_comm_cons, <- app_assoc.
Qed.

Lemma trim_start_snoc s d :
  is_js_space d = false → ∃ s', trim_start (s ++ [d]) = s' ++ [d].
Proof.
  intros Hd. induction s as [|c s (s' & IH)]; simpl.
  - exists []. by rewrite Hd.
  - destruct (is_js_space c); [by eauto|]. by exists (c :: s).
Qed.

Lemma trim_snoc_lf s d :
  is_js_space d = false → trim ((s ++ [d]) ++ [LF]) = trim_start (s ++ [d]).
Proof.
  intros Hd. unfold trim. rewrite <- app_assoc. simpl app.
  rewrite trim_start_app by done.
  destruct (trim_start_snoc s d Hd) as (s' & ->).
  rewrite !rev_app_distr. simpl. rewrite Hd.
  change (d :: rev s') with (rev [d] ++ rev s').
  by rewrite <- rev_app_distr, rev_involutive.
Qed.

(** Lengths: a line is no longer than the text, and trimming a text
    that ends with a line feed takes that away at least. *)
Lemma split_lf_length s : Forall (λ l, length l ≤ length s) (split_lf s).
Proof.
  induction s as [|c s IH]; simpl; [by apply Forall_singleton|].
  case_decide.
  - apply Forall_cons. split; [simpl; lia|].
    eapply Forall_impl; [exact IH|]. simpl. lia.
  - destruct (split_lf s) as [|l ls]; [apply Forall_singleton; simpl; lia|].
    apply Forall_cons in IH as [Hl Hls]. apply Forall_cons. split; [simpl; lia|].
    eapply Forall_impl; [exact Hls|]. simpl. lia.
Qed.

Lemma trim_start_length s : length (trim_start s) ≤ length s.
Proof. apply suffix_length, trim_start_suffix. Qed.

Lemma trim_lf_length s : length (trim (s ++ [LF])) ≤ length s.
Proof.
  unfold trim.
  pose proof (trim_start_suffix (s ++ [LF])) as Hs.
  destruct (trim_start (s ++ [LF])) as [|c u _] using rev_ind; [simpl; lia|].
  pose proof (suffix_snoc_inv_1 _ _ _ _ Hs) as ->.
  apply suffix_snoc_inv_2, suffix_length in Hs.
  rewrite rev_app_distr. simpl. rewrite length_rev.
  etrans; [apply trim_start_length|]. by rewrite length_rev.
Qed.

(** ** The text of a serialised object has no line feed *)

Lemma escape_char_no_lf c : LF ∉ json_escape_char c.
Proof. each_char c; refine (bool_decide_unpack _ _); vm_compute; exact I. Qed.

Lemma escape_no_lf x : LF ∉ json_escape x.
Proof.
  induction x as [|c x IH]; [apply not_elem_of_nil|].
  change (json_escape (c :: x)) with (json_escape_char c ++ json_escape x).
  rewrite elem_of_app. intros [?|?]; [by eapply escape_char_no_lf|done].
Qed.

Lemma quote_no_lf x : LF ∉ json_quote x.
Proof.
  unfold json_quote. rewrite elem_of_cons, elem_of_app, list_elem_of_singleton.
  intros [?|[?|?]]; [done| by eapply escape_no_lf |done].
Qed.

Lemma member_no_lf kv : LF ∉ member_text kv.
Proof.
  unfold member_text. rewrite elem_of_app, elem_of_cons.
  intros [?|[?|?]]; [by eapply quote_no_lf|done|by eapply quote_no_lf].
Qed.

Lemma join_comma_no_lf parts : Forall (λ p, LF ∉ p) parts → LF ∉ join_comma parts.
Proof.
  induction 1 as [|p parts Hp _ IH]; [apply not_elem_of_nil|].
  destruct parts as [|q parts]; [done|].
  change (join_comma (p :: q :: parts)) with (p ++ ","%char :: join_comma (q :: parts)).
  rewrite elem_of_app, elem_of_cons. intros [?|[?|?]]; done.
Qed.

Lemma serialise_shape o :
  ∃ m, serialise o = "{"%char :: m ++ ["}"%char] ∧ LF ∉ m.
Proof.
  exists (join_comma (map member_text o)). split.
  - unfold serialise, JSON_stringify. by rewrite omap_member_js.
  - apply join_comma_no_lf, Forall_forall. intros p (kv & -> & _)%list_elem_of_fmap.
    apply member_no_lf.
Qed.

Lemma serialise_no_lf o : LF ∉ serialise o.
Proof.
  destruct (serialise_shape o) as (m & -> & Hm).
  rewrite elem_of_cons, elem_of_app, list_elem_of_singleton.
  intros [?|[?|?]]; done.
Qed.

(** The same for every object, numbers included. *)
Lemma uint_no_lf d : LF ∉ str (DecimalString.NilEmpty.string_of_uint d).
Proof.
  induction d; simpl; [apply not_elem_of_nil|..];
    (change (str (String ?c ?s)) with (c :: str s);
     apply not_elem_of_cons; split; [done|exact IHd]).
Qed.

Lemma number_no_lf n : LF ∉ json_number n.
Proof.
  unfold json_number. destruct (Z.to_int n) as [d|d]; simpl.
  - destruct d; try apply uint_no_lf.
    refine (bool_decide_unpack _ _). vm_compute. exact I.
  - change (str (String ?c ?s)) with (c :: str s).
    apply not_elem_of_cons. split; [done|].
    destruct d; try apply uint_no_lf.
    refine (bool_decide_unpack _ _). vm_compute. exact I.
Qed.

Lemma stringify_no_lf (o : jsobject) : LF ∉ JSON_stringify o.
Proof.
  unfold JSON_stringify.
  rewrite elem_of_cons, elem_of_app, list_elem_of_singleton.
  intros [?|[Hin|?]]; [done| |done]. revert Hin.
  apply join_comma_no_lf, Forall_forall.
  intros p ([k v] & _ & Hp)%list_elem_of_omap.
  unfold json_member in Hp. cbn [fst snd] in Hp. destruct v; simplify_eq.
  - rewrite elem_of_app, elem_of_cons.
    intros [?|[?|?]]; [by eapply quote_no_lf|done|by eapply quote_no_lf].
  - rewrite elem_of_app, elem_of_cons.
    intros [?|[?|?]]; [by eapply quote_no_lf|done|by eapply number_no_lf].
Qed.


(** ** Objects *)

Lemma js_obj_replace k v (o : strobj) :
  obj_replace k (JStr v) (js o) = js (obj_replace k v o).
Proof.
  induction o as [|[k' v'] o IH]; [done|]. simpl.
  case_decide; [done|]. simpl. by f_equal.
Qed.

Lemma js_obj_insert k v (o : strobj) :
  obj_insert k (JStr v) (js o) = js (obj_insert k v o).
Proof.
  induction o as [|[k' v'] o IH]; [done|]. simpl.
  destruct (_ <? _)%N; [done|]. simpl. by f_equal.
Qed.

Lemma js_keys (o : strobj) : (js o).*1 = o.*1.
Proof. unfold js. rewrite <- list_fmap_compose. by apply list_fmap_ext. Qed.

Lemma js_obj_set k v (o : strobj) : obj_set k (JStr v) (js o) = js (obj_set k v o).
Proof.
  unfold obj_set. rewrite js_keys.
  case_decide; [apply js_obj_replace|apply js_obj_insert].
Qed.

Lemma js_obj_spread (b a : strobj) : obj_spread (js a) (js b) = js (obj_spread a b).
Proof.
  revert a. induction b as [|[k v] b IH]; intros a; [done|].
  unfold obj_spread in *. simpl. by rewrite js_obj_set, IH.
Qed.

Lemma obj_set_keys {V} k (v : V) o k' :
  k' ∈ (obj_set k v o).*1 ↔ k' = k ∨ k' ∈ o.*1.
Proof.
  unfold obj_set. case_decide.
  - rewrite obj_replace_keys. naive_solver.
  - apply obj_insert_keys.
Qed.

Lemma obj_insert_NoDup {V} k (v : V) o :
  k ∉ o.*1 → NoDup o.*1 → NoDup (obj_insert k v o).*1.
Proof.
  induction o as [|[k1 v1] o IH]; simpl; intros Hk Hnd.
  - apply NoDup_singleton.
  - destruct (_ <? _)%N; simpl; [by apply NoDup_cons|].
    apply NoDup_cons in Hnd as [Hk1 Hnd]. apply not_elem_of_cons in Hk as [Hne Hk].
    apply NoDup_cons. split; [|by apply IH].
    rewrite obj_insert_keys. naive_solver.
Qed.

Lemma obj_set_NoDup {V} k (v : V) o : NoDup o.*1 → NoDup (obj_set k v o).*1.
Proof.
  intros Hnd. unfold obj_set. case_decide.
  - by rewrite obj_replace_keys.
  - by apply obj_insert_NoDup.
Qed.

Lemma obj_set_ordered {V} k (v : V) o : ordered o.*1 → ordered (obj_set k v o).*1.
Proof.
  intros Ho. unfold obj_set. case_decide.
  - by rewrite obj_replace_keys.
  - by apply obj_insert_ordered.
Qed.

Lemma obj_set_object {V} k (v : V) o : js_object o → js_object (obj_set k v o).
Proof. intros [? ?]. split; [by apply obj_set_NoDup|by apply obj_set_ordered]. Qed.

Lemma obj_spread_keys {V} (b a : list (text * V)) k' :
  k' ∈ (obj_spread a b).*1 ↔ k' ∈ a.*1 ∨ k' ∈ b.*1.
Proof.
  revert a. induction b as [|[k v] b IH]; intros a.
  - simpl. set_solver.
  - unfold obj_spread in *. simpl. rewrite IH, obj_set_keys, elem_of_cons. naive_solver.
Qed.

Lemma obj_spread_NoDup {V} (b a : list (text * V)) :
  NoDup a.*1 → NoDup (obj_spread a b).*1.
Proof.
  revert a. induction b as [|[k v] b IH]; intros a Ha; [done|].
  unfold obj_spread in *. simpl. by apply IH, obj_set_NoDup.
Qed.

Lemma obj_spread_object {V} (b a : list (text * V)) :
  js_object a → js_object (obj_spread a b).
Proof.
  revert a. induction b as [|[k v] b IH]; intros a Ha; [done|].
  unfold obj_spread in *. simpl. by apply IH, obj_set_object.
Qed.

Lemma obj_get_replace_eq {V} k (v : V) o :
  k ∈ o.*1 → obj_get k (obj_replace k v o) = Some v.
Proof.
  induction o as [|[k1 v1] o IH]; simpl; [by intros ?%elem_of_nil|].
  intros Hin. case_decide; simpl; [by rewrite decide_True|].
  rewrite decide_False by done. apply IH.
  apply elem_of_cons in Hin as [?|?]; [congruence|done].
Qed.

Lemma obj_get_insert_eq {V} k (v : V) o :
  k ∉ o.*1 → obj_get k (obj_insert k v o) = Some v.
Proof.
  induction o as [|[k1 v1] o IH]; simpl; intros Hk.
  - by rewrite decide_True.
  - apply not_elem_of_cons in Hk as [Hne Hk].
    destruct (_ <? _)%N; simpl; [by rewrite decide_True|].
    rewrite decide_False by done. by apply IH.
Qed.

Lemma obj_get_set_eq {V} k (v : V) o : obj_get k (obj_set k v o) = Some v.
Proof.
  unfold obj_set. case_decide; [by apply obj_get_replace_eq|by apply obj_get_insert_eq].
Qed.

Lemma obj_get_set_ne {V} k k' (v : V) o :
  k' ≠ k → obj_get k' (obj_set k v o) = obj_get k' o.
Proof.
  intros Hne. unfold obj_set. case_decide as Hin; clear Hin.
  - induction o as [|[k1 v1] o IH]; simpl; [done|].
    case_decide; simpl; [subst; by rewrite !decide_False by congruence|].
    case_decide; done.
  - induction o as [|[k1 v1] o IH]; simpl.
    + by rewrite decide_False.
    + destruct (_ <? _)%N; simpl; [by rewrite decide_False by congruence|].
      case_decide; done.
Qed.

Lemma obj_get_None {V} k (o : list (text * V)) : k ∉ o.*1 → obj_get k o = None.
Proof.
  induction o as [|[k1 v1] o IH]; simpl; [done|].
  rewrite not_elem_of_cons. intros [? ?]. rewrite decide_False by congruence. auto.
Qed.

Lemma obj_get_Some {V} k (o : list (text * V)) : k ∈ o.*1 ↔ obj_get k o ≠ None.
Proof.
  induction o as [|[k1 v1] o IH]; simpl.
  - split; [by intros ?%elem_of_nil|done].
  - rewrite elem_of_cons. case_decide; [naive_solver|]. rewrite <- IH. naive_solver.
Qed.

Lemma obj_remove_insert {V} k (v : V) o : obj_remove k (obj_insert k v o) = obj_remove k o.
Proof.
  unfold obj_remove. induction o as [|[k1 v1] o IH]; simpl.
  - by rewrite filter_cons_False by (simpl; auto).
  - destruct (_ <? _)%N; [by rewrite filter_cons_False by (simpl; auto)|].
    rewrite !(filter_cons _ (k1, v1)). case_decide; by rewrite IH.
Qed.

Lemma obj_remove_fresh {V} k (o : list (text * V)) : k ∉ o.*1 → obj_remove k o = o.
Proof.
  unfold obj_remove. induction o as [|[k1 v1] o IH]; [done|]. simpl.
  intros [? ?]%not_elem_of_cons.
  rewrite filter_cons_True by (simpl; auto). by rewrite IH.
Qed.

Lemma obj_remove_set_fresh {V} k (v : V) o :
  k ∉ o.*1 → obj_remove k (obj_set k v o) = o.
Proof.
  intros Hk. unfold obj_set. rewrite decide_False by done.
  by rewrite obj_remove_insert, obj_remove_fresh.
Qed.

Lemma obj_remove_NoDup {V} k (o : list (text * V)) :
  NoDup o.*1 → NoDup (obj_remove k o).*1.
Proof.
  unfold obj_remove. induction o as [|[k1 v1] o IH]; [done|]. simpl.
  intros [Hk1 Hnd]%NoDup_cons. rewrite filter_cons. case_decide; simpl; [|by auto].
  apply NoDup_cons. split; [|by auto].
  intros ((k2 & v2) & -> & [_ ?]%list_elem_of_filter)%list_elem_of_fmap.
  apply Hk1. apply list_elem_of_fmap. by exists (k2, v2).
Qed.

Lemma obj_remove_names {V} k (o : list (text * V)) :
  (obj_remove k o).*1 = filter (λ k', k' ≠ k) o.*1.
Proof.
  unfold obj_remove. induction o as [|[k1 v1] o IH]; [done|].
  rewrite fmap_cons, !filter_cons. cbn [fst].
  case_decide; [rewrite fmap_cons; cbn [fst]; f_equal|]; exact IH.
Qed.

Lemma obj_remove_object {V} k (o : list (text * V)) :
  js_object o → js_object (obj_remove k o).
Proof.
  intros [? ?]. split; [by apply obj_remove_NoDup|].
  rewrite obj_remove_names. by apply ordered_filter.
Qed.

Lemma obj_get_remove_ne {V} k k' (o : list (text * V)) :
  k' ≠ k → obj_get k' (obj_remove k o) = obj_get k' o.
Proof.
  intros Hne. unfold obj_remove. induction o as [|[k1 v1] o IH]; [done|].
  rewrite filter_cons. simpl. case_decide as Hk1; simpl.
  - by rewrite IH.
  - rewrite IH. subst. by rewrite decide_False.
Qed.

Lemma obj_remove_replace_ne {V} k k' (v : V) o :
  k' ≠ k → obj_remove k (obj_replace k' v o) = obj_replace k' v (obj_remove k o).
Proof.
  intros Hne. unfold obj_remove. induction o as [|[k1 v1] o IH]; [done|]. simpl.
  case_decide as Hk1.
  - subst. rewrite !filter_cons_True by (simpl; auto). simpl. by rewrite decide_True.
  - rewrite !filter_cons. simpl. case_decide; simpl; [|done].
    rewrite decide_False by done. by rewrite IH.
Qed.

Lemma obj_remove_set_ne {V} k k' (v : V) o :
  k' ≠ k → obj_get k' o ≠ None →
  obj_remove k (obj_set k' v o) = obj_set k' v (obj_remove k o).
Proof.
  intros Hne Hg. unfold obj_set.
  rewrite !decide_True.
  - by apply obj_remove_replace_ne.
  - apply obj_get_Some. by rewrite obj_get_remove_ne.
  - by apply obj_get_Some.
Qed.

(** A spread of an object reads its own properties first. *)
Lemma obj_get_spread {V} (extra base : list (text * V)) k :
  NoDup extra.*1 →
  obj_get k (obj_spread base extra)
  = match obj_get k extra with
    | Some v => Some v
    | None => obj_get k base
    end.
Proof.
  revert base. induction extra as [|[k1 v1] extra IH]; intros base Hnd; [done|].
  apply NoDup_cons in Hnd as [Hk1 Hnd].
  change (obj_spread base ((k1, v1) :: extra)) with (obj_spread (obj_set k1 v1 base) extra).
  rewrite IH by done. simpl. case_decide as Hk.
  - subst. by rewrite obj_get_None, obj_get_set_eq.
  - by rewrite obj_get_set_ne by done.
Qed.


Lemma obj_remove_replace {V} k (v : V) o : obj_remove k (obj_replace k v o) = obj_remove k o.
Proof.
  unfold obj_remove. induction o as [|[k1 v1] o IH]; simpl; [done|].
  case_decide as Hk.
  - subst. by rewrite !filter_cons_False by (simpl; auto).
  - by rewrite !filter_cons_True, IH by (simpl; auto).
Qed.

Lemma obj_remove_set_eq {V} k (v : V) o :
  obj_remove k (obj_set k v o) = obj_remove k o.
Proof.
  unfold obj_set. case_decide; [apply obj_remove_replace|apply obj_remove_insert].
Qed.


(** ** Hexadecimal round trip *)

Lemma from_hex_byte c rest : from_hex (hex_of_byte c ++ rest) = c :: from_hex rest.
Proof. each_char c; reflexivity. Qed.

Lemma from_hex_to_hex buf : from_hex (to_hex buf) = buf.
Proof.
  induction buf as [|c buf IH]; [done|].
  change (to_hex (c :: buf)) with (hex_of_byte c ++ to_hex buf).
  by rewrite from_hex_byte, IH.
Qed.

(** ** UTF-8 round trip on well-formed strings *)

Lemma N_of_byte n : (n < 256)%N → N_of_ascii (byte_of_N n) = n.
Proof. apply N_ascii_embedding. Qed.

(** Settle the comparisons of the goal that arithmetic decides. *)
Ltac settle_N :=
  repeat match goal with
  | |- context [(?a <? ?b)%N] =>
      first [rewrite (proj2 (N.ltb_lt a b)) by lia | rewrite (proj2 (N.ltb_ge a b)) by lia]
  | |- context [(?a <=? ?b)%N] =>
      first [rewrite (proj2 (N.leb_le a b)) by lia | rewrite (proj2 (N.leb_gt a b)) by lia]
  | |- context [(?a =? ?b)%N] =>
      first [rewrite (proj2 (N.eqb_eq a b)) by lia | rewrite (proj2 (N.eqb_neq a b)) by lia]
  end.

Ltac utf8_run :=
  repeat (cbn [u8_needed u8_lower u8_upper u8_seen u8_code_point utf8_initial
                fst snd andb orb negb app];
          settle_N).

Ltac div_lia := zify; Z.to_euclidean_division_equations; lia.

Lemma decode_step st b rest :
  (b < 256)%N →
  utf8_decode_from st (byte_of_N b :: rest)
  = (utf8_step st b).2 ++ utf8_decode_from (utf8_step st b).1 rest.
Proof. intros Hb. simpl. by rewrite N_of_byte. Qed.

Ltac utf8_byte :=
  rewrite decode_step by lia; unfold utf8_step at 1 2, utf8_lead; utf8_run.

Lemma decode_1 a rest :
  (a < 128)%N →
  utf8_decode_from utf8_initial (byte_of_N a :: rest)
  = [a] ++ utf8_decode_from utf8_initial rest.
Proof. intros. by utf8_byte. Qed.

Lemma decode_2 a b rest :
  (2 ≤ a < 32)%N → (b < 64)%N →
  utf8_decode_from utf8_initial (byte_of_N (192 + a) :: byte_of_N (128 + b) :: rest)
  = code_units_of (a * 64 + b) ++ utf8_decode_from utf8_initial rest.
Proof.
  intros. do 2 utf8_byte.
  by replace (192 + a - 192)%N with a by lia; replace (128 + b - 128)%N with b by lia.
Qed.

Lemma decode_3 a b c rest :
  (a < 16)%N → (b < 64)%N → (c < 64)%N →
  (a = 0 → 32 ≤ b)%N → (a = 13 → b < 32)%N →
  utf8_decode_from utf8_initial
    (byte_of_N (224 + a) :: byte_of_N (128 + b) :: byte_of_N (128 + c) :: rest)
  = code_units_of ((a * 64 + b) * 64 + c) ++ utf8_decode_from utf8_initial rest.
Proof.
  intros Ha Hb Hc H0 H13.
  assert (a = 0 ∨ a = 13 ∨ (a ≠ 0 ∧ a ≠ 13))%N as [->|[->|[??]]] by lia;
    do 3 utf8_byte;
    by replace (128 + b - 128)%N with b by lia;
       replace (128 + c - 128)%N with c by lia;
       try replace (224 + a - 224)%N with a by lia.
Qed.

Lemma decode_4 a b c d rest :
  (a ≤ 4)%N → (b < 64)%N → (c < 64)%N → (d < 64)%N →
  (a = 0 → 16 ≤ b)%N → (a = 4 → b < 16)%N →
  utf8_decode_from utf8_initial
    (byte_of_N (240 + a) :: byte_of_N (128 + b) :: byte_of_N (128 + c)
       :: byte_of_N (128 + d) :: rest)
  = code_units_of (((a * 64 + b) * 64 + c) * 64 + d)
    ++ utf8_decode_from utf8_initial rest.
Proof.
  intros Ha Hb Hc Hd H0 H4.
  assert (a = 0 ∨ a = 4 ∨ (a ≠ 0 ∧ a ≠ 4))%N as [->|[->|[??]]] by lia;
    do 4 utf8_byte;
    by replace (128 + b - 128)%N with b by lia;
       replace (128 + c - 128)%N with c by lia;
       replace (128 + d - 128)%N with d by lia;
       try replace (240 + a - 240)%N with a by lia.
Qed.

Lemma decode_scalar cp rest :
  (cp < 1114112)%N → ¬ (55296 ≤ cp ≤ 57343)%N →
  utf8_decode_from utf8_initial (utf8_of_code_point cp ++ rest)
  = code_units_of cp ++ utf8_decode_from utf8_initial rest.
Proof.
  intros Hmax Hsur. unfold utf8_of_code_point.
  destruct (N.ltb_spec cp 128); [|destruct (N.ltb_spec cp 2048);
    [|destruct (N.ltb_spec cp 65536)]]; cbn [app].
  - rewrite decode_1 by done. unfold code_units_of. by settle_N.
  - rewrite decode_2 by div_lia. do 2 f_equal. div_lia.
  - rewrite decode_3 by div_lia. do 2 f_equal. div_lia.
  - rewrite decode_4 by div_lia. do 2 f_equal. div_lia.
Qed.

Lemma is_high_surrogate_spec u :
  is_high_surrogate u = true ↔ (55296 ≤ u ≤ 56319)%N.
Proof. unfold is_high_surrogate. rewrite andb_true_iff, !N.leb_le. done. Qed.

Lemma is_low_surrogate_spec u :
  is_low_surrogate u = true ↔ (56320 ≤ u ≤ 57343)%N.
Proof. unfold is_low_surrogate. rewrite andb_true_iff, !N.leb_le. done. Qed.

Lemma utf8_decode_encode_aux n : ∀ s,
  length s ≤ n → well_formed s = true →
  utf8_decode_from utf8_initial (utf8_encode s) = s.
Proof.
  induction n as [|n IH]; intros [|u rest] Hlen Hwf; simpl in Hlen; try done; try lia.
  simpl in Hwf |- *.
  destruct (is_high_surrogate u) eqn:Hhigh.
  - destruct rest as [|v rest]; [done|].
    apply andb_true_iff in Hwf as [Hlow Hwf].
    rewrite Hlow. apply is_high_surrogate_spec in Hhigh.
    apply is_low_surrogate_spec in Hlow.
    rewrite decode_scalar by lia.
    rewrite IH by (done || (simpl in Hlen; lia)).
    unfold code_units_of. settle_N. cbn [app]. f_equal; [div_lia|]. f_equal. div_lia.
  - apply andb_true_iff in Hwf as [[Hu Hlow]%andb_true_iff Hwf].
    apply negb_true_iff in Hlow. rewrite Hlow.
    apply N.ltb_lt in Hu.
    assert (¬ (55296 ≤ u ≤ 57343)%N) as Hsur.
    { intros ?. assert (¬ (55296 ≤ u ≤ 56319)%N)
        by (rewrite <- is_high_surrogate_spec; congruence).
      assert (¬ (56320 ≤ u ≤ 57343)%N)
        by (rewrite <- is_low_surrogate_spec; congruence). lia. }
    rewrite decode_scalar by lia. rewrite IH by (done || lia).
    unfold code_units_of. by settle_N.
Qed.

(** Decoding the ['utf8'] bytes of a well-formed string gives it back. *)
Theorem utf8_decode_encode s :
  well_formed s = true → utf8_decode (utf8_encode s) = s.
Proof. apply (utf8_decode_encode_aux (length s)). done. Qed.

(** An unpaired surrogate is not given back. *)
Example utf8_lone_surrogate : utf8_decode (utf8_encode [55296%N]) = [65533%N].
Proof. reflexivity. Qed.

(** ** UTF-8 round trip on any string of code units *)

Lemma decode_replacement rest :
  utf8_decode_from utf8_initial (utf8_of_code_point REPLACEMENT ++ rest)
  = REPLACEMENT :: utf8_decode_from utf8_initial rest.
Proof. by rewrite decode_scalar by (unfold REPLACEMENT; lia). Qed.

(** Decoding the ['utf8'] bytes of a string gives the string with each
    unpaired surrogate replaced. *)
Lemma utf8_decode_encode_units n : ∀ s,
  length s ≤ n → Forall (λ u, (u < 65536)%N) s →
  utf8_decode_from utf8_initial (utf8_encode s) = to_well_formed s.
Proof.
  induction n as [|n IH]; intros [|u rest] Hlen Hu; simpl in Hlen; try done; try lia.
  apply Forall_cons in Hu as [Hu Hrest].
  cbn [utf8_encode to_well_formed].
  destruct (is_high_surrogate u) eqn:Hhigh.
  - destruct rest as [|v rest].
    { rewrite <- (app_nil_r (utf8_of_code_point REPLACEMENT)).
      by rewrite decode_replacement. }
    destruct (is_low_surrogate v) eqn:Hlow.
    + apply is_high_surrogate_spec in Hhigh. apply is_low_surrogate_spec in Hlow.
      apply Forall_cons in Hrest as [_ Hrest].
      rewrite decode_scalar by lia.
      rewrite IH by (done || (simpl in Hlen; lia)).
      unfold code_units_of. settle_N. cbn [app]. f_equal; [div_lia|]. f_equal. div_lia.
    + rewrite decode_replacement. by rewrite IH by (done || lia).
  - destruct (is_low_surrogate u) eqn:Hlow.
    + rewrite decode_replacement. by rewrite IH by (done || lia).
    + assert (¬ (55296 ≤ u ≤ 57343)%N) as Hsur.
      { intros ?. assert (¬ (55296 ≤ u ≤ 56319)%N)
          by (rewrite <- is_high_surrogate_spec; congruence).
        assert (¬ (56320 ≤ u ≤ 57343)%N)
          by (rewrite <- is_low_surrogate_spec; congruence). lia. }
      rewrite decode_scalar by lia. rewrite IH by (done || lia).
      unfold code_units_of. by settle_N.
Qed.

(** A well-formed string has nothing to replace. *)
Lemma to_well_formed_id n : ∀ s,
  length s ≤ n → well_formed s = true → to_well_formed s = s.
Proof.
  induction n as [|n IH]; intros [|u rest] Hlen Hwf; simpl in Hlen; try done; try lia.
  simpl in Hwf |- *. destruct (is_high_surrogate u).
  - destruct rest as [|v rest]; [done|].
    apply andb_true_iff in Hwf as [-> Hwf]. by rewrite IH by (done || (simpl in Hlen; lia)).
  - apply andb_true_iff in Hwf as [[_ ->%negb_true_iff]%andb_true_iff Hwf].
    by rewrite IH by (done || lia).
Qed.

(** ** base64url never gives a dot *)

Lemma b64url_char_not_dot n : b64url_char n ≠ "."%char.
Proof.
  unfold b64url_char.
  set (alphabet := str "ABCDEFGHIJKLMNOPQRSTUVWXYZabcdefghijklmnopqrstuvwxyz0123456789-_").
  assert (Forall (λ c, c ≠ "."%char) alphabet) as Hall
    by (refine (bool_decide_unpack _ _); vm_compute; exact I).
  destruct (nth_in_or_default (N.to_nat n) alphabet "A"%char) as [Hin| ->]; [|done].
  rewrite Forall_forall in Hall. apply Hall. by apply list_elem_of_In.
Qed.

Lemma base64url_no_dot_aux n : ∀ buf, length buf ≤ n → "."%char ∉ base64url buf.
Proof.
  induction n as [|n IH]; intros [|a [|b [|c rest]]] Hlen; simpl in Hlen |- *;
    try lia; rewrite ?not_elem_of_cons;
    repeat split; try apply not_elem_of_nil; try (apply IH; lia);
    by (intros E; symmetry in E; revert E; apply b64url_char_not_dot).
Qed.

Lemma base64url_no_dot buf : "."%char ∉ base64url buf.
Proof. by apply (base64url_no_dot_aux (length buf)). Qed.

(** ** base64url and hexadecimal text are read back without ambiguity *)

Definition B64URL : text :=
  str "ABCDEFGHIJKLMNOPQRSTUVWXYZabcdefghijklmnopqrstuvwxyz0123456789-_".

Lemma b64url_char_inj n m :
  (n < 64)%N → (m < 64)%N → b64url_char n = b64url_char m → n = m.
Proof.
  intros Hn Hm. unfold b64url_char. fold B64URL. rewrite !nth_lookup.
  assert (NoDup B64URL) as Hnd by (refine (bool_decide_unpack _ _); vm_compute; exact I).
  assert (length B64URL = 64%nat) as Hlen by reflexivity.
  destruct (lookup_lt_is_Some_2 B64URL (N.to_nat n)) as [x Hx]; [lia|].
  destruct (lookup_lt_is_Some_2 B64URL (N.to_nat m)) as [y Hy]; [lia|].
  rewrite Hx, Hy. simpl. intros ->.
  apply N2Nat.inj. by eapply NoDup_lookup.
Qed.

Lemma N_of_ascii_lt c : (N_of_ascii c < 256)%N.
Proof. apply N_ascii_bounded. Qed.

Lemma N_of_ascii_inj a b : N_of_ascii a = N_of_ascii b → a = b.
Proof. intros E. by rewrite <- (ascii_N_embedding a), E, ascii_N_embedding. Qed.

(** Quotient and remainder as variables of their own. *)
Ltac split_byte x d :=
  let q := fresh "q" in
  let r := fresh "r" in
  pose proof (N.div_mod x d ltac:(lia));
  pose proof (N.mod_lt x d ltac:(lia));
  set (q := (x / d)%N) in *; set (r := (x mod d)%N) in *;
  clearbody q r.

Ltac b64_args :=
  repeat match goal with
  | H : b64url_char _ = b64url_char _ |- _ =>
      apply b64url_char_inj in H; [|lia|lia]
  end.

(** Three bytes are read back from their four characters. *)
Lemma b64_triple x y z x' y' z' :
  (x < 256)%N → (y < 256)%N → (z < 256)%N →
  (x' < 256)%N → (y' < 256)%N → (z' < 256)%N →
  b64url_char (x / 4) = b64url_char (x' / 4) →
  b64url_char (x mod 4 * 16 + y / 16) = b64url_char (x' mod 4 * 16 + y' / 16) →
  b64url_char (y mod 16 * 4 + z / 64) = b64url_char (y' mod 16 * 4 + z' / 64) →
  b64url_char (z mod 64) = b64url_char (z' mod 64) →
  x = x' ∧ y = y' ∧ z = z'.
Proof.
  intros ? ? ? ? ? ? E1 E2 E3 E4.
  split_byte x 4%N. split_byte y 16%N. split_byte z 64%N.
  split_byte x' 4%N. split_byte y' 16%N. split_byte z' 64%N.
  b64_args. lia.
Qed.

Lemma base64url_inj_aux n : ∀ a b,
  length a ≤ n → base64url a = base64url b → a = b.
Proof.
  induction n as [|n IH]; intros [|x [|y [|z a]]] [|x' [|y' [|z' b]]] Hlen E;
    simpl in Hlen; try lia; try done; try discriminate E;
    cbn [base64url] in E; cbv zeta in E.
  - injection E as E1 E2.
    destruct (b64_triple (N_of_ascii x) 0 0 (N_of_ascii x') 0 0) as (Hx & _);
      try apply N_of_ascii_lt; try lia; try done.
    + by rewrite !N.add_0_r.
    + f_equal. by apply N_of_ascii_inj.
  - injection E as E1 E2 E3.
    destruct (b64_triple (N_of_ascii x) (N_of_ascii y) 0
                (N_of_ascii x') (N_of_ascii y') 0) as (Hx & Hy & _);
      try apply N_of_ascii_lt; try lia; try done.
    + by rewrite !N.add_0_r.
    + f_equal; [|f_equal]; by apply N_of_ascii_inj.
  - injection E as E1 E2 E3 E4 E5.
    destruct (b64_triple (N_of_ascii x) (N_of_ascii y) (N_of_ascii z)
                (N_of_ascii x') (N_of_ascii y') (N_of_ascii z')) as (Hx & Hy & Hz);
      try apply N_of_ascii_lt; try done.
    f_equal; [|f_equal; [|f_equal]]; try by apply N_of_ascii_inj.
    apply IH; [lia|done].
Qed.

Lemma base64url_inj a b : base64url a = base64url b → a = b.
Proof. by apply (base64url_inj_aux (length a)). Qed.

Lemma to_hex_inj a b : to_hex a = to_hex b → a = b.
Proof. intros E. by rewrite <- (from_hex_to_hex a), E, from_hex_to_hex. Qed.

(** Two texts cut at the first occurrence of a character. *)
Lemma split_at_first {A} (x : A) l1 r1 l2 r2 :
  x ∉ l1 → x ∉ l2 → l1 ++ x :: r1 = l2 ++ x :: r2 → l1 = l2 ∧ r1 = r2.
Proof.
  revert l2. induction l1 as [|a l1 IH]; intros [|b l2] H1 H2 E; simplify_eq/=.
  - done.
  - by apply not_elem_of_cons in H2 as [? _].
  - by apply not_elem_of_cons in H1 as [? _].
  - apply not_elem_of_cons in H1 as [_ H1]. apply not_elem_of_cons in H2 as [_ H2].
    destruct (IH l2 H1 H2) as [-> ->]; done.
Qed.

(** The digits of hexadecimal text. *)
Definition HEX_DIGITS : text := str "0123456789abcdef".

Lemma hex_digit_in n : hex_digit n ∈ HEX_DIGITS.
Proof.
  unfold hex_digit. fold HEX_DIGITS.
  destruct (nth_in_or_default (N.to_nat n) HEX_DIGITS "0"%char) as [Hin| ->].
  - by apply list_elem_of_In.
  - by refine (bool_decide_unpack _ _).
Qed.

Lemma to_hex_digits buf :
  length (to_hex buf) = 2 * length buf ∧ Forall (λ c, c ∈ HEX_DIGITS) (to_hex buf).
Proof.
  induction buf as [|c buf [IH1 IH2]]; [by split|].
  change (to_hex (c :: buf)) with (hex_of_byte c ++ to_hex buf). split.
  - rewrite length_app, IH1. simpl. lia.
  - apply Forall_app. split; [|done]. unfold hex_of_byte.
    apply Forall_cons. split; [apply hex_digit_in|]. apply Forall_singleton, hex_digit_in.
Qed.

(** ** A token is read back *)

Lemma b64url_value_char n : (n < 64)%N → b64url_value (b64url_char n) = Some n.
Proof.
  intros Hn.
  assert (Forall (λ m, b64url_value (b64url_char m) = Some m) (N.of_nat <$> seq 0 64))
    as Hall by (refine (bool_decide_unpack _ _); vm_compute; exact I).
  rewrite Forall_forall in Hall. apply Hall.
  apply list_elem_of_fmap. exists (N.to_nat n). split; [by rewrite N2Nat.id|].
  apply elem_of_seq. lia.
Qed.

Lemma div_mod_pack a b d : (b < d)%N → ((a * d + b) / d = a ∧ (a * d + b) mod d = b)%N.
Proof.
  intros Hb. split.
  - rewrite N.div_add_l by lia. rewrite N.div_small by done. lia.
  - rewrite N.add_comm, N.Div0.mod_add. by apply N.mod_small.
Qed.

(** The bytes of a group are put together again from its characters. *)
Lemma b64_group x y z :
  (x < 256)%N → (y < 256)%N → (z < 256)%N →
  (x / 4 * 4 + (x mod 4 * 16 + y / 16) / 16 = x
   ∧ (x mod 4 * 16 + y / 16) mod 16 * 16 + (y mod 16 * 4 + z / 64) / 4 = y
   ∧ (y mod 16 * 4 + z / 64) mod 4 * 64 + z mod 64 = z
   ∧ x / 4 < 64 ∧ x mod 4 * 16 + y / 16 < 64 ∧ y mod 16 * 4 + z / 64 < 64
   ∧ z mod 64 < 64)%N.
Proof.
  intros. split_byte x 4%N. split_byte y 16%N. split_byte z 64%N.
  assert (q0 < 16)%N by lia. assert (q1 < 4)%N by lia.
  destruct (div_mod_pack r q0 16) as [-> ->]; [done|].
  destruct (div_mod_pack r0 q1 4) as [-> ->]; [done|].
  lia.
Qed.

Lemma from_base64url_aux n : ∀ buf,
  length buf ≤ n → from_base64url (base64url buf) = Some buf.
Proof.
  induction n as [|n IH]; intros [|a [|b [|c rest]]] Hlen; simpl in Hlen; try lia;
    try done; cbn [base64url from_base64url]; cbv zeta.
  - destruct (b64_group (N_of_ascii a) 0 0) as (E1 & _ & _ & ? & ? & _);
      try apply N_of_ascii_lt; try lia.
    rewrite N.add_0_r in *. rewrite !b64url_value_char by done. simpl.
    unfold byte_of_N. by rewrite E1, ascii_N_embedding.
  - destruct (b64_group (N_of_ascii a) (N_of_ascii b) 0) as (E1 & E2 & _ & ? & ? & ? & _);
      try apply N_of_ascii_lt; try lia.
    rewrite N.add_0_r in *. rewrite !b64url_value_char by done. simpl.
    unfold byte_of_N. by rewrite E1, E2, !ascii_N_embedding.
  - destruct (b64_group (N_of_ascii a) (N_of_ascii b) (N_of_ascii c))
      as (E1 & E2 & E3 & ? & ? & ? & ?); try apply N_of_ascii_lt.
    rewrite !b64url_value_char by done. simpl. rewrite IH by lia. simpl.
    unfold byte_of_N. by rewrite E1, E2, E3, !ascii_N_embedding.
Qed.

(** [Buffer.from(buf.toString('base64url'), 'base64url')] is [buf]. *)
Lemma from_base64url_base64url buf : from_base64url (base64url buf) = Some buf.
Proof. by apply (from_base64url_aux (length buf)). Qed.

(** The string of a JSON string literal is read back. *)
Lemma lex_json_escape_char c acc rest :
  lex_json (InString acc) (json_escape_char c ++ rest) = lex_json (InString (c :: acc)) rest.
Proof. each_char c; simpl; by destruct (lex_json _ rest). Qed.

Lemma lex_json_escape x : ∀ acc rest,
  lex_json (InString acc) (json_escape x ++ dquote :: rest)
  = (JString (rev acc ++ x) ::.) <$> lex_json Between rest.
Proof.
  induction x as [|c x IH]; intros acc rest.
  - simpl. rewrite app_nil_r. by destruct (lex_json Between rest).
  - change (json_escape (c :: x)) with (json_escape_char c ++ json_escape x).
    rewrite <- app_assoc, lex_json_escape_char, IH. simpl. by rewrite <- app_assoc.
Qed.

Lemma lex_json_quote x rest :
  lex_json Between (json_quote x ++ rest) = (JString x ::.) <$> lex_json Between rest.
Proof.
  unfold json_quote.
  change (lex_json Between ((dquote :: json_escape x ++ [dquote]) ++ rest))
    with (ts ← lex_json (InString []) ((json_escape x ++ [dquote]) ++ rest); Some ([] ++ ts)).
  rewrite <- app_assoc. simpl app. rewrite lex_json_escape.
  by destruct (lex_json Between rest).
Qed.

(** The numeral of an integer: digits, after a minus sign when the
    integer is negative; and it is read back. *)
Lemma uint_digits d :
  Forall (λ c, is_digit c = true)
    (list_ascii_of_string (DecimalString.NilEmpty.string_of_uint d)).
Proof. induction d; simpl; by constructor. Qed.

Lemma json_number_digits z :
  ∃ c ds, json_number z = c :: ds
    ∧ (is_digit c = true ∨ c = "-"%char) ∧ Forall (λ c, is_digit c = true) ds.
Proof.
  unfold json_number, str.
  assert (∀ d, ∃ c ds,
            list_ascii_of_string (DecimalString.NilZero.string_of_uint d) = c :: ds
            ∧ is_digit c = true ∧ Forall (λ c, is_digit c = true) ds) as Hu.
  { intros d. pose proof (uint_digits d) as Hd.
    destruct d; simpl in *; try (apply Forall_cons in Hd as [? ?]); eauto. }
  unfold DecimalString.NilZero.string_of_int.
  destruct (Z.to_int z) as [d|d]; destruct (Hu d) as (c & ds & E & ? & ?).
  - rewrite E. eexists _, _. split; [done|]. split; [by left|done].
  - cbn [list_ascii_of_string]. rewrite E. eexists _, _. split; [done|].
    split; [by right|]. by constructor.
Qed.

Lemma read_number_json_number z : read_number (json_number z) = Some z.
Proof.
  unfold read_number, json_number at 1, str.
  rewrite string_of_list_ascii_of_string, DecimalString.NilZero.isi.
  - rewrite DecimalZ.of_to. by rewrite decide_True.
  - destruct z; simpl; try done. intros [= E]. by apply DecimalPos.Unsigned.to_uint_nonnil in E.
  - destruct z; simpl; try done. intros [= E]. by apply DecimalPos.Unsigned.to_uint_nonnil in E.
Qed.

Lemma lex_json_digits rest ds : ∀ acc,
  Forall (λ c, is_digit c = true) ds →
  lex_json (InNumber acc) (ds ++ "}"%char :: rest)
  = z ← read_number (rev acc ++ ds);
    (λ ts, JNumber z :: JRBrace :: ts) <$> lex_json Between rest.
Proof.
  induction ds as [|c ds IH]; intros acc Hds.
  - rewrite app_nil_r. simpl. destruct (read_number (rev acc)); [|done]. simpl.
    by destruct (lex_json Between rest).
  - apply Forall_cons in Hds as [Hc Hds]. simpl. rewrite Hc. simpl.
    rewrite IH by done. simpl. rewrite <- app_assoc. simpl.
    destruct (read_number _); [|done]. simpl. by destruct (lex_json Between rest).
Qed.

Lemma lex_json_number z rest :
  lex_json Between (json_number z ++ "}"%char :: rest)
  = (λ ts, JNumber z :: JRBrace :: ts) <$> lex_json Between rest.
Proof.
  pose proof (read_number_json_number z) as Hz.
  destruct (json_number_digits z) as (c & ds & E & Hc & Hds). rewrite E in Hz |- *.
  assert (lex_between c = Some ([], InNumber [c])) as Hb.
  { destruct Hc as [Hc| ->]; [|done]. revert Hc. by each_char c. }
  simpl. rewrite Hb. simpl. rewrite lex_json_digits by done. simpl. rewrite Hz. simpl.
  by destruct (lex_json Between rest).
Qed.

Lemma lex_json_punct c s :
  lex_json Between (c :: s) =
  if decide (c = ":"%char) then (JColon ::.) <$> lex_json Between s
  else if decide (c = ","%char) then (JComma ::.) <$> lex_json Between s
  else if decide (c = "{"%char) then (JLBrace ::.) <$> lex_json Between s
  else lex_json Between (c :: s).
Proof. repeat case_decide; subst; simpl; by destruct (lex_json Between s). Qed.

(** The payload of a token is read back: an object of four members. *)
Lemma JSON_read_payload (sub req act : text) (exp : Z) :
  JSON_read (JSON_stringify [(str "sub", JStr sub); (str "req", JStr req);
                             (str "act", JStr act); (str "exp", JNum exp)])
  = Some [(str "sub", JStr sub); (str "req", JStr req);
          (str "act", JStr act); (str "exp", JNum exp)].
Proof.
  unfold JSON_read, JSON_stringify. cbn [omap list_omap json_member fst snd join_comma].
  repeat (rewrite <- ?app_assoc; cbn [app]).
  rewrite lex_json_punct. simpl decide. cbv iota.
  do 3 (rewrite lex_json_quote, lex_json_punct; simpl decide; cbv iota;
        rewrite lex_json_quote, lex_json_punct; simpl decide; cbv iota).
  rewrite lex_json_quote, lex_json_punct. simpl decide. cbv iota.
  rewrite lex_json_number. reflexivity.
Qed.

(** * approvalWorkflow.js: properties *)

Module ApprovalWorkflowProofs.
Import ApprovalWorkflow.

Lemma set_status_same r : set_status r (status r) = r.
Proof. by destruct r. Qed.

(** C1: with the signing secret missing from the environment, or empty,
    importing the module does not fail; the secret is the hard-coded
    default. *)
Theorem missing_secret_falls_back :
  load None = Return {| secret := DEFAULT_SECRET; pendingRequests := ∅ |}
  ∧ load (Some []) = Return {| secret := DEFAULT_SECRET; pendingRequests := ∅ |}
  ∧ ∀ env_secret, returns (load env_secret).
Proof. split; [done|]. split; [done|]. intros env_secret. by eexists. Qed.

(** [applyApproval] after the deadline marks the request EXPIRED, whatever
    its status was. *)
Lemma applyApproval_after_deadline (m : store) rid approver now now' r :
  m !! rid = Some r → (expiresAt r ≤ now)%Z →
  (applyApproval m rid approver now now').2 !! rid = Some (set_status r EXPIRED).
Proof.
  intros Hm Hle. unfold applyApproval. rewrite Hm.
  rewrite (proj2 (Z.leb_le _ _) Hle). simpl. apply lookup_insert_eq.
Qed.

(** C2: a request approved before its deadline is APPROVED; a later
    [applyApproval] at the deadline turns it to EXPIRED, and
    [checkApprovalStatus] then reports EXPIRED and issues no token. *)
Theorem approved_request_expires :
  let after := applyApproval Samples.approved Samples.request_id (str "bob") 1000 1000 in
  status <$> Samples.approved !! Samples.request_id = Some APPROVED
  ∧ expiresAt <$> Samples.approved !! Samples.request_id = Some 1000%Z
  ∧ ar_error after.1 = Some (str "Request has expired.")
  ∧ status <$> after.2 !! Samples.request_id = Some EXPIRED
  ∧ (checkApprovalStatus Samples.mac DEFAULT_SECRET after.2 Samples.request_id 1000 1000).1
    = {| ck_status := str "EXPIRED"; ck_token := None; ck_error := None |}.
Proof. vm_compute. repeat split; reflexivity. Qed.

Section Workflow.
Variable hmac : text → text → text.
Variable key : text.

Lemma step_absent (m : store) c rid :
m !! rid = None → ¬ generates c rid → step hmac key m c !! rid = None.
Proof.
intros Hm Hg. destruct c as [o e t t'| |rid' a t t'|rid' t t']; simpl.
- unfold createRequest. simpl in Hg.
  destruct (_ || _); simpl; [done|].
  by rewrite lookup_insert_ne.
- done.
- unfold applyApproval.
  destruct (m !! rid') as [r|] eqn:Hr; [|done].
  assert (rid' ≠ rid) by congruence.
  repeat case_match; simpl; rewrite ?lookup_insert_ne; done.
- unfold checkApprovalStatus.
  destruct (m !! rid') as [r|] eqn:Hr; [|done].
  assert (rid' ≠ rid) by congruence.
  repeat case_match; simpl; rewrite ?lookup_delete_ne, ?lookup_insert_ne; done.
Qed.

Lemma step_expired (m : store) c rid r :
m !! rid = Some r → status r = EXPIRED → ¬ generates c rid →
step hmac key m c !! rid = Some r.
Proof.
intros Hm Hs Hg. destruct c as [o e t t'| |rid' a t t'|rid' t t']; simpl.
- unfold createRequest. simpl in Hg.
  destruct (_ || _); simpl; [done|].
  by rewrite lookup_insert_ne.
- done.
- unfold applyApproval.
  destruct (decide (rid' = rid)) as [->|Hne].
  + rewrite Hm. destruct (_ <=? _)%Z; simpl.
    * rewrite lookup_insert_eq. by rewrite <- Hs, set_status_same.
    * rewrite bool_decide_true by congruence. done.
  + destruct (m !! rid'); [|done].
    repeat case_match; simpl; rewrite ?lookup_insert_ne; done.
- unfold checkApprovalStatus.
  destruct (decide (rid' = rid)) as [->|Hne].
  + rewrite Hm. rewrite Hs. simpl. rewrite andb_false_r. simpl. by rewrite Hs.
  + destruct (m !! rid'); [|done].
    repeat case_match; simpl; rewrite ?lookup_delete_ne, ?lookup_insert_ne; done.
Qed.

Lemma run_absent (m : store) calls rid :
m !! rid = None → Forall (λ c, ¬ generates c rid) calls →
run hmac key m calls !! rid = None.
Proof.
intros Hm Hc. revert m Hm. induction Hc as [|c calls Hc _ IH]; intros m Hm; [done|].
simpl. apply IH. by apply step_absent.
Qed.

Lemma run_expired (m : store) calls rid r :
m !! rid = Some r → status r = EXPIRED → Forall (λ c, ¬ generates c rid) calls →
run hmac key m calls !! rid = Some r.
Proof.
intros Hm Hs Hc. revert m Hm. induction Hc as [|c calls Hc _ IH]; intros m Hm; [done|].
simpl. apply IH. by apply step_expired.
Qed.

(** A call that returns a token found the request APPROVED and deleted it. *)
Lemma check_issues_deletes (m m' : store) rid t t' res tok :
checkApprovalStatus hmac key m rid t t' = (res, m') →
ck_token res = Some tok →
m' !! rid = None ∧ ck_status res = str "APPROVED" ∧
∃ r, m !! rid = Some r ∧ status r = APPROVED ∧
     tok = mint_token hmac key (token_payload r rid t').
Proof.
unfold checkApprovalStatus. intros Hc Ht.
destruct (m !! rid) as [r|] eqn:Hr; [|by simplify_eq/=].
destruct (_ && _) eqn:Hexp; simpl in Hc.
- by simplify_eq/=.
- case_bool_decide as Hs; simplify_eq/=.
  split; [apply lookup_delete_eq|]. split; [done|]. eauto.
Qed.

(** C6: once [checkApprovalStatus] has returned APPROVED with a token for a
  request id, every later [checkApprovalStatus] on that id returns
  NOT_FOUND, whatever calls are made in between, as long as no
  [createRequest] draws the same 128-bit id again. *)
Theorem one_shot_token (m m' : store) rid now now' res tok :
checkApprovalStatus hmac key m rid now now' = (res, m') →
ck_status res = str "APPROVED" →
ck_token res = Some tok →
∀ calls t t',
  Forall (λ c, ¬ generates c rid) calls →
  (checkApprovalStatus hmac key (run hmac key m' calls) rid t t').1
  = {| ck_status := str "NOT_FOUND"; ck_token := None;
       ck_error := Some (str "Request not found.") |}.
Proof.
intros Hc _ Ht calls t t' Hcalls.
destruct (check_issues_deletes _ _ _ _ _ _ _ Hc Ht) as (Hm' & _).
unfold checkApprovalStatus. by rewrite (run_absent _ _ _ Hm' Hcalls).
Qed.

(** The only call that removes a request is the [checkApprovalStatus] that
  issues its token. *)
Lemma step_deletes (m : store) c rid r :
m !! rid = Some r → step hmac key m c !! rid = None →
∃ now now' tok, c = CheckApprovalStatus rid now now' ∧ status r = APPROVED ∧
  (checkApprovalStatus hmac key m rid now now').1
  = {| ck_status := str "APPROVED"; ck_token := Some tok; ck_error := None |}.
Proof.
intros Hm Hd. destruct c as [o e t t'| |rid' a t t'|rid' t t']; simpl in Hd.
- exfalso. unfold createRequest in Hd. destruct (_ || _); simpl in Hd; [congruence|].
  destruct (decide (to_hex (randomBytes 16 e) = rid)) as [<-|Hne].
  + by rewrite lookup_insert_eq in Hd.
  + rewrite lookup_insert_ne in Hd by done. congruence.
- congruence.
- exfalso. unfold applyApproval in Hd.
  destruct (m !! rid') as [r'|] eqn:Hr'; [|simpl in Hd; congruence].
  repeat case_match; simpl in Hd; try congruence;
    (destruct (decide (rid' = rid)) as [->|Hne];
      [by rewrite lookup_insert_eq in Hd
      |rewrite lookup_insert_ne in Hd by done; congruence]).
- unfold checkApprovalStatus in Hd |- *.
  destruct (decide (rid' = rid)) as [->|Hne].
  + rewrite Hm in Hd. destruct (_ && _) eqn:Hexp; simpl in Hd.
    * by rewrite lookup_insert_eq in Hd.
    * case_bool_decide as Hs; simpl in Hd; [|congruence].
      eexists t, t', _. split; [done|]. split; [done|].
      rewrite Hm, Hexp. simpl. by rewrite bool_decide_true by done.
  + exfalso. destruct (m !! rid') as [r'|]; [|simpl in Hd; congruence].
    repeat case_match; simpl in Hd;
      rewrite ?lookup_delete_ne, ?lookup_insert_ne in Hd by done; congruence.
Qed.

(** C10: a request that is EXPIRED stays in the store, unchanged, through
  every sequence of calls in which no [createRequest] draws its id
  again, and [checkApprovalStatus] on it returns EXPIRED; a call removes
  a request only when it is the [checkApprovalStatus] that issues the
  token of that request, which is then APPROVED. *)
Theorem expired_never_deleted (m : store) rid r calls t t' :
m !! rid = Some r → status r = EXPIRED →
Forall (λ c, ¬ generates c rid) calls →
run hmac key m calls !! rid = Some r
∧ (checkApprovalStatus hmac key (run hmac key m calls) rid t t').1
  = {| ck_status := str "EXPIRED"; ck_token := None; ck_error := None |}
∧ ∀ (m0 : store) c rid0 r0,
    m0 !! rid0 = Some r0 → step hmac key m0 c !! rid0 = None →
    ∃ now now' tok, c = CheckApprovalStatus rid0 now now' ∧ status r0 = APPROVED ∧
      (checkApprovalStatus hmac key m0 rid0 now now').1
      = {| ck_status := str "APPROVED"; ck_token := Some tok; ck_error := None |}.
Proof.
intros Hm Hs Hcalls.
pose proof (run_expired m calls rid r Hm Hs Hcalls) as Hrun.
split; [done|]. split; [|apply step_deletes].
unfold checkApprovalStatus. rewrite Hrun, Hs. simpl.
rewrite andb_false_r. simpl. by rewrite Hs.
Qed.

(** C7, amended: a token that [checkApprovalStatus] returns is the
    base64url text of the payload, a dot (the first of the token), and
    the hexadecimal text of the keyed MAC taken over the bytes of the
    payload themselves: the part before the dot is read back to the
    payload and the part after it to the MAC. The payload is the JSON
    text of an object with four fields: [sub], the requester; [req], the
    request id; [act], the action; and [exp], the expiry, the clock
    reading plus 300000 milliseconds. *)
Theorem token_wire_format (m m' : store) rid now now' res tok :
checkApprovalStatus hmac key m rid now now' = (res, m') →
ck_token res = Some tok →
∃ r front signature payload,
  m !! rid = Some r
  ∧ ck_status res = str "APPROVED"
  ∧ tok = front ++ "."%char :: signature
  ∧ ("."%char ∉ front)
  ∧ front = base64url payload
  ∧ from_base64url front = Some payload
  ∧ signature = to_hex (hmac key payload)
  ∧ from_hex signature = hmac key payload
  ∧ JSON_read payload
    = Some [(str "sub", JStr (requesterId r)); (str "req", JStr rid);
            (str "act", JStr (action r)); (str "exp", JNum (now' + 300000))].
Proof.
intros Hc Ht.
destruct (check_issues_deletes _ _ _ _ _ _ _ Hc Ht) as (_ & Hst & r & Hm & _ & ->).
exists r, (base64url (token_payload r rid now')),
  (to_hex (hmac key (token_payload r rid now'))), (token_payload r rid now').
split; [done|]. split; [done|]. split; [done|].
split; [apply base64url_no_dot|]. split; [done|].
split; [apply from_base64url_base64url|]. split; [done|].
split; [apply from_hex_to_hex|]. apply JSON_read_payload.
Qed.
End Workflow.

(** The calls of the examples: a vote on the consumed request and a new
    request with another id. *)
Definition later_calls : list call :=
  [ApplyApproval Samples.request_id (str "bob") 700 700;
   CreateRequest Samples.options (λ _, "001"%char) 800 800].

Lemma later_calls_fresh : Forall (λ c, ¬ generates c Samples.request_id) later_calls.
Proof.
  repeat constructor; simpl; [tauto|].
  intros E. vm_compute in E. discriminate E.
Qed.

(** The approved sample request is checked at time 600, then voted on
    again, then another request is created: the check at 900 finds
    nothing. *)
Lemma one_shot_token_witness :
  (checkApprovalStatus Samples.mac DEFAULT_SECRET
     (run Samples.mac DEFAULT_SECRET
        (checkApprovalStatus Samples.mac DEFAULT_SECRET Samples.approved
           Samples.request_id 600 600).2
        later_calls)
     Samples.request_id 900 900).1
  = {| ck_status := str "NOT_FOUND"; ck_token := None;
       ck_error := Some (str "Request not found.") |}.
Proof.
  apply (one_shot_token Samples.mac DEFAULT_SECRET Samples.approved _
           Samples.request_id 600 600
           (checkApprovalStatus Samples.mac DEFAULT_SECRET Samples.approved
              Samples.request_id 600 600).1
           (default [] (ck_token (checkApprovalStatus Samples.mac DEFAULT_SECRET
                                    Samples.approved Samples.request_id 600 600).1))).
  - vm_compute. reflexivity.
  - vm_compute. reflexivity.
  - vm_compute. reflexivity.
  - exact later_calls_fresh.
Defined.

(** The token of the approved sample request, checked at time 600. *)
Definition sample_token : text :=
  default [] (ck_token (checkApprovalStatus Samples.mac DEFAULT_SECRET Samples.approved
                          Samples.request_id 600 600).1).

Lemma token_wire_format_witness :
  ∃ r front signature payload,
    Samples.approved !! Samples.request_id = Some r
    ∧ ck_status (checkApprovalStatus Samples.mac DEFAULT_SECRET Samples.approved
                   Samples.request_id 600 600).1 = str "APPROVED"
    ∧ sample_token = front ++ "."%char :: signature
    ∧ ("."%char ∉ front)
    ∧ front = base64url payload
    ∧ from_base64url front = Some payload
    ∧ signature = to_hex (Samples.mac DEFAULT_SECRET payload)
    ∧ from_hex signature = Samples.mac DEFAULT_SECRET payload
    ∧ JSON_read payload
      = Some [(str "sub", JStr (requesterId r)); (str "req", JStr Samples.request_id);
              (str "act", JStr (action r)); (str "exp", JNum (600 + 300000))].
Proof.
  apply (token_wire_format Samples.mac DEFAULT_SECRET Samples.approved
           (checkApprovalStatus Samples.mac DEFAULT_SECRET Samples.approved
              Samples.request_id 600 600).2
           Samples.request_id 600 600).
  - apply surjective_pairing.
  - vm_compute. reflexivity.
Defined.

(** The payload of the sample token. *)
Definition sample_payload : text :=
  Eval vm_compute in
    str "{" ++ json_quote (str "sub") ++ str ":" ++ json_quote (str "alice")
    ++ str "," ++ json_quote (str "req") ++ str ":" ++ json_quote Samples.request_id
    ++ str "," ++ json_quote (str "act") ++ str ":" ++ json_quote (str "ACCESS_VAULT_ITEM")
    ++ str "," ++ json_quote (str "exp") ++ str ":" ++ str "300600" ++ str "}".

(** C7 as stated fails on the names of the fields: the payload of the
    sample token, read back from the part before the dot, is an object
    whose fields are [sub], [req], [act] and [exp]; it has no field
    [subject], [requestId], [action] or [expiry]. *)
Lemma token_field_names :
  ∃ front signature o,
    sample_token = front ++ "."%char :: signature
    ∧ ("."%char ∉ front)
    ∧ from_base64url front = Some sample_payload
    ∧ JSON_read sample_payload = Some o
    ∧ o.*1 = [str "sub"; str "req"; str "act"; str "exp"]
    ∧ obj_get (str "subject") o = None
    ∧ obj_get (str "requestId") o = None
    ∧ obj_get (str "action") o = None
    ∧ obj_get (str "expiry") o = None.
Proof.
  exists (base64url sample_payload),
    (to_hex (Samples.mac DEFAULT_SECRET sample_payload)),
    [(str "sub", JStr (str "alice")); (str "req", JStr Samples.request_id);
     (str "act", JStr (str "ACCESS_VAULT_ITEM")); (str "exp", JNum 300600)].
  split; [vm_compute; reflexivity|].
  split; [apply base64url_no_dot|].
  split; [apply from_base64url_base64url|].
  repeat split; vm_compute; reflexivity.
Qed.

(** The sample request, not voted on, is checked at time 2000 and found
    EXPIRED; it is still there after the later calls. *)
Definition expired : store :=
  (checkApprovalStatus Samples.mac DEFAULT_SECRET Samples.created
     Samples.request_id 2000 2000).2.

Lemma expired_never_deleted_witness :
  ∃ r, expired !! Samples.request_id = Some r ∧ status r = EXPIRED
    ∧ run Samples.mac DEFAULT_SECRET expired later_calls !! Samples.request_id = Some r
    ∧ (checkApprovalStatus Samples.mac DEFAULT_SECRET
         (run Samples.mac DEFAULT_SECRET expired later_calls) Samples.request_id 3000 3000).1
      = {| ck_status := str "EXPIRED"; ck_token := None; ck_error := None |}.
Proof.
  destruct (expired !! Samples.request_id) as [r|] eqn:Hr; [|vm_compute in Hr; discriminate Hr].
  assert (status r = EXPIRED) as Hs.
  { apply (f_equal (fmap status)) in Hr. vm_compute in Hr. by injection Hr. }
  exists r. split; [done|]. split; [done|].
  destruct (expired_never_deleted Samples.mac DEFAULT_SECRET expired Samples.request_id r
              later_calls 3000 3000 Hr Hs later_calls_fresh) as (H1 & H2 & _).
  split; [exact H1|exact H2].
Defined.

(** ** The quorum *)

(** The approvals of a request are by distinct potential approvers, and
    an APPROVED request has as many as it requires. *)
Definition counted (r : request) : Prop :=
  NoDup (approverId <$> approvals r)
  ∧ Forall (λ a, approverId a ∈ potentialApprovers r) (approvals r)
  ∧ (status r = APPROVED → (requiredApprovals r ≤ Z.of_nat (length (approvals r)))%Z).

(** A vote: the approver and the two clock readings of the call. *)
Definition vote_call (rid : text) (v : text * Z * Z) : call :=
  ApplyApproval rid v.1.1 v.1.2 v.2.

Definition vote_of (v : text * Z * Z) : approval :=
  {| approverId := v.1.1; timestamp := v.2 |}.

(** The last statement of [applyApproval] on the request. *)
Definition settle (r : request) : request :=
  if (Z.of_nat (length (approvals r)) >=? requiredApprovals r)%Z
  then set_status r APPROVED else r.

Section Quorum.
Variable hmac : text → text → text.
Variable key : text.

Lemma counted_expired r : counted r → counted (set_status r EXPIRED).
Proof. intros (? & ? & _). by repeat split. Qed.

Lemma step_counted (m : store) c :
  map_Forall (λ _, counted) m → map_Forall (λ _, counted) (step hmac key m c).
Proof.
  intros Hm. destruct c as [o e t t'| |rid a t t'|rid t t']; simpl.
  - unfold createRequest. destruct (_ || _); simpl; [done|].
    apply map_Forall_insert_2; [|done].
    repeat split; simpl; [constructor|constructor|done].
  - done.
  - unfold applyApproval. destruct (m !! rid) as [r|] eqn:Hr; [|done].
    pose proof (Hm _ _ Hr) as (Hnd & Hin & Hq).
    destruct (_ <=? _)%Z; simpl.
    { apply map_Forall_insert_2; [|done]. by apply counted_expired. }
    case_bool_decide as Hs; simpl; [done|].
    case_bool_decide as Ha; simpl; [done|].
    case_bool_decide as Hv; simpl; [done|].
    apply map_Forall_insert_2; [|done].
    assert (NoDup (approverId <$> approvals r ++ [{| approverId := a; timestamp := t' |}])
            ∧ Forall (λ x, approverId x ∈ potentialApprovers r)
                (approvals r ++ [{| approverId := a; timestamp := t' |}])) as [Hnd' Hin'].
    { split.
      - rewrite fmap_app. apply NoDup_app. split; [done|]. split; [|apply NoDup_singleton].
        intros x Hx. simpl. rewrite list_elem_of_singleton. intros ->.
        apply Hv. apply Exists_exists. apply list_elem_of_fmap in Hx as (y & ? & ?).
        by exists y.
      - apply Forall_app. split; [done|]. apply Forall_singleton. simpl.
        done. }
    destruct (_ >=? _)%Z eqn:Hge; repeat split; simpl; try done.
    + intros _. lia.
    + intros E. congruence.
  - unfold checkApprovalStatus. destruct (m !! rid) as [r|] eqn:Hr; [|done].
    pose proof (Hm _ _ Hr) as Hc.
    destruct (_ && _); simpl.
    + apply map_Forall_insert_2; [|done]. by apply counted_expired.
    + case_bool_decide; simpl; [|done]. by apply map_Forall_delete.
Qed.

Lemma run_counted (m : store) calls :
  map_Forall (λ _, counted) m → map_Forall (λ _, counted) (run hmac key m calls).
Proof.
  revert m. induction calls as [|c calls IH]; intros m Hm; [done|].
  simpl. apply IH. by apply step_counted.
Qed.

(** X1: whatever calls were made since the module was loaded, a token is
    issued only for a request that is APPROVED and has at least
    [requiredApprovals] approvals, all by different users, each one of
    its potential approvers. *)
Theorem token_requires_quorum calls rid now now' res m' tok :
  checkApprovalStatus hmac key (run hmac key ∅ calls) rid now now' = (res, m') →
  ck_token res = Some tok →
  ∃ r, run hmac key ∅ calls !! rid = Some r
    ∧ status r = APPROVED
    ∧ (requiredApprovals r ≤ Z.of_nat (length (approvals r)))%Z
    ∧ NoDup (approverId <$> approvals r)
    ∧ Forall (λ a, approverId a ∈ potentialApprovers r) (approvals r).
Proof.
  intros Hc Ht.
  destruct (check_issues_deletes _ _ _ _ _ _ _ _ _ Hc Ht) as (_ & _ & r & Hr & Hs & _).
  exists r. split; [done|]. split; [done|].
  destruct (run_counted ∅ calls (map_Forall_empty _) _ _ Hr) as (? & ? & Hq).
  auto.
Qed.

(** A vote that [applyApproval] accepts. *)
Lemma applyApproval_vote (m : store) rid r a t t' :
  m !! rid = Some r → status r = PENDING → (t < expiresAt r)%Z →
  a ∈ potentialApprovers r → a ∉ (approverId <$> approvals r) →
  applyApproval m rid a t t'
  = let r' := settle (push_approval r {| approverId := a; timestamp := t' |}) in
    ({| ar_success := true; ar_status := Some (status_name (status r'));
        ar_error := None |}, <[rid := r']> m).
Proof.
  intros Hm Hs Ht Ha Hv. unfold applyApproval. rewrite Hm.
  rewrite (proj2 (Z.leb_gt _ _) Ht), Hs. simpl.
  rewrite bool_decide_false by (by intros ?).
  rewrite bool_decide_false; [done|].
  intros (y & Hy & <-)%Exists_exists. apply Hv. apply list_elem_of_fmap. eauto.
Qed.

Lemma votes_counted votes : ∀ (m : store) rid r,
  m !! rid = Some r → status r = PENDING →
  (Z.of_nat (length (approvals r)) < requiredApprovals r)%Z →
  NoDup (votes.*1.*1) →
  Forall (λ v, v.1.1 ∈ potentialApprovers r ∧ (v.1.1 ∉ approverId <$> approvals r)
               ∧ (v.1.2 < expiresAt r)%Z) votes →
  (Z.of_nat (length (approvals r) + length votes) ≤ requiredApprovals r)%Z →
  run hmac key m (vote_call rid <$> votes) !! rid
  = Some (settle (foldl push_approval r (vote_of <$> votes))).
Proof.
  induction votes as [|v votes IH]; intros m rid r Hm Hs Hlt Hnd Hv Hle.
  { simpl. unfold settle. rewrite Z.geb_leb, (proj2 (Z.leb_gt _ _)); [done|lia]. }
  apply Forall_cons in Hv as [(Hin & Hnew & Ht) Hv].
  rewrite !fmap_cons in Hnd. apply NoDup_cons in Hnd as [Hv1 Hnd].
  cbn [fmap list_fmap run foldl step vote_call].
  rewrite (applyApproval_vote m rid r) by done. cbn [snd].
  set (r1 := push_approval r {| approverId := v.1.1; timestamp := v.2 |}).
  destruct votes as [|v' votes].
  { simpl. apply lookup_insert_eq. }
  assert (settle r1 = r1) as ->.
  { unfold settle, r1. simpl. rewrite length_app. simpl.
    simpl in Hle. rewrite Z.geb_leb, (proj2 (Z.leb_gt _ _)); [done|lia]. }
  change (foldl (step hmac key) ?m ?c) with (run hmac key m c).
  rewrite (IH _ rid r1); [done|apply lookup_insert_eq|done|..].
  - unfold r1. simpl. rewrite length_app. simpl. simpl in Hle. lia.
  - done.
  - eapply Forall_impl; [apply Forall_and; split; [exact Hv|]|].
    + instantiate (1 := λ w, w.1.1 ≠ v.1.1).
      apply Forall_forall. intros w Hw E. apply Hv1.
      rewrite <- E. apply list_elem_of_fmap. exists w.1. split; [done|].
      apply list_elem_of_fmap. eauto.
    + intros w [(? & Hn & ?) Hne]. unfold r1. simpl. split; [done|]. split; [|done].
      rewrite fmap_app, elem_of_app. simpl. rewrite list_elem_of_singleton. tauto.
  - unfold r1. simpl. rewrite length_app. simpl. simpl in Hle. lia.
Qed.

Lemma foldl_push_fields r l :
  let r' := foldl push_approval r l in
  approvals r' = approvals r ++ l ∧ status r' = status r
  ∧ requiredApprovals r' = requiredApprovals r ∧ expiresAt r' = expiresAt r
  ∧ potentialApprovers r' = potentialApprovers r ∧ requesterId r' = requesterId r
  ∧ action r' = action r.
Proof.
  revert r. induction l as [|a l IH]; intros r; simpl.
  { by rewrite app_nil_r. }
  destruct (IH (push_approval r a)) as (-> & -> & -> & -> & -> & -> & ->). simpl.
  by rewrite <- app_assoc.
Qed.

(** X2: votes of different potential approvers on a pending request
    without approvals, each cast before the deadline, no more of them
    than are required (at least one is): every vote is recorded, in
    order; the request is APPROVED exactly when the last required vote
    is in, PENDING before; and once it is APPROVED
    [checkApprovalStatus] returns a token at any time. *)
Theorem quorum_approves (m : store) rid r votes :
  m !! rid = Some r → status r = PENDING → approvals r = [] →
  (1 ≤ requiredApprovals r)%Z →
  NoDup (votes.*1.*1) →
  Forall (λ v, v.1.1 ∈ potentialApprovers r ∧ (v.1.2 < expiresAt r)%Z) votes →
  (Z.of_nat (length votes) ≤ requiredApprovals r)%Z →
  let m' := run hmac key m (vote_call rid <$> votes) in
  ∃ r', m' !! rid = Some r'
    ∧ approvals r' = vote_of <$> votes
    ∧ (status r' = if decide (Z.of_nat (length votes) = requiredApprovals r)
                   then APPROVED else PENDING)
    ∧ (Z.of_nat (length votes) = requiredApprovals r →
       ∀ now now', ∃ tok,
         (checkApprovalStatus hmac key m' rid now now').1
         = {| ck_status := str "APPROVED"; ck_token := Some tok; ck_error := None |}).
Proof.
  intros Hm Hs Ha HM Hnd Hv Hle m'.
  assert (m' !! rid = Some (settle (foldl push_approval r (vote_of <$> votes)))) as Hm'.
  { apply votes_counted; try done.
    - rewrite Ha. simpl. lia.
    - eapply Forall_impl; [exact Hv|]. intros v [? ?]. rewrite Ha. simpl.
      split; [done|]. split; [|done]. apply not_elem_of_nil.
    - rewrite Ha. simpl. lia. }
  destruct (foldl_push_fields r (vote_of <$> votes)) as (Hap & Hst & Hreq & _).
  rewrite Ha in Hap. simpl in Hap.
  assert (status (settle (foldl push_approval r (vote_of <$> votes)))
          = if decide (Z.of_nat (length votes) = requiredApprovals r)
            then APPROVED else PENDING) as Hstatus.
  { unfold settle. rewrite Hap, Hreq, length_fmap.
    destruct (decide _) as [E|E].
    - by rewrite Z.geb_leb, (proj2 (Z.leb_le _ _)) by lia.
    - rewrite Z.geb_leb, (proj2 (Z.leb_gt _ _)); [by rewrite Hst|lia]. }
  eexists. split; [exact Hm'|]. split.
  { unfold settle. by destruct (_ >=? _)%Z. }
  split; [done|].
  intros E now now'. rewrite decide_True in Hstatus by done.
  eexists. unfold checkApprovalStatus. rewrite Hm', Hstatus. simpl.
  rewrite andb_false_r. simpl. by rewrite Hstatus.
Qed.
(** X19: [createRequest] counts the potential approvers with their
    repetitions, and [applyApproval] takes each user once: a request
    whose potential approvers are fewer different users than it requires
    approvals is never APPROVED, whatever calls are made, and never gets
    a token. *)
Theorem too_few_approvers calls rid r :
  run hmac key ∅ calls !! rid = Some r →
  (Z.of_nat (length (remove_dups (potentialApprovers r))) < requiredApprovals r)%Z →
  status r ≠ APPROVED
  ∧ ∀ now now', ck_token (checkApprovalStatus hmac key (run hmac key ∅ calls)
                             rid now now').1 = None.
Proof.
  intros Hr Hfew.
  destruct (run_counted ∅ calls (map_Forall_empty _) _ _ Hr) as (Hnd & Hin & Hq).
  assert (status r ≠ APPROVED) as Hs.
  { intros Hs. specialize (Hq Hs).
    assert (length (approverId <$> approvals r)
            ≤ length (remove_dups (potentialApprovers r))) as Hle.
    { apply submseteq_length, NoDup_submseteq; [done|].
      intros a (x & -> & Hx)%list_elem_of_fmap. apply elem_of_remove_dups.
      by eapply Forall_forall in Hin. }
    rewrite length_fmap in Hle. lia. }
  split; [done|]. intros now now'. unfold checkApprovalStatus. rewrite Hr.
  destruct (_ && _); simpl; [done|]. by rewrite bool_decide_false.
Qed.
End Quorum.

(** ** Listing *)

(** What [listPendingApprovals] lists when the clock stands at [t]. *)
Lemma listed_at (m : store) t r :
  r ∈ listPendingApprovals m (λ _, t) ↔
  ∃ k, m !! k = Some r ∧ status r = PENDING ∧ (t < expiresAt r)%Z.
Proof.
  unfold listPendingApprovals. rewrite list_elem_of_omap. split.
  - intros (o & Ho & ->). apply elem_of_lookup_imap in Ho as (i & [k r'] & Hr & Hi).
    simpl in Hr. destruct (bool_decide _ && _) eqn:Hc; [|done].
    apply andb_prop in Hc as [Hs Ht]. apply bool_decide_eq_true in Hs.
    simplify_eq. exists k. split; [|split; [done|lia]].
    apply elem_of_map_to_list. by eapply list_elem_of_lookup_2.
  - intros (k & Hk & Hs & Ht). exists (Some r). split; [|done].
    apply elem_of_map_to_list in Hk. apply list_elem_of_lookup_1 in Hk as [i Hi].
    apply elem_of_lookup_imap. exists i, (k, r). split; [|done]. simpl.
    rewrite bool_decide_true by done. simpl.
    by rewrite (proj2 (Z.gtb_gt _ _)) by lia.
Qed.

(** A call that is not a vote on [rid] before the deadline of [r], and
    does not draw the id [rid]. *)
Definition late_for (rid : text) (r : request) (c : call) : Prop :=
  match c with
  | CreateRequest _ entropy _ _ => to_hex (randomBytes 16 entropy) ≠ rid
  | ApplyApproval rid' _ now _ => rid' = rid → (expiresAt r ≤ now)%Z
  | _ => True
  end.

(** What no call changes in a request. *)
Definition same_terms (r r' : request) : Prop :=
  id r' = id r ∧ requesterId r' = requesterId r ∧ action r' = action r
  ∧ details r' = details r ∧ requiredApprovals r' = requiredApprovals r
  ∧ potentialApprovers r' = potentialApprovers r
  ∧ createdAt r' = createdAt r ∧ expiresAt r' = expiresAt r
  ∧ approvals r `prefix_of` approvals r'.

Section Requests.
Variable hmac : text → text → text.
Variable key : text.

(** Every request is stored under its own id. *)
Lemma step_by_id (m : store) c :
  map_Forall (λ k r, id r = k) m → map_Forall (λ k r, id r = k) (step hmac key m c).
Proof.
  intros Hm. destruct c as [o e t t'| |rid a t t'|rid t t']; simpl.
  - unfold createRequest. destruct (_ || _); simpl; [done|].
    by apply map_Forall_insert_2.
  - done.
  - unfold applyApproval. destruct (m !! rid) as [r|] eqn:Hr; [|done].
    pose proof (Hm _ _ Hr) as Hid.
    repeat case_match; simpl; try done; by apply map_Forall_insert_2.
  - unfold checkApprovalStatus. destruct (m !! rid) as [r|] eqn:Hr; [|done].
    pose proof (Hm _ _ Hr) as Hid.
    repeat case_match; simpl; try done;
      try apply map_Forall_delete; try apply map_Forall_insert_2; done.
Qed.

Lemma run_by_id (m : store) calls :
  map_Forall (λ k r, id r = k) m → map_Forall (λ k r, id r = k) (run hmac key m calls).
Proof.
  revert m. induction calls as [|c calls IH]; intros m Hm; [done|].
  simpl. apply IH. by apply step_by_id.
Qed.

(** X3: whatever calls were made since the module was loaded,
    [applyApproval] at a clock reading succeeds exactly on the requests
    that [listPendingApprovals] lists at that reading, for the potential
    approvers of the request who have not approved it yet. *)
Theorem listed_iff_approvable calls rid approver now now' :
  let m := run hmac key ∅ calls in
  ar_success (applyApproval m rid approver now now').1 = true ↔
  ∃ r, r ∈ listPendingApprovals m (λ _, now) ∧ id r = rid
       ∧ approver ∈ potentialApprovers r
       ∧ approver ∉ approverId <$> approvals r.
Proof.
  intros m.
  pose proof (run_by_id ∅ calls (map_Forall_empty _)) as Hid. fold m in Hid.
  setoid_rewrite listed_at. unfold applyApproval. split.
  - destruct (m !! rid) as [r|] eqn:Hr; [|done].
    destruct (_ <=? _)%Z eqn:Ht; [done|].
    case_bool_decide as Hs; [done|].
    case_bool_decide as Ha; [done|].
    case_bool_decide as Hv; [done|]. intros _.
    exists r. split; [|split; [by apply Hid|split; [done|]]].
    + exists rid. split; [done|]. split; [by destruct (status r)|].
      by apply Z.leb_gt.
    + intros (y & -> & Hy)%list_elem_of_fmap. apply Hv, Exists_exists. eauto.
  - intros (r & (k & Hk & Hs & Ht) & Hrid & Ha & Hv).
    rewrite <- Hrid, (Hid _ _ Hk), Hk.
    rewrite (proj2 (Z.leb_gt _ _)) by done.
    rewrite bool_decide_false by (by rewrite Hs; intros ?).
    rewrite bool_decide_false by (by intros ?).
    rewrite bool_decide_false; [done|].
    intros (y & Hy & <-)%Exists_exists. apply Hv, list_elem_of_fmap. eauto.
Qed.

Lemma step_late (m : store) c rid r :
  m !! rid = Some r → status r ≠ APPROVED → late_for rid r c →
  ∃ r', step hmac key m c !! rid = Some r' ∧ status r' ≠ APPROVED
        ∧ approvals r' = approvals r ∧ expiresAt r' = expiresAt r.
Proof.
  intros Hm Hs Hl. destruct c as [o e t t'| |rid' a t t'|rid' t t']; simpl in *.
  - unfold createRequest. destruct (_ || _); simpl; [by eauto|].
    rewrite lookup_insert_ne by done. eauto.
  - eauto.
  - unfold applyApproval. destruct (decide (rid' = rid)) as [->|Hne].
    + rewrite Hm, (proj2 (Z.leb_le _ _)) by auto. simpl.
      rewrite lookup_insert_eq. by eexists.
    + destruct (m !! rid'); [|by eauto].
      repeat case_match; simpl; rewrite ?lookup_insert_ne by done; eauto.
  - unfold checkApprovalStatus. destruct (decide (rid' = rid)) as [->|Hne].
    + rewrite Hm. destruct (_ && _); simpl.
      * rewrite lookup_insert_eq. by eexists.
      * rewrite bool_decide_false by done. simpl. eauto.
    + destruct (m !! rid'); [|by eauto].
      repeat case_match; simpl; rewrite ?lookup_delete_ne, ?lookup_insert_ne by done; eauto.
Qed.

(** X4: a request that is not APPROVED, when every later [applyApproval]
    on it comes at or after its deadline and no [createRequest] draws its
    id again: it stays in the store, it never becomes APPROVED, its list
    of approvals does not change, and [checkApprovalStatus] never issues
    a token for it. *)
Theorem no_approval_after_deadline (m : store) rid r calls :
  m !! rid = Some r → status r ≠ APPROVED →
  Forall (late_for rid r) calls →
  ∃ r', run hmac key m calls !! rid = Some r'
    ∧ status r' ≠ APPROVED ∧ approvals r' = approvals r
    ∧ ∀ now now', ck_token (checkApprovalStatus hmac key (run hmac key m calls)
                               rid now now').1 = None.
Proof.
  intros Hm Hs Hc.
  assert (∃ r', run hmac key m calls !! rid = Some r' ∧ status r' ≠ APPROVED
                ∧ approvals r' = approvals r ∧ expiresAt r' = expiresAt r)
    as (r' & Hr' & Hs' & Ha' & _).
  { revert m r Hm Hs Hc. induction calls as [|c calls IH]; intros m r Hm Hs Hc.
    { by exists r. }
    apply Forall_cons in Hc as [Hl Hc].
    destruct (step_late m c rid r Hm Hs Hl) as (r1 & Hr1 & Hs1 & Ha1 & He1).
    destruct (IH (step hmac key m c) r1 Hr1 Hs1) as (r2 & ? & ? & ? & ?).
    { eapply Forall_impl; [exact Hc|]. intros [] ?; simpl in *; try done.
      by rewrite He1. }
    exists r2. simpl. repeat split; try done; congruence. }
  exists r'. split; [done|]. split; [done|]. split; [done|].
  intros now now'. unfold checkApprovalStatus. rewrite Hr'.
  destruct (_ && _); simpl; [done|]. by rewrite bool_decide_false.
Qed.

Lemma same_terms_refl r : same_terms r r.
Proof. by repeat split. Qed.

Lemma same_terms_trans r1 r2 r3 : same_terms r1 r2 → same_terms r2 r3 → same_terms r1 r3.
Proof.
  intros (? & ? & ? & ? & ? & ? & ? & ? & ?) (? & ? & ? & ? & ? & ? & ? & ? & ?).
  repeat split; try congruence. by etrans.
Qed.

Lemma step_terms (m : store) c rid r r' :
  m !! rid = Some r → ¬ generates c rid → step hmac key m c !! rid = Some r' →
  same_terms r r'.
Proof.
  intros Hm Hg. destruct c as [o e t t'| |rid' a t t'|rid' t t']; simpl in *.
  - unfold createRequest. destruct (_ || _); simpl.
    + rewrite Hm. intros [= <-]. apply same_terms_refl.
    + rewrite lookup_insert_ne, Hm by done. intros [= <-]. apply same_terms_refl.
  - rewrite Hm. intros [= <-]. apply same_terms_refl.
  - unfold applyApproval. destruct (decide (rid' = rid)) as [->|Hne].
    + rewrite Hm. repeat case_match; simpl; rewrite ?lookup_insert_eq, ?Hm;
        intros [= <-]; try apply same_terms_refl;
        repeat split; try done; by apply prefix_app_r.
    + destruct (m !! rid'); [|by simpl; rewrite Hm; intros [= <-]; apply same_terms_refl].
      repeat case_match; simpl; rewrite ?lookup_insert_ne, Hm by done;
        intros [= <-]; apply same_terms_refl.
  - unfold checkApprovalStatus. destruct (decide (rid' = rid)) as [->|Hne].
    + rewrite Hm. repeat case_match; simpl;
        rewrite ?lookup_delete_eq, ?lookup_insert_eq, ?Hm; intros [= <-];
        by repeat split.
    + destruct (m !! rid'); [|by simpl; rewrite Hm; intros [= <-]; apply same_terms_refl].
      repeat case_match; simpl; rewrite ?lookup_delete_ne, ?lookup_insert_ne, ?Hm by done;
        intros [= <-]; apply same_terms_refl.
Qed.

(** X6: as long as no [createRequest] draws its id again, a request that
    is still in the store after any calls has the id, the requester, the
    action, the details, the number of required approvals, the potential
    approvers, the creation time and the deadline it had before, and its
    approvals then are the first of its approvals now. *)
Theorem request_terms_fixed (m : store) calls rid r r' :
  m !! rid = Some r → Forall (λ c, ¬ generates c rid) calls →
  run hmac key m calls !! rid = Some r' →
  same_terms r r'.
Proof.
  intros Hm Hc. revert m r Hm.
  induction Hc as [|c calls Hc Hcalls IH]; intros m r Hm; simpl.
  { rewrite Hm. intros [= <-]. apply same_terms_refl. }
  destruct (step hmac key m c !! rid) as [r1|] eqn:Hr1.
  - intros Hr'.
    pose proof (step_terms m c rid r r1 Hm Hc Hr1) as H1.
    pose proof (IH _ r1 Hr1 Hr') as H2.
    exact (same_terms_trans _ _ _ H1 H2).
  - change (foldl (step hmac key) ?m ?c) with (run hmac key m c).
    by rewrite (run_absent hmac key _ calls rid Hr1 Hcalls).
Qed.

(** X7: two tokens with the same text have the same payload and the same
    MAC: the payload is read back from the part before the first dot and
    the MAC from the part after it. *)
Theorem token_unambiguous key' payload payload' :
  mint_token hmac key payload = mint_token hmac key' payload' →
  payload = payload' ∧ hmac key payload = hmac key' payload'.
Proof.
  unfold mint_token. intros E.
  apply split_at_first in E as [Hp Hs]; [|apply base64url_no_dot..].
  split; [by apply base64url_inj|by apply to_hex_inj].
Qed.
End Requests.

(** An integer of magnitude up to 2^53 is a double. *)
Lemma to_double_exact z : (Z.abs z ≤ 2 ^ 53)%Z → to_double z = z.
Proof.
  intros Hz. unfold to_double. cbv zeta.
  destruct (Z.leb_spec (Z.log2 (Z.abs z) - 52) 0) as [|He]; [done|].
  assert (Z.log2 (Z.abs z) ≤ 53)%Z as Hl.
  { change 53%Z with (Z.log2 (2 ^ 53)). by apply Z.log2_le_mono. }
  assert (Z.log2 (Z.abs z) = 53)%Z as El by lia.
  assert (2 ^ 53 ≤ Z.abs z)%Z as Hge.
  { rewrite <- El at 1. apply Z.log2_spec. destruct (Z.abs z) eqn:E; simpl in El; lia. }
  assert (z = 2 ^ 53 ∨ z = - 2 ^ 53)%Z as [-> | ->] by lia; reflexivity.
Qed.

(** X5: a [createRequest] that succeeds returns an id of 32 hexadecimal
    digits and stores under it, leaving the other requests alone, a
    PENDING request without approvals. Its deadline is the clock reading
    plus 1000 times [ttl] (3600 when not given), computed in doubles:
    that sum itself while the product and the sum have a magnitude of at
    most 2^53, and rounded to 53 bits beyond, as long as the doubles
    reach (a magnitude below 2^1023). The request is listed by
    [listPendingApprovals] exactly while the clock is before the
    deadline. *)
Theorem created_request_is_listed (m : store) options entropy now now' res m' :
  createRequest m options entropy now now' = (res, m') → cr_success res = true →
  ∃ rid r,
    cr_requestId res = Some rid ∧ m' !! rid = Some r ∧ id r = rid
    ∧ length rid = 32 ∧ Forall (λ c, c ∈ HEX_DIGITS) rid
    ∧ status r = PENDING ∧ approvals r = []
    ∧ ((Z.abs (default 3600 (opt_ttl options) * 1000) < 2 ^ 1023)%Z →
       (Z.abs (now + to_double (default 3600 (opt_ttl options) * 1000)) < 2 ^ 1023)%Z →
       expiresAt r = to_double (now + to_double (default 3600 (opt_ttl options) * 1000))%Z)
    ∧ ((Z.abs (default 3600 (opt_ttl options) * 1000) ≤ 2 ^ 53)%Z →
       (Z.abs (now + default 3600 (opt_ttl options) * 1000) ≤ 2 ^ 53)%Z →
       expiresAt r = (now + default 3600 (opt_ttl options) * 1000)%Z)
    ∧ (∀ rid', rid' ≠ rid → m' !! rid' = m !! rid')
    ∧ ∀ t, r ∈ listPendingApprovals m' (λ _, t) ↔ (t < expiresAt r)%Z.
Proof.
  unfold createRequest. destruct (_ || _); [by intros [= <- <-]|].
  intros [= <- <-] _. eexists _, _. split; [done|].
  split; [apply lookup_insert_eq|]. split; [done|].
  destruct (to_hex_digits (randomBytes 16 entropy)) as [Hlen Hhex].
  unfold randomBytes in Hlen at 2. rewrite length_map, length_seq in Hlen.
  split; [done|]. split; [done|]. split; [done|]. split; [done|]. split; [by intros|].
  split; [intros H1 H2; cbn [expiresAt]; by rewrite (to_double_exact _ H1), to_double_exact|].
  split; [by intros rid' ?; rewrite lookup_insert_ne|].
  intros t. rewrite listed_at. simpl. split.
  - by intros (_ & _ & _ & ?).
  - intros Ht. eexists. split; [apply lookup_insert_eq|done].
Qed.

(** The calls that create the sample request and approve it. *)
Definition sample_calls : list call :=
  [CreateRequest Samples.options Samples.zeros 0 0;
   ApplyApproval Samples.request_id (str "bob") 500 500].

(** The sample request as [createRequest] stores it. *)
Definition pending_request : request :=
  {| id := Samples.request_id; requesterId := str "alice";
     action := str "ACCESS_VAULT_ITEM"; details := str "key_123";
     status := PENDING; requiredApprovals := 1; potentialApprovers := [str "bob"];
     approvals := []; createdAt := 0; expiresAt := 1000 |}.

Lemma created_pending : Samples.created !! Samples.request_id = Some pending_request.
Proof. vm_compute. reflexivity. Qed.

(** The token of the sample request, checked at time 600 after the two
    calls: one approval was required, and [bob] gave it. *)
Lemma token_requires_quorum_witness :
  ∃ r, run Samples.mac DEFAULT_SECRET ∅ sample_calls !! Samples.request_id = Some r
    ∧ status r = APPROVED
    ∧ (requiredApprovals r ≤ Z.of_nat (length (approvals r)))%Z
    ∧ NoDup (approverId <$> approvals r)
    ∧ Forall (λ a, approverId a ∈ potentialApprovers r) (approvals r).
Proof.
  apply (token_requires_quorum Samples.mac DEFAULT_SECRET sample_calls
           Samples.request_id 600 600
           (checkApprovalStatus Samples.mac DEFAULT_SECRET
              (run Samples.mac DEFAULT_SECRET ∅ sample_calls) Samples.request_id 600 600).1
           (checkApprovalStatus Samples.mac DEFAULT_SECRET
              (run Samples.mac DEFAULT_SECRET ∅ sample_calls) Samples.request_id 600 600).2
           (default [] (ck_token (checkApprovalStatus Samples.mac DEFAULT_SECRET
              (run Samples.mac DEFAULT_SECRET ∅ sample_calls) Samples.request_id 600 600).1))).
  - vm_compute. reflexivity.
  - vm_compute. reflexivity.
Defined.

(** The vote of [bob] at time 500 on the sample request. *)
Lemma quorum_approves_witness :
  let m' := run Samples.mac DEFAULT_SECRET Samples.created
              (vote_call Samples.request_id <$> [(str "bob", 500%Z, 500%Z)]) in
  ∃ r', m' !! Samples.request_id = Some r'
    ∧ approvals r' = vote_of <$> [(str "bob", 500%Z, 500%Z)]
    ∧ (status r' = if decide (Z.of_nat (length [(str "bob", 500%Z, 500%Z)])
                              = requiredApprovals pending_request)
                   then APPROVED else PENDING)
    ∧ (Z.of_nat (length [(str "bob", 500%Z, 500%Z)]) = requiredApprovals pending_request →
       ∀ now now', ∃ tok,
         (checkApprovalStatus Samples.mac DEFAULT_SECRET m' Samples.request_id now now').1
         = {| ck_status := str "APPROVED"; ck_token := Some tok; ck_error := None |}).
Proof.
  apply (quorum_approves Samples.mac DEFAULT_SECRET Samples.created Samples.request_id
           pending_request [(str "bob", 500%Z, 500%Z)]).
  - exact created_pending.
  - reflexivity.
  - reflexivity.
  - simpl. lia.
  - simpl. apply NoDup_singleton.
  - apply Forall_singleton. simpl. split; [apply list_elem_of_singleton; reflexivity|lia].
  - simpl. lia.
Defined.

(** The sample request, with votes at its deadline and after it. *)
Definition late_calls : list call :=
  [ApplyApproval Samples.request_id (str "bob") 1000 1000;
   CheckApprovalStatus Samples.request_id 1500 1500;
   ApplyApproval Samples.request_id (str "bob") 2000 2000].

Lemma no_approval_after_deadline_witness :
  ∃ r', run Samples.mac DEFAULT_SECRET Samples.created late_calls !! Samples.request_id
        = Some r'
    ∧ status r' ≠ APPROVED ∧ approvals r' = approvals pending_request
    ∧ ∀ now now',
        ck_token (checkApprovalStatus Samples.mac DEFAULT_SECRET
                    (run Samples.mac DEFAULT_SECRET Samples.created late_calls)
                    Samples.request_id now now').1 = None.
Proof.
  apply (no_approval_after_deadline Samples.mac DEFAULT_SECRET Samples.created
           Samples.request_id pending_request late_calls).
  - exact created_pending.
  - discriminate.
  - apply Forall_cons. split; [intros _; simpl; lia|].
    apply Forall_cons. split; [exact I|].
    apply Forall_cons. split; [intros _; simpl; lia|]. apply Forall_nil_2.
Defined.

(** The sample request is created in the empty store at time 0. *)
Lemma created_request_is_listed_witness :
  ∃ rid r,
    cr_requestId (createRequest ∅ Samples.options Samples.zeros 0 0).1 = Some rid
    ∧ (createRequest ∅ Samples.options Samples.zeros 0 0).2 !! rid = Some r ∧ id r = rid
    ∧ length rid = 32 ∧ Forall (λ c, c ∈ HEX_DIGITS) rid
    ∧ status r = PENDING ∧ approvals r = []
    ∧ ((Z.abs (default 3600 (opt_ttl Samples.options) * 1000) < 2 ^ 1023)%Z →
       (Z.abs (0 + to_double (default 3600 (opt_ttl Samples.options) * 1000)) < 2 ^ 1023)%Z →
       expiresAt r = to_double (0 + to_double (default 3600 (opt_ttl Samples.options) * 1000))%Z)
    ∧ ((Z.abs (default 3600 (opt_ttl Samples.options) * 1000) ≤ 2 ^ 53)%Z →
       (Z.abs (0 + default 3600 (opt_ttl Samples.options) * 1000) ≤ 2 ^ 53)%Z →
       expiresAt r = (0 + default 3600 (opt_ttl Samples.options) * 1000)%Z)
    ∧ (∀ rid', rid' ≠ rid →
         (createRequest ∅ Samples.options Samples.zeros 0 0).2 !! rid'
         = (∅ : store) !! rid')
    ∧ ∀ t, r ∈ listPendingApprovals (createRequest ∅ Samples.options Samples.zeros 0 0).2
                 (λ _, t) ↔ (t < expiresAt r)%Z.
Proof.
  apply (created_request_is_listed ∅ Samples.options Samples.zeros 0 0
           (createRequest ∅ Samples.options Samples.zeros 0 0).1
           (createRequest ∅ Samples.options Samples.zeros 0 0).2).
  - apply surjective_pairing.
  - vm_compute. reflexivity.
Defined.

(** The sample request before and after the vote of [bob]. *)
Lemma request_terms_fixed_witness :
  ∃ r', Samples.approved !! Samples.request_id = Some r'
        ∧ same_terms pending_request r'.
Proof.
  destruct (Samples.approved !! Samples.request_id) as [r'|] eqn:Hr';
    [|vm_compute in Hr'; discriminate Hr'].
  exists r'. split; [reflexivity|].
  apply (request_terms_fixed Samples.mac DEFAULT_SECRET Samples.created
           [ApplyApproval Samples.request_id (str "bob") 500 500]
           Samples.request_id pending_request r').
  - exact created_pending.
  - apply Forall_singleton. simpl. tauto.
  - exact Hr'.
Defined.

(** A token is read back as what it was made from. *)
Lemma token_unambiguous_witness :
  str "{}" = str "{}"
  ∧ Samples.mac DEFAULT_SECRET (str "{}") = Samples.mac DEFAULT_SECRET (str "{}").
Proof.
  apply (token_unambiguous Samples.mac DEFAULT_SECRET DEFAULT_SECRET (str "{}") (str "{}")).
  reflexivity.
Defined.

(** A request that requires two approvals and names [bob] twice. *)
Definition twice_bob : create_options :=
  {| opt_requesterId := str "alice"; opt_action := str "ACCESS_VAULT_ITEM";
     opt_details := str "key_123"; opt_requiredApprovals := None;
     opt_potentialApprovers := Some [str "bob"; str "bob"]; opt_ttl := None |}.

Definition twice_bob_calls : list call :=
  [CreateRequest twice_bob Samples.zeros 0 0;
   ApplyApproval Samples.request_id (str "bob") 1 1;
   ApplyApproval Samples.request_id (str "bob") 2 2].

Definition twice_bob_request : request :=
  Eval vm_compute in
    default pending_request
      (run Samples.mac DEFAULT_SECRET ∅ twice_bob_calls !! Samples.request_id).

(** [createRequest] accepts it; [bob] votes once and his second vote is
    refused. *)
Lemma too_few_approvers_witness :
  status twice_bob_request ≠ APPROVED
  ∧ ∀ now now', ck_token (checkApprovalStatus Samples.mac DEFAULT_SECRET
                             (run Samples.mac DEFAULT_SECRET ∅ twice_bob_calls)
                             Samples.request_id now now').1 = None.
Proof.
  apply (too_few_approvers Samples.mac DEFAULT_SECRET twice_bob_calls Samples.request_id
           twice_bob_request).
  - vm_compute. reflexivity.
  - vm_compute. reflexivity.
Defined.

End ApprovalWorkflowProofs.

(** * vault.js: properties *)

Module VaultProofs.
Import Vault.

Section Crypto.
Variable scrypt_kdf : jsstring → text → nat → scrypt_options → text.
Variable aes_256_gcm_encrypt : text → text → text → completion (text * text).
Variable aes_256_gcm_decrypt : text → text → text → text → completion text.

Abbreviation scryptAsync := (scryptAsync scrypt_kdf).
Abbreviation init := (init scrypt_kdf).
Abbreviation store := (store aes_256_gcm_encrypt).
Abbreviation retrieve := (retrieve aes_256_gcm_decrypt).
Abbreviation run := (run scrypt_kdf aes_256_gcm_encrypt aes_256_gcm_decrypt).
Abbreviation step := (step scrypt_kdf aes_256_gcm_encrypt aes_256_gcm_decrypt).

(** [store] and [retrieve] always return. *)
Lemma store_returns v key value entropy : returns (store v key value entropy).
Proof.
  unfold Vault.store. destruct (negb _); [by eexists|].
  destruct (required (derivedKey v)) as [k|]; [|by eexists].
  cbn [mbind completion_bind].
  destruct (aes_256_gcm_encrypt _ _ _) as [[??]|]; [|by eexists].
  cbn [mbind completion_bind].
  destruct (required (salt v)); by eexists.
Qed.

Lemma retrieve_returns v key : returns (retrieve v key).
Proof.
  unfold Vault.retrieve. destruct (negb _); [by eexists|].
  destruct (store_ v !! key); [|by eexists].
  destruct (required (derivedKey v)) as [k|]; [|by eexists].
  cbn [mbind completion_bind].
  destruct (aes_256_gcm_decrypt _ _ _ _); by eexists.
Qed.

(** A failed [store] leaves the vault as it was. *)
Lemma store_failure v key value entropy res v' :
  store v key value entropy = Return (res, v') → sr_success res = false → v' = v.
Proof.
  unfold Vault.store. destruct (negb _); [by intros [= <- <-]|].
  destruct (required (derivedKey v)) as [k|]; [|by intros [= <- <-]].
  cbn [mbind completion_bind].
  destruct (aes_256_gcm_encrypt _ _ _) as [[??]|]; [|by intros [= <- <-]].
  cbn [mbind completion_bind].
  destruct (required (salt v)); [|by intros [= <- <-]].
  by intros [= <- <-].
Qed.

(** [retrieve] leaves the vault as it was. *)
Lemma retrieve_pure v key res v' : retrieve v key = Return (res, v') → v' = v.
Proof.
  unfold Vault.retrieve. destruct (negb _); [by intros [= <- <-]|].
  destruct (store_ v !! key); [|by intros [= <- <-]].
  destruct (required (derivedKey v)) as [k|]; [|by intros [= <- <-]].
  cbn [mbind completion_bind].
  destruct (aes_256_gcm_decrypt _ _ _ _); by intros [= <- <-].
Qed.

(** C9: [store] always returns, and when its result is a failure the
    vault, its key/value map included, is what it was before the call;
    [retrieve] always returns and leaves the vault what it was. *)
Theorem store_atomic_retrieve_pure v :
  (∀ key value entropy,
     ∃ res v', store v key value entropy = Return (res, v')
               ∧ (sr_success res = false → v' = v ∧ store_ v' = store_ v))
  ∧ (∀ key, ∃ res, retrieve v key = Return (res, v)).
Proof.
  split.
  - intros key value entropy.
    destruct (store_returns v key value entropy) as [[res v'] Hs].
    exists res, v'. split; [done|]. intros Hf.
    by rewrite (store_failure _ _ _ _ _ _ Hs Hf).
  - intros key. destruct (retrieve_returns v key) as [[res v'] Hr].
    exists res. by rewrite Hr, (retrieve_pure _ _ _ _ Hr).
Qed.

(** ** The key derivation of [init] *)

(** The parameters of the program need 33557504 bytes, 3072 more than
    the bound that applies, so the derivation is refused for every
    password and salt. *)
Lemma scrypt_params_refused password salt0 :
  scrypt_memory SCRYPT_PARAMS = 33557504%Z
  ∧ default DEFAULT_MAXMEM (maxmem SCRYPT_PARAMS) = 33554432%Z
  ∧ scryptAsync password salt0 KEY_LENGTH SCRYPT_PARAMS = Throw RangeError.
Proof. repeat split; reflexivity. Qed.





(** ** What the calls leave alone *)


(** X11: as long as [init] is not called, the vault is what [new Vault()]
    made, whatever [store] and [retrieve] calls are made, and both answer
    that the vault is not initialized. *)
Theorem no_init_no_store calls :
  Forall (λ c, ∀ password entropy, c ≠ Init password entropy) calls →
  run calls = new_vault
  ∧ ∀ key value entropy,
      store (run calls) key value entropy
      = Return ({| sr_success := false; sr_error := Some (str "Vault not initialized.") |},
                run calls)
      ∧ retrieve (run calls) key
        = Return ({| rr_success := false; rr_data := None;
                     rr_error := Some (str "Vault not initialized.") |}, run calls).
Proof.
  intros Hc. assert (run calls = new_vault) as ->; [|done].
  unfold Vault.run. assert (foldl step start calls = start) as ->; [|done].
  induction Hc as [|c calls Hc _ IH]; [done|].
  simpl. destruct c as [pw e|k val e|k|i]; [by destruct (Hc pw e)|done|done|done].
Qed.

End Crypto.

(** [store] on the new vault. *)
Example store_before_init :
  store Samples.encrypt new_vault [107%N] [104%N] Samples.zeros
  = Return ({| sr_success := false; sr_error := Some (str "Vault not initialized.") |},
            new_vault).
Proof. reflexivity. Qed.

(** The failing calls: [init] with a password of twelve characters, then
    [store] and [retrieve]. *)
Example round_trip_sample :
  let v := run Samples.kdf Samples.encrypt Samples.decrypt
             [Init (Some Samples.password) Samples.zeros] in
  (init Samples.kdf new_vault (Some Samples.password) Samples.zeros).1 = Throw RangeError
  ∧ store Samples.encrypt v [107%N] [118%N] Samples.zeros
    = Return ({| sr_success := false; sr_error := Some (str "Vault not initialized.") |}, v)
  ∧ retrieve Samples.decrypt v [107%N]
    = Return ({| rr_success := false; rr_data := None;
                 rr_error := Some (str "Vault not initialized.") |}, v).
Proof. repeat split; reflexivity. Qed.


(** A [store] and a [retrieve] on the new vault. *)
Lemma no_init_no_store_witness :
  let v := run Samples.kdf Samples.encrypt Samples.decrypt
             [Store [107%N] [104%N] Samples.zeros; Retrieve [107%N]] in
  v = new_vault
  ∧ ∀ key value entropy,
      store Samples.encrypt v key value entropy
      = Return ({| sr_success := false; sr_error := Some (str "Vault not initialized.") |}, v)
      ∧ retrieve Samples.decrypt v key
        = Return ({| rr_success := false; rr_data := None;
                     rr_error := Some (str "Vault not initialized.") |}, v).
Proof.
  apply (no_init_no_store Samples.kdf Samples.encrypt Samples.decrypt
           [Store [107%N] [104%N] Samples.zeros; Retrieve [107%N]]).
  repeat (apply Forall_cons; split; [intros ? ? E; discriminate E|]). apply Forall_nil_2.
Defined.

End VaultProofs.

(** * auditLogger.js: properties *)

Module AuditLoggerProofs.
Import AuditLogger.

(** The result of [queryLogs] when the integrity loop fails. *)
Definition tampered : query_result :=
  {| logs := []; isValid := false; qr_error := Some (str "Log tampering detected!") |}.

(** ** [getLastLine] on a log that ends with a full line *)

Definition ends_lf (d : text) : Prop := d = [] ∨ ∃ d0, d = d0 ++ [LF].

Lemma ends_lf_suffix d d' : ends_lf d → d' `suffix_of` d → ends_lf d'.
Proof.
  intros [->|(d0 & ->)] Hs.
  - left. by apply suffix_nil_inv.
  - destruct d' as [|c d'] using rev_ind; [by left|right].
    apply suffix_snoc_inv_1 in Hs as ->. eauto.
Qed.

Lemma getLastLine_full d m :
  ends_lf d → LF ∉ m →
  ∃ x, getLastLine (Contents (d ++ ("{"%char :: m ++ ["}"%char]) ++ [LF])) = Return (Some x)
       ∧ x ≠ [] ∧ x `suffix_of` "{"%char :: m ++ ["}"%char].
Proof.
  intros Hd Hm.
  set (l := "{"%char :: m ++ ["}"%char]).
  assert (LF ∉ l) as Hl.
  { unfold l. rewrite elem_of_cons, elem_of_app, list_elem_of_singleton.
    intros [?|[?|?]]; done. }
  unfold getLastLine. cbn [read_file try_catch mbind completion_bind].
  set (data := d ++ l ++ [LF]).
  assert (2 ≤ length data) as Hlen.
  { unfold data, l. rewrite !length_app. simpl. lia. }
  destruct (Nat.eqb_spec (length data) 0) as [?|_]; [lia|].
  set (buffer := drop (length data - 1024 `min` length data) data).
  assert (buffer `suffix_of` data) as Hsuf by apply suffix_drop.
  assert (2 ≤ length buffer) as Hblen.
  { unfold buffer. rewrite length_drop. lia. }
  (* the buffer ends with the last character of the line and the line feed *)
  assert (∃ b, buffer = (b ++ ["}"%char]) ++ [LF] ∧ b ++ ["}"%char] `suffix_of` d ++ l)
    as (b & Hb & Hbs).
  { destruct buffer as [|c1 b1 _] using rev_ind; [simpl in Hblen; lia|].
    destruct b1 as [|c2 b2 _] using rev_ind;
      [rewrite length_app in Hblen; simpl in Hblen; lia|].
    unfold data in Hsuf. rewrite app_assoc in Hsuf.
    pose proof (suffix_snoc_inv_1 _ _ _ _ Hsuf) as ->.
    apply suffix_snoc_inv_2 in Hsuf.
    unfold l in Hsuf at 1. rewrite app_comm_cons, app_assoc in Hsuf.
    pose proof (suffix_snoc_inv_1 _ _ _ _ Hsuf) as ->.
    exists b2. split; [done|]. unfold l. by rewrite app_comm_cons, app_assoc. }
  rewrite Hb, trim_snoc_lf by done.
  apply suffix_app_cases in Hbs as [(d' & Hd' & Hbd)|Hbs].
  - (* the buffer holds the whole line *)
    exists l. rewrite Hbd. split; [|split; [done|done]].
    unfold l at 1. rewrite trim_start_app by done.
    destruct (trim_start_snoc d' "{"%char eq_refl) as (d'' & Hd'').
    assert (trim_start (d' ++ ["{"%char]) `suffix_of` d' ++ ["{"%char]) as Hs
      by apply trim_start_suffix.
    rewrite Hd'' in Hs |- *. apply suffix_snoc_inv_2 in Hs.
    assert (ends_lf d'') as [->|(d0 & ->)]
      by (eapply ends_lf_suffix; [exact Hd|by etrans]).
    + simpl app. fold l. by rewrite split_lf_no_lf.
    + rewrite <- !app_assoc. simpl app. fold l. by rewrite last_split_lf.
  - (* the buffer starts inside the line *)
    destruct (trim_start_snoc b "}"%char eq_refl) as (x & Hx).
    assert (trim_start (b ++ ["}"%char]) `suffix_of` l) as Hs
      by (etrans; [apply trim_start_suffix|done]).
    rewrite Hx in Hs |- *.
    exists (x ++ ["}"%char]). split; [|split; [by destruct x|done]].
    rewrite split_lf_no_lf; [done|].
    intros Hin. apply Hl. by eapply elem_of_suffix.
Qed.

(** ** The log as a chain of records *)

Lemma log_text_snoc recs r : log_text (recs ++ [r]) = log_text recs ++ serialise r ++ [LF].
Proof. unfold log_text. rewrite flat_map_app. simpl. by rewrite app_nil_r. Qed.

Lemma log_text_ends_lf recs : ends_lf (log_text recs).
Proof.
  destruct recs as [|r recs _] using rev_ind; [by left|right].
  rewrite log_text_snoc, app_assoc. eauto.
Qed.

Lemma log_text_head r recs : ∃ t, log_text (r :: recs) = "{"%char :: t.
Proof.
  unfold log_text, serialise, JSON_stringify. simpl. eauto.
Qed.

Lemma split_log_text recs t :
  split_lf (log_text recs ++ t) = map serialise recs ++ split_lf t.
Proof.
  induction recs as [|r recs IH]; [done|].
  unfold log_text in *. cbn [flat_map]. rewrite <- !app_assoc.
  change ([LF] ++ ?x) with (LF :: x).
  rewrite split_lf_app, IH, split_lf_no_lf by apply serialise_no_lf. done.
Qed.

Lemma trim_log_text recs r :
  trim (log_text (recs ++ [r])) = log_text recs ++ serialise r.
Proof.
  rewrite log_text_snoc.
  destruct (serialise_shape r) as (m & -> & _).
  replace (log_text recs ++ ("{"%char :: m ++ ["}"%char]) ++ [LF])
    with (((log_text recs ++ "{"%char :: m) ++ ["}"%char]) ++ [LF])
    by (by simplify_list_eq).
  rewrite trim_snoc_lf by done. rewrite <- app_assoc.
  destruct recs as [|r0 recs]; [done|].
  destruct (log_text_head r0 recs) as (t & ->). done.
Qed.

Lemma parse_serialise (o : strobj) : js_object o → JSON_parse (serialise o) = Return o.
Proof. apply parse_stringify. Qed.

Lemma serialise_inj (o1 o2 : strobj) : serialise o1 = serialise o2 → o1 = o2.
Proof. apply stringify_inj. Qed.

Lemma parse_lines_serialise recs :
  Forall (λ r : strobj, js_object r) recs →
  parse_lines (map serialise recs) = Return recs.
Proof.
  induction 1 as [|r recs Hr _ IH]; [done|]. cbn [map parse_lines].
  rewrite parse_serialise by done.
  cbn [mbind completion_bind]. by rewrite IH.
Qed.

Lemma filter_matches_nil (l : list strobj) : filter (λ log, matches [] log) l = l.
Proof.
  induction l as [|x l IH]; [done|]. rewrite filter_cons_True by done. by rewrite IH.
Qed.

Section Chain.
Variable sha256_hex : text → text.

Abbreviation chain_valid := (chain_valid sha256_hex).
Abbreviation appendLog := (appendLog sha256_hex).
Abbreviation queryLogs := (queryLogs sha256_hex).
Abbreviation append_all := (append_all sha256_hex).

(** The checksum the loop of [queryLogs] carries after [recs]. *)
Fixpoint chain_end (p : text) (recs : list strobj) : text :=
  match recs with
  | [] => p
  | log :: rest => chain_end (default [] (obj_get (str "checksum") log)) rest
  end.

Lemma chain_valid_app p a b :
  chain_valid p (a ++ b) = chain_valid p a && chain_valid (chain_end p a) b.
Proof.
  revert p. induction a as [|r a IH]; intros p; [done|]. simpl.
  destruct (obj_get (str "checksum") r) as [c|]; [|done]. simpl.
  destruct (_ || _); [done|]. apply IH.
Qed.

Lemma chain_end_snoc p a r :
  chain_end p (a ++ [r]) = default [] (obj_get (str "checksum") r).
Proof. revert p. induction a as [|r0 a IH]; intros p; [done|]. apply IH. Qed.

(** One record passes the check of the loop. *)
Definition link_ok (p : text) (r : strobj) : Prop :=
  obj_get (str "checksum") r
    = Some (sha256_hex (serialise (obj_remove (str "checksum") r)))
  ∧ obj_get (str "previousChecksum") (obj_remove (str "checksum") r) = Some p.

Lemma chain_valid_cons p r rest :
  chain_valid p (r :: rest) = true ↔
  link_ok p r ∧ chain_valid (default [] (obj_get (str "checksum") r)) rest = true.
Proof.
  unfold link_ok. simpl. fold (serialise (obj_remove (str "checksum") r)).
  destruct (obj_get (str "checksum") r) as [c|]; [|naive_solver]. simpl.
  repeat case_bool_decide; simpl; naive_solver.
Qed.

Lemma chain_valid_lookup p recs i r :
  chain_valid p recs = true → recs !! i = Some r →
  obj_get (str "checksum") r
    = Some (sha256_hex (serialise (obj_remove (str "checksum") r))).
Proof.
  revert p i. induction recs as [|r0 recs IH]; intros p i Hv Hi; [done|].
  apply chain_valid_cons in Hv as [[Hc _] Hv].
  destruct i as [|i]; simplify_eq/=; [done|]. by eapply IH.
Qed.

(** A log whose records are objects and pass the integrity loop. *)
Definition good_log (recs : list strobj) : Prop :=
  Forall (λ r : strobj, js_object r) recs ∧ chain_valid GENESIS_HASH recs = true.

Lemma queryLogs_good f recs :
  holds f recs → good_log recs → f ≠ Contents [] →
  queryLogs f [] = Return {| logs := recs; isValid := true; qr_error := None |}.
Proof.
  intros Hf [Hnd Hv] Hne. destruct Hf as [[-> ->]| ->]; [done|].
  destruct recs as [|r recs _] using rev_ind; [done|].
  unfold AuditLogger.queryLogs. cbn [read_file try_catch mbind completion_bind].
  rewrite trim_log_text, split_log_text, split_lf_no_lf by apply serialise_no_lf.
  change [serialise r] with (map serialise [r]).
  rewrite <- map_app, parse_lines_serialise by done.
  cbn [mbind completion_bind]. rewrite Hv. cbn [try_catch].
  by rewrite filter_matches_nil.
Qed.
End Chain.

Section Append.
Variable sha256_hex : text → text.

Abbreviation appendLog := (appendLog sha256_hex).
Abbreviation queryLogs := (queryLogs sha256_hex).
Abbreviation append_all := (append_all sha256_hex).
Abbreviation good_log := (good_log sha256_hex).
Abbreviation link_ok := (link_ok sha256_hex).

(** The record [appendLog] writes for [entry] after a record with
    checksum [previous]. *)
Definition written (timestamp : text) (entry : strobj) (previous : text) : strobj :=
  let record :=
    obj_set (str "previousChecksum") previous
      (obj_spread [(str "timestamp", timestamp)] entry) in
  obj_set (str "checksum") (sha256_hex (serialise record)) record.

Lemma written_object ts e p : js_object (written ts e p).
Proof.
  unfold written. apply obj_set_object, obj_set_object, obj_spread_object.
  split; simpl; [apply NoDup_singleton|by split].
Qed.

Lemma written_good ts e p :
  str "checksum" ∉ e.*1 → link_ok p (written ts e p).
Proof.
  intros He. unfold written.
  set (record := obj_set (str "previousChecksum") p
                   (obj_spread [(str "timestamp", ts)] e)).
  assert (str "checksum" ∉ record.*1) as Hfresh.
  { unfold record. rewrite obj_set_keys, obj_spread_keys. simpl.
    rewrite list_elem_of_singleton. intros [E|[E|?]]; [by vm_compute in E|by vm_compute in E|done]. }
  split.
  - by rewrite obj_get_set_eq, obj_remove_set_fresh.
  - rewrite obj_remove_set_fresh by done. apply obj_get_set_eq.
Qed.

Lemma good_log_snoc recs r :
  good_log recs → js_object r → link_ok (chain_end GENESIS_HASH recs) r →
  good_log (recs ++ [r]).
Proof.
  intros [Hnd Hv] Hr Hl. split.
  - apply Forall_app. split; [done|]. by apply Forall_singleton.
  - rewrite chain_valid_app, Hv. cbn [andb]. by apply chain_valid_cons.
Qed.

Lemma good_log_last_checksum recs r :
  good_log (recs ++ [r]) →
  obj_get (str "checksum") r = Some (chain_end GENESIS_HASH (recs ++ [r])).
Proof.
  intros [_ Hv]. rewrite chain_end_snoc.
  rewrite (chain_valid_lookup _ _ _ (length recs) r Hv); [done|].
  by rewrite lookup_app_r, Nat.sub_diag by lia.
Qed.

(** What [appendLog] reads as the previous checksum. *)
Definition read_previous (f : file) : completion (option text) :=
  lastLine ← getLastLine f;
  match lastLine with
  | None | Some [] => Return (Some GENESIS_HASH)
  | Some line => o ← JSON_parse line; Return (obj_get (str "checksum") o)
  end.

Lemma read_previous_spec f recs :
  holds f recs → good_log recs →
  read_previous f = Return (Some (chain_end GENESIS_HASH recs))
  ∨ read_previous f = Throw SyntaxError.
Proof.
  intros Hf Hg. unfold read_previous.
  destruct recs as [|r recs _] using rev_ind.
  { destruct Hf as [[-> _]| ->]; by left. }
  destruct Hf as [[_ ?]| ->]; [by destruct recs|].
  rewrite log_text_snoc.
  destruct (serialise_shape r) as (m & Hm & Hlf). rewrite Hm.
  destruct (getLastLine_full (log_text recs) m (log_text_ends_lf recs) Hlf)
    as (x & -> & Hx & Hsuf).
  cbn [mbind completion_bind]. destruct x as [|c x]; [done|].
  rewrite <- Hm in Hsuf.
  destruct (decide (c :: x = serialise r)) as [->|Hne].
  - left.
    assert (js_object r) as Hr.
    { destruct Hg as [Hnd _]. apply Forall_app in Hnd as [_ Hnd].
      by apply Forall_inv in Hnd. }
    rewrite parse_serialise by done.
    cbn [mbind completion_bind]. by rewrite (good_log_last_checksum recs r).
  - right. by rewrite (parse_proper_suffix r (c :: x)).
Qed.

Lemma appendLog_unfold f e ts :
  appendLog f (Some e) ts =
  if falsy (obj_get (str "userId") e) || falsy (obj_get (str "action") e)
     || falsy (obj_get (str "target") e) || falsy (obj_get (str "outcome") e)
  then Return ({| ap_success := false;
                  ap_error := Some (str "Log entry is missing required fields.") |}, f)
  else
    try_catch
      (previousChecksum ← read_previous f;
       let logRecord := log_record ts e previousChecksum in
       let logRecord' :=
         obj_set (str "checksum") (JStr (sha256_hex (JSON_stringify logRecord)))
           logRecord in
       f' ← append_file f (JSON_stringify logRecord' ++ [LF]);
       Return ({| ap_success := true; ap_error := None |}, f'))
      (λ error,
         Return ({| ap_success := false;
                    ap_error := Some (str "Could not write to the audit log.") |}, f)).
Proof.
  unfold AuditLogger.appendLog, read_previous.
  destruct (_ || _); [done|]. f_equal.
  by destruct (getLastLine f) as [[[|c x]|]|err].
Qed.

Lemma log_record_written ts e p :
  obj_set (str "checksum")
    (JStr (sha256_hex (JSON_stringify (log_record ts e (Some p)))))
    (log_record ts e (Some p))
  = js (written ts e p).
Proof.
  unfold log_record, written. cbn [js_value].
  change [(str "timestamp", JStr ts)] with (js [(str "timestamp", ts)]).
  by rewrite js_obj_spread, !js_obj_set.
Qed.

(** One call of [appendLog] on a good log: it fails and leaves the file,
    or it appends a record that keeps the log good. *)
Lemma appendLog_step f recs e ts res f' :
  holds f recs → good_log recs → str "checksum" ∉ e.*1 →
  appendLog f (Some e) ts = Return (res, f') →
  (ap_success res = false ∧ f' = f)
  ∨ (ap_success res = true ∧
     ∃ r, f' = Contents (log_text (recs ++ [r])) ∧ good_log (recs ++ [r])).
Proof.
  intros Hf Hg He. rewrite appendLog_unfold.
  destruct (_ || _); [intros; simplify_eq; by left|].
  destruct (read_previous_spec f recs Hf Hg) as [-> | ->];
    [|intros; simplify_eq/=; by left].
  cbn [mbind completion_bind]. cbv zeta.
  rewrite log_record_written.
  change (JSON_stringify (js ?o)) with (serialise o).
  pose proof (written_object ts e (chain_end GENESIS_HASH recs)) as Hnd.
  pose proof (written_good ts e (chain_end GENESIS_HASH recs) He) as Hl.
  assert (append_file f (serialise (written ts e (chain_end GENESIS_HASH recs)) ++ [LF])
          = Return (Contents (log_text (recs ++ [written ts e (chain_end GENESIS_HASH recs)]))))
    as ->.
  { rewrite log_text_snoc. by destruct Hf as [[-> ->]| ->]. }
  intros; simplify_eq/=. right. split; [done|].
  eexists. split; [done|]. by apply good_log_snoc.
Qed.
End Append.

Section Integrity.
Variable sha256_hex : text → text.

Abbreviation chain_valid := (chain_valid sha256_hex).
Abbreviation appendLog := (appendLog sha256_hex).
Abbreviation queryLogs := (queryLogs sha256_hex).
Abbreviation append_all := (append_all sha256_hex).
Abbreviation good_log := (good_log sha256_hex).

Lemma good_log_nil : good_log [].
Proof. by split. Qed.

Lemma append_all_good calls : ∀ f recs results f',
  holds f recs → good_log recs → Forall no_own_checksum calls →
  append_all f calls = Return (results, f') →
  Forall (λ r, ap_success r = true) results →
  ∃ recs', length recs' = length calls ∧ good_log (recs ++ recs') ∧
           holds f' (recs ++ recs') ∧ (calls = [] → f' = f).
Proof.
  induction calls as [|[entry ts] calls IH]; intros f recs results f' Hf Hg Hc Ha Hs.
  { simplify_eq/=. exists []. by rewrite app_nil_r. }
  apply Forall_cons in Hc as [He Hc]. cbn [AuditLogger.append_all] in Ha.
  destruct entry as [e|]; [|simplify_eq/=].
  2:{ destruct (append_all f calls) as [[??]|?]; simplify_eq/=.
      by apply Forall_inv in Hs. }
  destruct (appendLog f (Some e) ts) as [[res f1]|err] eqn:Happ; [|done].
  cbn [mbind completion_bind snd fst] in Ha.
  destruct (append_all f1 calls) as [[rs f2]|err] eqn:Hrest; [|done].
  simplify_eq/=. apply Forall_cons in Hs as [Hres Hs].
  destruct (appendLog_step _ f recs e ts res f1 Hf Hg (He e eq_refl) Happ)
    as [[Hfail _]|[_ (r & -> & Hg1)]]; [congruence|].
  destruct (IH _ (recs ++ [r]) rs f' (or_intror eq_refl) Hg1 Hc Hrest Hs)
    as (recs' & Hlen & Hg2 & Hh & _).
  exists (r :: recs'). rewrite <- app_assoc in Hg2, Hh. simpl.
  split; [by rewrite Hlen|]. done.
Qed.

(** [queryLogs] on a file of serialised records is decided by the
    integrity loop. *)
Lemma queryLogs_records recs filters :
  recs ≠ [] → Forall (λ r : strobj, js_object r) recs →
  queryLogs (Contents (log_text recs)) filters =
  if chain_valid GENESIS_HASH recs
  then Return {| logs := filter (λ log, matches filters log) recs; isValid := true;
                 qr_error := None |}
  else Return {| logs := []; isValid := false;
                 qr_error := Some (str "Log tampering detected!") |}.
Proof.
  intros Hne Hnd. destruct recs as [|r recs _] using rev_ind; [done|].
  unfold AuditLogger.queryLogs. cbn [read_file try_catch mbind completion_bind].
  rewrite trim_log_text, split_log_text, split_lf_no_lf by apply serialise_no_lf.
  change [serialise r] with (map serialise [r]).
  rewrite <- map_app, parse_lines_serialise by done.
  cbn [mbind completion_bind]. by destruct (chain_valid _ _).
Qed.

Lemma chain_valid_broken p a r b :
  obj_get (str "checksum") r
    ≠ Some (sha256_hex (serialise (obj_remove (str "checksum") r))) →
  chain_valid p (a ++ r :: b) = false.
Proof.
  intros Hbad. rewrite chain_valid_app. apply andb_false_iff. right.
  apply not_true_is_false. intros [[? _] _]%chain_valid_cons. done.
Qed.

(** Changing the value of a property other than the checksum changes
    the text the checksum of the record is taken over; unless the digest
    is the same on the two texts, the record fails its own check. *)
Lemma tamper_detected recs i r k v v' filters :
  good_log recs →
  recs !! i = Some r → k ≠ str "checksum" → obj_get k r = Some v → v' ≠ v →
  serialise (obj_remove (str "checksum") (obj_set k v' r))
    ≠ serialise (obj_remove (str "checksum") r)
  ∧ (sha256_hex (serialise (obj_remove (str "checksum") (obj_set k v' r)))
       ≠ sha256_hex (serialise (obj_remove (str "checksum") r)) →
     queryLogs (Contents (log_text (<[i := obj_set k v' r]> recs))) filters
     = Return tampered).
Proof.
  intros [Hnd Hv] Hi Hk Hget Hne.
  assert (js_object r) as Hr by (by eapply Forall_lookup_1 in Hnd).
  split.
  - intros E. apply serialise_inj in E.
    rewrite obj_remove_set_ne in E by (done || congruence).
    apply (f_equal (obj_get k)) in E.
    rewrite obj_get_set_eq, obj_get_remove_ne in E by done. congruence.
  - intros Hdigest. rewrite queryLogs_records.
    + rewrite insert_take_drop by (by eapply lookup_lt_Some).
      rewrite chain_valid_broken; [done|].
      rewrite obj_get_set_ne by done.
      rewrite (chain_valid_lookup _ _ _ _ _ Hv Hi). congruence.
    + intros E. apply (f_equal length) in E. rewrite length_insert in E.
      apply lookup_lt_Some in Hi. simpl in E. lia.
    + apply Forall_insert; [done|]. by apply obj_set_object.
Qed.

(** On a log file of zero bytes, once entries without [checksum] of
    their own are appended, [queryLogs({})] returns as many records as
    there were calls, with isValid = true. *)
Lemma chain_integrity_from_zero_bytes calls results f :
  calls ≠ [] → Forall no_own_checksum calls →
  append_all (Contents []) calls = Return (results, f) →
  Forall (λ r, ap_success r = true) results →
  ∃ recs, length recs = length calls
    ∧ queryLogs f [] = Return {| logs := recs; isValid := true; qr_error := None |}.
Proof.
  intros Hne Hc Ha Hs.
  destruct (append_all_good calls (Contents []) [] results f (or_intror eq_refl)
              good_log_nil Hc Ha Hs) as (recs & Hlen & Hg & Hh & _).
  simpl in Hg, Hh. exists recs. split; [done|].
  apply queryLogs_good; [done|done|].
  destruct recs as [|r recs]; [by destruct calls|].
  destruct Hh as [[_ ?]| ->]; [done|].
  by destruct (log_text_head r recs) as (t & ->).
Qed.

(** C5: with no log file [queryLogs] returns no entries and
    isValid = true; with a log file of zero bytes it returns no entries
    and isValid = false, the one line of the empty text not being
    JSON. *)
Theorem empty_log_file filters :
  queryLogs Absent filters
  = Return {| logs := []; isValid := true; qr_error := None |}
  ∧ queryLogs (Contents []) filters
    = Return {| logs := []; isValid := false;
                qr_error := Some (str "Could not read or parse the audit log.") |}
  ∧ split_lf (trim []) = [[]]
  ∧ JSON_parse [] = Throw SyntaxError.
Proof. repeat split; reflexivity. Qed.

(** [getLastLine], the sibling read path, takes a file of zero bytes for
    an empty log. *)
Lemma getLastLine_zero_bytes : getLastLine (Contents []) = Return None.
Proof. reflexivity. Qed.
End Integrity.

(** The log after the two sample entries. *)
Definition sample_log : file :=
  Eval vm_compute in
    match append_all Samples.digest Absent Samples.entries with
    | Return r => r.2
    | Throw _ => Absent
    end.

Lemma sample_entries_shape : Forall no_own_checksum Samples.entries.
Proof.
  repeat constructor; intros e [= <-];
    refine (bool_decide_unpack _ _); vm_compute; exact I.
Qed.

(** The records of the sample log, and the log with the user of the first
    record changed: the query reports tampering. *)
Definition sample_records : list strobj :=
  Eval vm_compute in
    match queryLogs Samples.digest sample_log [] with
    | Return r => logs r
    | Throw _ => []
    end.

Example tamper_sample r :
  sample_records !! 0%nat = Some r →
  queryLogs Samples.digest
    (Contents (log_text (<[0%nat := obj_set (str "userId") (str "mallory") r]> sample_records)))
    []
  = Return {| logs := []; isValid := false;
              qr_error := Some (str "Log tampering detected!") |}.
Proof. intros [= <-]. vm_compute. reflexivity. Qed.

(** ** The window of [getLastLine] *)

(** The line [getLastLine] returns is shorter than its buffer. *)
Lemma getLastLine_length data x :
  getLastLine (Contents (data ++ [LF])) = Return (Some x) → length x < 1024.
Proof.
  unfold getLastLine. cbn [read_file try_catch mbind completion_bind].
  destruct (length (data ++ [LF]) =? 0) eqn:E.
  { apply Nat.eqb_eq in E. rewrite length_app in E. simpl in E. lia. }
  set (buffer := drop _ _).
  assert (buffer `suffix_of` data ++ [LF]) as Hsuf by apply suffix_drop.
  assert (0 < length buffer ≤ 1024) as Hlen.
  { unfold buffer. rewrite length_drop, length_app. change (length [LF]) with 1. lia. }
  destruct buffer as [|c b _] using rev_ind; [simpl in Hlen; lia|].
  pose proof (suffix_snoc_inv_1 _ _ _ _ Hsuf) as ->.
  rewrite length_app in Hlen. simpl in Hlen.
  intros [= <-].
  pose proof (trim_lf_length b) as Ht.
  pose proof (split_lf_length (trim (b ++ [LF]))) as Hall.
  destruct (last (split_lf (trim (b ++ [LF])))) as [l|] eqn:El; simpl; [|lia].
  apply last_Some in El as (ls & El). rewrite El in Hall.
  apply Forall_app in Hall as [_ Hl]. apply Forall_inv in Hl. lia.
Qed.

(** A buffer that holds the whole last line gives it. *)
Lemma getLastLine_whole d m :
  ends_lf d → LF ∉ m → length m + 2 < 1024 →
  getLastLine (Contents (d ++ ("{"%char :: m ++ ["}"%char]) ++ [LF]))
  = Return (Some ("{"%char :: m ++ ["}"%char])).
Proof.
  intros Hd Hm Hshort.
  set (l := "{"%char :: m ++ ["}"%char]).
  assert (LF ∉ l) as Hl.
  { unfold l. rewrite elem_of_cons, elem_of_app, list_elem_of_singleton.
    intros [?|[?|?]]; done. }
  assert (length l = length m + 2) as Hlen.
  { unfold l. simpl. rewrite length_app. simpl. lia. }
  unfold getLastLine. cbn [read_file try_catch mbind completion_bind].
  set (data := d ++ l ++ [LF]).
  assert (length data = length d + length l + 1) as Hdata.
  { unfold data. rewrite !length_app. simpl. lia. }
  destruct (Nat.eqb_spec (length data) 0) as [?|_]; [lia|].
  assert (∃ d', d' `suffix_of` d
                ∧ drop (length data - 1024 `min` length data) data = d' ++ l ++ [LF])
    as (d' & Hd' & ->).
  { exists (drop (length data - 1024 `min` length data) d). split; [apply suffix_drop|].
    rewrite Hdata. unfold data. rewrite drop_app_le by lia. done. }
  unfold l at 1. rewrite app_comm_cons, !app_assoc.
  rewrite trim_snoc_lf by done. rewrite <- app_assoc. simpl app.
  rewrite trim_start_app by done.
  destruct (trim_start_snoc d' "{"%char eq_refl) as (d'' & Hd'').
  assert (trim_start (d' ++ ["{"%char]) `suffix_of` d' ++ ["{"%char]) as Hs
    by apply trim_start_suffix.
  rewrite Hd'' in Hs |- *. apply suffix_snoc_inv_2 in Hs.
  assert (ends_lf d'') as [->|(d0 & ->)]
    by (eapply ends_lf_suffix; [exact Hd|by etrans]).
  - simpl app. fold l. by rewrite split_lf_no_lf.
  - rewrite <- !app_assoc. simpl app. fold l. by rewrite last_split_lf.
Qed.

(** X26: [getLastLine] returns [null] when there is no file and when the
    file is empty, and throws again any other error of the file system.
    On a log of records it returns the text of the last record when that
    has fewer than 1024 bytes; when it has more, what it returns is cut
    from the last 1024 bytes of the file: it is not the last line, and
    it is not JSON. *)
Theorem getLastLine_contract :
  getLastLine Absent = Return None
  ∧ getLastLine (Contents []) = Return None
  ∧ getLastLine Inaccessible = Throw (SystemError "EACCES")
  ∧ ∀ recs r, ∃ x,
      getLastLine (Contents (log_text (recs ++ [r]))) = Return (Some x)
      ∧ (length (serialise r) < 1024 → x = serialise r)
      ∧ (1024 ≤ length (serialise r) →
         x ≠ serialise r ∧ JSON_parse x = Throw SyntaxError).
Proof.
  split; [done|]. split; [done|]. split; [done|].
  intros recs r. rewrite log_text_snoc.
  destruct (serialise_shape r) as (m & Hm & Hlf). rewrite Hm.
  destruct (getLastLine_full (log_text recs) m (log_text_ends_lf recs) Hlf)
    as (x & Hx & Hne & Hsuf).
  exists x. split; [done|]. split.
  - intros Hshort. rewrite getLastLine_whole in Hx; [by simplify_eq|apply log_text_ends_lf|done|].
    simpl in Hshort. rewrite length_app in Hshort. simpl in Hshort. lia.
  - intros Hlong. rewrite app_assoc in Hx. apply getLastLine_length in Hx.
    assert (x ≠ "{"%char :: m ++ ["}"%char]) as Hx' by (intros ->; lia).
    split; [done|]. rewrite <- Hm in Hsuf, Hx'. by apply (parse_proper_suffix r).
Qed.

(** The bytes of the log file; none when there is no file. *)
Definition bytes (f : file) : text :=
  match f with
  | Contents data => data
  | _ => []
  end.

(** The entry has the four required properties, none of them empty. *)
Definition complete (e : strobj) : Prop :=
  Forall (λ k, falsy (obj_get k e) = false)
    [str "userId"; str "action"; str "target"; str "outcome"].

Lemma complete_spec e :
  complete e →
  falsy (obj_get (str "userId") e) || falsy (obj_get (str "action") e)
  || falsy (obj_get (str "target") e) || falsy (obj_get (str "outcome") e) = false.
Proof.
  intros (-> & (-> & (-> & (-> & _)%Forall_cons)%Forall_cons)%Forall_cons)%Forall_cons.
  done.
Qed.

(** The checksum the next record has to name: that of the last record,
    or the genesis hash when there is none. *)
Definition last_checksum (recs : list strobj) : text :=
  match last recs with
  | Some r => default [] (obj_get (str "checksum") r)
  | None => GENESIS_HASH
  end.

Lemma chain_end_last recs : chain_end GENESIS_HASH recs = last_checksum recs.
Proof.
  unfold last_checksum. destruct recs as [|r recs _] using rev_ind; [done|].
  by rewrite chain_end_snoc, last_snoc.
Qed.

Section Appending.
Variable sha256_hex : text → text.

Abbreviation appendLog := (appendLog sha256_hex).
Abbreviation append_all := (append_all sha256_hex).
Abbreviation good_log := (good_log sha256_hex).

(** X12: [appendLog] returns for every file, entry and time, and the log
    file is append-only under it: after a failure the file is what it
    was, and after a success it holds the bytes it held followed by one
    line, a text without line feed and the line feed that ends it. *)
Theorem appendLog_only_appends f entry timestamp :
  ∃ res f',
    appendLog f entry timestamp = Return (res, f')
    ∧ (ap_success res = false → f' = f)
    ∧ (ap_success res = true →
       ∃ line, (LF ∉ line) ∧ f' = Contents (bytes f ++ line ++ [LF])).
Proof.
  unfold AuditLogger.appendLog. destruct (match entry with Some _ => _ | None => _ end).
  { eexists _, _. split; [done|]. by split. }
  destruct (getLastLine f) as [lastLine|]; [|eexists _, _; split; [done|by split]].
  cbn [mbind completion_bind].
  destruct (match lastLine with Some _ => _ | None => _ end) as [p|];
    [|eexists _, _; split; [done|by split]].
  cbn [mbind completion_bind]. cbv zeta.
  destruct f as [|data|]; cbn [append_file mbind completion_bind try_catch];
    eexists _, _; (split; [done|]); (split; [done|]); [| |done]; intros _.
  - eexists. split; [apply stringify_no_lf|done].
  - eexists. split; [apply stringify_no_lf|done].
Qed.

Lemma read_previous_short f recs :
  holds f recs → good_log recs →
  (∀ r, last recs = Some r → length (serialise r) < 1024) →
  read_previous f = Return (Some (last_checksum recs)).
Proof.
  intros Hf Hg Hshort. rewrite <- chain_end_last. unfold read_previous.
  destruct recs as [|r recs _] using rev_ind.
  { by destruct Hf as [[-> _]| ->]. }
  destruct Hf as [[_ ?]| ->]; [by destruct recs|].
  rewrite log_text_snoc.
  specialize (Hshort r (last_snoc _ _)).
  destruct (serialise_shape r) as (m & Hm & Hlf). rewrite Hm in Hshort |- *.
  rewrite getLastLine_whole; [|apply log_text_ends_lf|done|].
  2:{ simpl in Hshort. rewrite length_app in Hshort. simpl in Hshort. lia. }
  cbn [mbind completion_bind]. rewrite <- Hm.
  assert (js_object r) as Hr.
  { destruct Hg as [Hnd _]. apply Forall_app in Hnd as [_ Hnd]. by apply Forall_inv in Hnd. }
  destruct (serialise r) as [|c x] eqn:E; [by rewrite Hm in E|]. rewrite <- E.
  rewrite parse_serialise by done.
  cbn [mbind completion_bind]. by rewrite (good_log_last_checksum sha256_hex recs r).
Qed.

(** X13: on a log that passes the integrity check (or no log yet) whose
    last line is shorter than 1024 bytes, [appendLog] of an entry with
    the four required properties succeeds and appends one record. The
    record names the checksum of the last record (the genesis hash on
    an empty log) as [previousChecksum], whatever the entry says; its
    [timestamp] is the clock's unless the entry brings one; its
    [checksum] is the digest of the text of [{ timestamp, ...entry,
    previousChecksum }], its properties in the order of JavaScript;
    every other property is the entry's. When the entry has no
    [checksum] of its own the longer log passes the integrity check
    again. *)
Theorem appendLog_succeeds f recs e timestamp :
  holds f recs → good_log recs → NoDup e.*1 → complete e →
  (∀ r, last recs = Some r → length (serialise r) < 1024) →
  ∃ r,
    appendLog f (Some e) timestamp
    = Return ({| ap_success := true; ap_error := None |}, Contents (log_text (recs ++ [r])))
    ∧ obj_get (str "previousChecksum") r = Some (last_checksum recs)
    ∧ obj_get (str "timestamp") r = Some (default timestamp (obj_get (str "timestamp") e))
    ∧ obj_get (str "checksum") r
      = Some (sha256_hex (serialise
                (obj_set (str "previousChecksum") (last_checksum recs)
                   (obj_spread [(str "timestamp", timestamp)] e))))
    ∧ (∀ k, k ∉ [str "timestamp"; str "previousChecksum"; str "checksum"] →
            obj_get k r = obj_get k e)
    ∧ (str "checksum" ∉ e.*1 → good_log (recs ++ [r])).
Proof.
  intros Hf Hg He Hc Hshort.
  exists (written sha256_hex timestamp e (last_checksum recs)).
  split; [|split; [|split; [|split; [|split]]]].
  - rewrite appendLog_unfold, complete_spec by done.
    rewrite (read_previous_short f recs) by done.
    cbn [mbind completion_bind]. cbv zeta.
    rewrite log_record_written.
    change (JSON_stringify (js ?o)) with (serialise o).
    rewrite log_text_snoc. by destruct Hf as [[-> ->]| ->].
  - unfold written. rewrite obj_get_set_ne by (by intros E; vm_compute in E).
    apply obj_get_set_eq.
  - unfold written. rewrite !obj_get_set_ne by (by intros E; vm_compute in E).
    rewrite obj_get_spread by done. simpl.
    by destruct (obj_get (str "timestamp") e).
  - unfold written. apply obj_get_set_eq.
  - intros k Hk. rewrite !not_elem_of_cons in Hk. destruct Hk as (H1 & H2 & H3 & _).
    unfold written. rewrite !obj_get_set_ne by done.
    rewrite obj_get_spread by done. simpl. rewrite decide_False by done.
    by destruct (obj_get k e).
  - intros Hcs. rewrite <- chain_end_last.
    apply good_log_snoc; [done|apply written_object|by apply written_good].
Qed.

(** A last line of 1024 bytes or more: the call fails. *)
Lemma appendLog_blocked recs r entry timestamp :
  1024 ≤ length (serialise r) →
  let f := Contents (log_text (recs ++ [r])) in
  ∃ res, appendLog f entry timestamp = Return (res, f) ∧ ap_success res = false.
Proof.
  intros Hlong f. unfold AuditLogger.appendLog.
  destruct (match entry with Some _ => _ | None => _ end); [by eexists|].
  unfold f. rewrite log_text_snoc.
  destruct (serialise_shape r) as (m & Hm & Hlf). rewrite Hm.
  destruct (getLastLine_full (log_text recs) m (log_text_ends_lf recs) Hlf)
    as (x & Hx & Hne & Hsuf).
  pose proof Hx as Hlen. rewrite app_assoc in Hlen. apply getLastLine_length in Hlen.
  rewrite Hx. cbn [mbind completion_bind]. destruct x as [|c x]; [done|].
  rewrite <- Hm in Hsuf.
  rewrite (parse_proper_suffix r (c :: x)); [by eexists|done|].
  intros E. fold (serialise r) in E. rewrite E in Hlen. lia.
Qed.

(** X14: when the last line of the log file, the text of a record, has
    1024 bytes or more, every [appendLog] call fails and leaves the file
    as it is, whatever the entries: [getLastLine] reads the last 1024
    bytes only, and what it takes for the last line is not JSON. *)
Theorem long_record_blocks_appends recs r calls :
  1024 ≤ length (serialise r) →
  let f := Contents (log_text (recs ++ [r])) in
  ∃ results, append_all f calls = Return (results, f)
    ∧ length results = length calls
    ∧ Forall (λ res, ap_success res = false) results.
Proof.
  intros Hlong f. induction calls as [|[entry ts] calls (results & IH & Hlen & Hall)].
  { by exists []. }
  destruct (appendLog_blocked recs r entry ts Hlong) as (res & Hres & Hfail).
  fold f in Hres. exists (res :: results).
  cbn [AuditLogger.append_all]. rewrite Hres. cbn [mbind completion_bind snd fst].
  rewrite IH. cbn [mbind completion_bind snd fst]. split; [done|].
  split; [simpl; by rewrite Hlen|]. by constructor.
Qed.
End Appending.

Section Tampering.
Variable sha256_hex : text → text.

Abbreviation chain_valid := (chain_valid sha256_hex).
Abbreviation appendLog := (appendLog sha256_hex).
Abbreviation queryLogs := (queryLogs sha256_hex).
Abbreviation append_all := (append_all sha256_hex).
Abbreviation good_log := (good_log sha256_hex).

Lemma good_log_take recs k : good_log recs → good_log (take k recs).
Proof.
  intros [Hnd Hv]. split; [by apply Forall_take|].
  rewrite <- (take_drop k recs), chain_valid_app in Hv.
  by apply andb_prop in Hv as [? _].
Qed.

(** X15: after N successful [appendLog] calls on a new log, with entries
    that have no [checksum] of their own, the file cut after any of its
    lines but the last still passes: [queryLogs] on the first k records,
    0 < k <= N, returns isValid = true and those of the k records that
    match the filters. Records taken away at the end of the log are not
    missed. *)
Theorem truncation_undetected calls results f :
  Forall no_own_checksum calls →
  append_all Absent calls = Return (results, f) →
  Forall (λ r, ap_success r = true) results →
  ∃ recs,
    length recs = length calls ∧ holds f recs
    ∧ ∀ k filters, 0 < k ≤ length recs →
        queryLogs (Contents (log_text (take k recs))) filters
        = Return {| logs := filter (λ log, matches filters log) (take k recs);
                    isValid := true; qr_error := None |}.
Proof.
  intros Hc Ha Hs.
  destruct (append_all_good sha256_hex calls Absent [] results f
              (or_introl (conj eq_refl eq_refl)) (good_log_nil sha256_hex) Hc Ha Hs)
    as (recs & Hlen & Hg & Hh & _).
  simpl in Hg, Hh. exists recs. split; [done|]. split; [done|].
  intros k filters Hk. destruct (good_log_take recs k Hg) as [Hnd Hv].
  rewrite queryLogs_records, Hv; [done| |done].
  intros E. apply (f_equal length) in E. rewrite length_take in E. simpl in E. lia.
Qed.

(** X18: after N successful [appendLog] calls on a new log, with entries
    that have no [checksum] of their own, [queryLogs] with filters
    returns isValid = true and, in the order of the file, exactly the
    records of the unfiltered query in which every filter property has
    the filter's value. *)
Theorem queryLogs_filters calls results f filters :
  Forall no_own_checksum calls →
  append_all Absent calls = Return (results, f) →
  Forall (λ r, ap_success r = true) results →
  ∃ recs,
    queryLogs f [] = Return {| logs := recs; isValid := true; qr_error := None |}
    ∧ queryLogs f filters
      = Return {| logs := filter (λ log, matches filters log) recs;
                  isValid := true; qr_error := None |}
    ∧ ∀ log, log ∈ filter (λ log, matches filters log) recs ↔
             log ∈ recs ∧ ∀ k v, (k, v) ∈ filters → obj_get k log = Some v.
Proof.
  intros Hc Ha Hs.
  destruct (append_all_good sha256_hex calls Absent [] results f
              (or_introl (conj eq_refl eq_refl)) (good_log_nil sha256_hex) Hc Ha Hs)
    as (recs & Hlen & Hg & Hh & Hnil).
  simpl in Hg, Hh. exists recs.
  assert (∀ fs, queryLogs f fs
                = Return {| logs := filter (λ log, matches fs log) recs;
                            isValid := true; qr_error := None |}) as Hq.
  { intros fs. destruct Hh as [[-> ->]| ->]; [done|].
    destruct recs as [|r recs]; [destruct calls; [by rewrite Hnil|done]|].
    destruct Hg as [Hnd Hv]. by rewrite queryLogs_records, Hv. }
  split; [by rewrite Hq, filter_matches_nil|]. split; [apply Hq|].
  intros log. rewrite list_elem_of_filter. unfold matches.
  rewrite Is_true_true, forallb_forall. split.
  - intros [Hall ?]. split; [done|]. intros k v Hin.
    apply list_elem_of_In, Hall in Hin. by apply bool_decide_eq_true in Hin.
  - intros [? Hall]. split; [|done]. intros [k v] Hin.
    apply bool_decide_eq_true. apply Hall. by apply list_elem_of_In.
Qed.




(** X20: after N successful [appendLog] calls on a new log, with entries
    that have no [checksum] of their own, replacing the [checksum] of
    any record by another value makes [queryLogs] return isValid = false
    and no entries, for any digest: the record's own check fails. *)
Theorem checksum_change_detected calls results f :
  Forall no_own_checksum calls →
  append_all Absent calls = Return (results, f) →
  Forall (λ r, ap_success r = true) results →
  ∃ recs,
    length recs = length calls ∧ holds f recs
    ∧ ∀ i r c c' filters,
        recs !! i = Some r → obj_get (str "checksum") r = Some c → c' ≠ c →
        queryLogs (Contents (log_text (<[i := obj_set (str "checksum") c' r]> recs))) filters
        = Return tampered.
Proof.
  intros Hc Ha Hs.
  destruct (append_all_good sha256_hex calls Absent [] results f
              (or_introl (conj eq_refl eq_refl)) (good_log_nil sha256_hex) Hc Ha Hs)
    as (recs & Hlen & [Hnd Hv] & Hh & _).
  simpl in Hnd, Hv, Hh. exists recs. split; [done|]. split; [done|].
  intros i r c c' filters Hi Hget Hne.
  rewrite queryLogs_records.
  - rewrite insert_take_drop by (by eapply lookup_lt_Some).
    rewrite chain_valid_broken; [done|].
    rewrite obj_get_set_eq, obj_remove_set_eq.
    rewrite <- (chain_valid_lookup sha256_hex _ _ _ _ Hv Hi), Hget. congruence.
  - intros E. apply (f_equal length) in E. rewrite length_insert in E.
    apply lookup_lt_Some in Hi. simpl in E. lia.
  - apply Forall_insert; [done|]. apply obj_set_object.
    exact (Forall_lookup_1 _ _ _ _ Hnd Hi).
Qed.

(** X27: after N successful [appendLog] calls on a new log, with entries
    that have no [checksum] of their own, replacing the value of a
    property other than [checksum] in any record by another value, the
    checksum left as it is, changes the text the checksum is taken over,
    and [queryLogs] then returns isValid = false and no entries unless
    the digest is the same on the two texts. *)
Theorem mutation_detected calls results f :
  Forall no_own_checksum calls →
  append_all Absent calls = Return (results, f) →
  Forall (λ r, ap_success r = true) results →
  ∃ recs,
    length recs = length calls ∧ holds f recs
    ∧ ∀ i r k v v' filters,
        recs !! i = Some r → k ≠ str "checksum" → obj_get k r = Some v → v' ≠ v →
        serialise (obj_remove (str "checksum") (obj_set k v' r))
          ≠ serialise (obj_remove (str "checksum") r)
        ∧ (sha256_hex (serialise (obj_remove (str "checksum") (obj_set k v' r)))
             ≠ sha256_hex (serialise (obj_remove (str "checksum") r)) →
           queryLogs (Contents (log_text (<[i := obj_set k v' r]> recs))) filters
           = Return tampered).
Proof.
  intros Hc Ha Hs.
  destruct (append_all_good sha256_hex calls Absent [] results f
              (or_introl (conj eq_refl eq_refl)) (good_log_nil sha256_hex) Hc Ha Hs)
    as (recs & Hlen & Hg & Hh & _).
  simpl in Hg, Hh. exists recs. split; [done|]. split; [done|].
  intros i r k v v' filters. by apply tamper_detected.
Qed.




End Tampering.

(** The record of an entry holds the entry. *)
Definition records (timestamp : text) (e r : strobj) : Prop :=
  obj_get (str "timestamp") r = Some (default timestamp (obj_get (str "timestamp") e))
  ∧ ∀ k, k ∉ [str "timestamp"; str "previousChecksum"; str "checksum"] →
         obj_get k r = obj_get k e.

Section Reading.
Variable sha256_hex : text → text.

Abbreviation appendLog := (appendLog sha256_hex).
Abbreviation queryLogs := (queryLogs sha256_hex).
Abbreviation append_all := (append_all sha256_hex).
Abbreviation good_log := (good_log sha256_hex).

Lemma written_records ts e p :
  NoDup e.*1 → records ts e (written sha256_hex ts e p).
Proof.
  intros He. split.
  - unfold written. rewrite !obj_get_set_ne by (by intros E; vm_compute in E).
    rewrite obj_get_spread by done. simpl.
    by destruct (obj_get (str "timestamp") e).
  - intros k Hk. rewrite !not_elem_of_cons in Hk. destruct Hk as (H1 & H2 & H3 & _).
    unfold written. rewrite !obj_get_set_ne by done.
    rewrite obj_get_spread by done. simpl. rewrite decide_False by done.
    by destruct (obj_get k e).
Qed.

(** The record a successful call appends. *)
Lemma appendLog_step_written f recs e ts res f' :
  holds f recs → good_log recs →
  appendLog f (Some e) ts = Return (res, f') → ap_success res = true →
  f' = Contents (log_text (recs ++ [written sha256_hex ts e (chain_end GENESIS_HASH recs)])).
Proof.
  intros Hf Hg. rewrite appendLog_unfold.
  destruct (_ || _); [by intros [= <- <-]|].
  destruct (read_previous_spec sha256_hex f recs Hf Hg) as [-> | ->];
    [|by intros [= <- <-]].
  cbn [mbind completion_bind]. cbv zeta.
  rewrite log_record_written.
  change (JSON_stringify (js ?o)) with (serialise o).
  assert (append_file f (serialise (written sha256_hex ts e (chain_end GENESIS_HASH recs)) ++ [LF])
          = Return (Contents (log_text (recs ++ [written sha256_hex ts e (chain_end GENESIS_HASH recs)]))))
    as ->.
  { rewrite log_text_snoc. by destruct Hf as [[-> ->]| ->]. }
  by intros [= <- <-].
Qed.

Lemma append_all_records calls : ∀ f recs results f',
  holds f recs → good_log recs → Forall no_own_checksum calls →
  Forall (λ c, ∀ e, c.1 = Some e → NoDup e.*1) calls →
  append_all f calls = Return (results, f') →
  Forall (λ r, ap_success r = true) results →
  ∃ recs', good_log (recs ++ recs') ∧ holds f' (recs ++ recs') ∧ (calls = [] → f' = f)
    ∧ Forall2 (λ c r, ∃ e, c.1 = Some e ∧ records c.2 e r) calls recs'.
Proof.
  induction calls as [|[entry ts] calls IH]; intros f recs results f' Hf Hg Hc Hd Ha Hs.
  { simplify_eq/=. exists []. rewrite app_nil_r.
    split; [done|]. split; [done|]. split; [done|]. constructor. }
  apply Forall_cons in Hc as [He Hc]. apply Forall_cons in Hd as [Hde Hd].
  cbn [AuditLogger.append_all] in Ha.
  destruct entry as [e|]; [|simplify_eq/=].
  2:{ destruct (append_all f calls) as [[??]|?]; simplify_eq/=.
      by apply Forall_inv in Hs. }
  destruct (appendLog f (Some e) ts) as [[res f1]|err] eqn:Happ; [|done].
  cbn [mbind completion_bind snd fst] in Ha.
  destruct (append_all f1 calls) as [[rs f2]|err] eqn:Hrest; [|done].
  simplify_eq/=. apply Forall_cons in Hs as [Hres Hs].
  pose proof (appendLog_step_written f recs e ts res f1 Hf Hg Happ Hres) as ->.
  set (r := written sha256_hex ts e (chain_end GENESIS_HASH recs)).
  assert (good_log (recs ++ [r])) as Hg1.
  { apply good_log_snoc; [done|apply written_object|].
    apply written_good. exact (He e eq_refl). }
  destruct (IH _ (recs ++ [r]) rs f' (or_intror eq_refl) Hg1 Hc Hd Hrest Hs)
    as (recs' & Hg2 & Hh & _ & Hall).
  exists (r :: recs'). rewrite <- app_assoc in Hg2, Hh. simpl.
  split; [done|]. split; [done|]. split; [done|].
  constructor; [|done]. exists e. split; [done|]. simpl.
  apply written_records. exact (Hde e eq_refl).
Qed.

(** X25: after N successful [appendLog] calls on a new log, with entries
    that are objects without a [checksum] of their own, [queryLogs({})]
    returns isValid = true and N records, the i-th of which holds the
    i-th entry: every property of the entry other than [timestamp],
    [previousChecksum] and [checksum] with the entry's value (and none
    more), and as [timestamp] the time of the call, or the entry's own
    when it has one. *)
Theorem logged_entries_returned calls results f :
  Forall no_own_checksum calls →
  Forall (λ c, ∀ e, c.1 = Some e → NoDup e.*1) calls →
  append_all Absent calls = Return (results, f) →
  Forall (λ r, ap_success r = true) results →
  ∃ recs,
    queryLogs f [] = Return {| logs := recs; isValid := true; qr_error := None |}
    ∧ Forall2 (λ c r, ∃ e, c.1 = Some e ∧ records c.2 e r) calls recs.
Proof.
  intros Hc Hd Ha Hs.
  destruct (append_all_records calls Absent [] results f
              (or_introl (conj eq_refl eq_refl)) (good_log_nil sha256_hex) Hc Hd Ha Hs)
    as (recs & Hg & Hh & Hnil & Hall).
  simpl in Hg, Hh. exists recs. split; [|done].
  apply queryLogs_good; [done|done|].
  destruct Hh as [[-> _]| ->]; [done|].
  destruct recs as [|r recs]; [|by destruct (log_text_head r recs) as (t & ->)].
  destruct calls; [by rewrite Hnil|]. by apply Forall2_nil_inv_r in Hall.
Qed.
End Reading.

Definition succeeded : append_result := {| ap_success := true; ap_error := None |}.

Lemma sample_log_written :
  append_all Samples.digest Absent Samples.entries
  = Return ([succeeded; succeeded], sample_log).
Proof. vm_compute. reflexivity. Qed.

(** The first sample entry. *)
Definition login : strobj :=
  [(str "userId", str "u1"); (str "action", str "LOGIN");
   (str "target", str "vault"); (str "outcome", str "SUCCESS")].

(** The first sample entry on a new log. *)
Lemma appendLog_succeeds_witness :
  ∃ r,
    appendLog Samples.digest Absent (Some login) (str "2026-01-01T00:00:00.000Z")
    = Return ({| ap_success := true; ap_error := None |}, Contents (log_text ([] ++ [r])))
    ∧ obj_get (str "previousChecksum") r = Some (last_checksum [])
    ∧ obj_get (str "timestamp") r
      = Some (default (str "2026-01-01T00:00:00.000Z") (obj_get (str "timestamp") login))
    ∧ obj_get (str "checksum") r
      = Some (Samples.digest (serialise
                (obj_set (str "previousChecksum") (last_checksum [])
                   (obj_spread [(str "timestamp", str "2026-01-01T00:00:00.000Z")] login))))
    ∧ (∀ k, k ∉ [str "timestamp"; str "previousChecksum"; str "checksum"] →
            obj_get k r = obj_get k login)
    ∧ (str "checksum" ∉ login.*1 → good_log Samples.digest ([] ++ [r])).
Proof.
  apply (appendLog_succeeds Samples.digest Absent [] login (str "2026-01-01T00:00:00.000Z")).
  - left. split; reflexivity.
  - apply good_log_nil.
  - refine (bool_decide_unpack _ _). vm_compute. exact I.
  - repeat (apply Forall_cons; split; [vm_compute; reflexivity|]). apply Forall_nil_2.
  - intros r E. discriminate E.
Defined.

(** An entry with a property whose name is an array index: the record
    lists it first, before [timestamp]. *)
Example array_index_listed_first :
  (written Samples.digest (str "t") (login ++ [(str "7", str "x")]) GENESIS_HASH).*1
  = [str "7"; str "timestamp"; str "userId"; str "action"; str "target"; str "outcome";
     str "previousChecksum"; str "checksum"].
Proof. vm_compute. reflexivity. Qed.

(** A record with a note of 1100 characters. *)
Definition long_record : strobj := [(str "note", replicate 1100 "x"%char)].

Lemma long_record_blocks_appends_witness :
  let f := Contents (log_text ([] ++ [long_record])) in
  ∃ results, append_all Samples.digest f Samples.entries = Return (results, f)
    ∧ length results = length Samples.entries
    ∧ Forall (λ res, ap_success res = false) results.
Proof.
  apply (long_record_blocks_appends Samples.digest [] long_record Samples.entries).
  apply Nat.leb_le. vm_compute. reflexivity.
Defined.

(** The log of the two sample entries, cut after any record. *)
Lemma truncation_undetected_witness :
  ∃ recs,
    length recs = length Samples.entries ∧ holds sample_log recs
    ∧ ∀ k filters, 0 < k ≤ length recs →
        queryLogs Samples.digest (Contents (log_text (take k recs))) filters
        = Return {| logs := filter (λ log, matches filters log) (take k recs);
                    isValid := true; qr_error := None |}.
Proof.
  apply (truncation_undetected Samples.digest Samples.entries [succeeded; succeeded]
           sample_log).
  - exact sample_entries_shape.
  - exact sample_log_written.
  - repeat constructor.
Defined.

(** The log of the two sample entries, asked for the records of [u2]. *)
Lemma queryLogs_filters_witness :
  ∃ recs,
    queryLogs Samples.digest sample_log []
    = Return {| logs := recs; isValid := true; qr_error := None |}
    ∧ queryLogs Samples.digest sample_log [(str "userId", str "u2")]
      = Return {| logs := filter (λ log, matches [(str "userId", str "u2")] log) recs;
                  isValid := true; qr_error := None |}
    ∧ ∀ log, log ∈ filter (λ log, matches [(str "userId", str "u2")] log) recs ↔
             log ∈ recs
             ∧ ∀ k v, (k, v) ∈ [(str "userId", str "u2")] → obj_get k log = Some v.
Proof.
  apply (queryLogs_filters Samples.digest Samples.entries [succeeded; succeeded]
           sample_log).
  - exact sample_entries_shape.
  - exact sample_log_written.
  - repeat constructor.
Defined.


(** An entry that brings a [checksum]. *)
Definition checksummed : strobj := login ++ [(str "checksum", str "abc")].

(** The new log after the entry that brings a [checksum]. *)
Definition checksummed_log : file :=
  Eval vm_compute in
    match appendLog Samples.digest Absent (Some checksummed)
            (str "2026-01-01T00:00:00.000Z") with
    | Return r => r.2
    | Throw _ => Absent
    end.


(** The entry that brings a [checksum], on a new log: the call succeeds,
    and the query that follows reports tampering. *)
Example own_checksum_on_new_log :
  appendLog Samples.digest Absent (Some checksummed) (str "2026-01-01T00:00:00.000Z")
  = Return (succeeded, checksummed_log)
  ∧ queryLogs Samples.digest checksummed_log [] = Return tampered.
Proof. split; vm_compute; reflexivity. Qed.

(** The log of the two sample entries with the value of a property
    changed. *)
Lemma mutation_detected_witness :
  ∃ recs,
    length recs = length Samples.entries ∧ holds sample_log recs
    ∧ ∀ i r k v v' filters,
        recs !! i = Some r → k ≠ str "checksum" → obj_get k r = Some v → v' ≠ v →
        serialise (obj_remove (str "checksum") (obj_set k v' r))
          ≠ serialise (obj_remove (str "checksum") r)
        ∧ (Samples.digest (serialise (obj_remove (str "checksum") (obj_set k v' r)))
             ≠ Samples.digest (serialise (obj_remove (str "checksum") r)) →
           queryLogs Samples.digest
             (Contents (log_text (<[i := obj_set k v' r]> recs))) filters
           = Return tampered).
Proof.
  apply (mutation_detected Samples.digest Samples.entries [succeeded; succeeded] sample_log).
  - exact sample_entries_shape.
  - exact sample_log_written.
  - repeat constructor.
Defined.

(** The log of the two sample entries with a checksum changed. *)
Lemma checksum_change_detected_witness :
  ∃ recs,
    length recs = length Samples.entries ∧ holds sample_log recs
    ∧ ∀ i r c c' filters,
        recs !! i = Some r → obj_get (str "checksum") r = Some c → c' ≠ c →
        queryLogs Samples.digest
          (Contents (log_text (<[i := obj_set (str "checksum") c' r]> recs))) filters
        = Return tampered.
Proof.
  apply (checksum_change_detected Samples.digest Samples.entries [succeeded; succeeded]
           sample_log).
  - exact sample_entries_shape.
  - exact sample_log_written.
  - repeat constructor.
Defined.

(** The sample entries are objects. *)
Lemma sample_entries_objects :
  Forall (λ c : option strobj * text, ∀ e, c.1 = Some e → NoDup e.*1) Samples.entries.
Proof.
  repeat (apply Forall_cons; split;
          [intros e [= <-]; refine (bool_decide_unpack _ _); vm_compute; exact I|]).
  apply Forall_nil_2.
Qed.

(** The two sample entries are read back. *)
Lemma logged_entries_returned_witness :
  ∃ recs,
    queryLogs Samples.digest sample_log []
    = Return {| logs := recs; isValid := true; qr_error := None |}
    ∧ Forall2 (λ c r, ∃ e, c.1 = Some e ∧ records c.2 e r) Samples.entries recs.
Proof.
  apply (logged_entries_returned Samples.digest Samples.entries [succeeded; succeeded]
           sample_log).
  - exact sample_entries_shape.
  - exact sample_entries_objects.
  - exact sample_log_written.
  - repeat constructor.
Defined.

End AuditLoggerProofs.

(** * The public operations: properties *)

Module ApiProofs.
Import Api.

Section Libraries.
Variable scrypt_kdf : jsstring → text → nat → Vault.scrypt_options → text.
Variable aes_256_gcm_encrypt : text → text → text → completion (text * text).
Variable aes_256_gcm_decrypt : text → text → text → text → completion text.
Variable sha256_hex : text → text.
Variable hmac_sha256 : text → text → text.

Abbreviation invoke :=
  (invoke scrypt_kdf aes_256_gcm_encrypt aes_256_gcm_decrypt sha256_hex hmac_sha256).

Lemma store_structured v key value entropy :
  ∃ r, Vault.store aes_256_gcm_encrypt v key value entropy = Return r
       ∧ structured (Stored r.1).
Proof.
  unfold Vault.store. destruct (negb _); [by eexists|].
  destruct (Vault.required (Vault.derivedKey v)) as [k|]; [|by eexists].
  cbn [mbind completion_bind].
  destruct (aes_256_gcm_encrypt _ _ _) as [[??]|]; [|by eexists].
  cbn [mbind completion_bind].
  destruct (Vault.required (Vault.salt v)); by eexists.
Qed.

Lemma retrieve_structured v key :
  ∃ r, Vault.retrieve aes_256_gcm_decrypt v key = Return r ∧ structured (Retrieved r.1).
Proof.
  unfold Vault.retrieve. destruct (negb _); [by eexists|].
  destruct (Vault.store_ v !! key); [|by eexists].
  destruct (Vault.required (Vault.derivedKey v)) as [k|]; [|by eexists].
  cbn [mbind completion_bind].
  destruct (aes_256_gcm_decrypt _ _ _ _); by eexists.
Qed.

Lemma appendLog_returns f entry timestamp :
  ∃ r, AuditLogger.appendLog sha256_hex f entry timestamp = Return r
       ∧ structured (Appended r.1).
Proof.
  unfold AuditLogger.appendLog. destruct (match entry with Some _ => _ | None => _ end);
    [by eexists|].
  destruct (AuditLogger.getLastLine f) as [lastLine|]; [|by eexists].
  cbn [mbind completion_bind].
  destruct (match lastLine with Some _ => _ | None => _ end) as [p|]; [|by eexists].
  cbn [mbind completion_bind].
  destruct (AuditLogger.append_file f _); by eexists.
Qed.

Lemma queryLogs_returns f filters :
  ∃ r, AuditLogger.queryLogs sha256_hex f filters = Return r ∧ structured (Queried r).
Proof.
  unfold AuditLogger.queryLogs.
  destruct (AuditLogger.read_file f) as [data|e].
  - cbn [mbind completion_bind].
    destruct (AuditLogger.parse_lines _) as [ls|e]; cbn [mbind completion_bind].
    + destruct (AuditLogger.chain_valid _ _ _); by eexists.
    + simpl. repeat case_match; by eexists.
  - simpl. repeat case_match; by eexists.
Qed.

Lemma createRequest_structured requests options entropy now now' :
  structured (Created (ApprovalWorkflow.createRequest requests options entropy now now').1).
Proof. unfold ApprovalWorkflow.createRequest. by destruct (_ || _). Qed.

Lemma applyApproval_structured requests requestId approver now now' :
  structured (Applied (ApprovalWorkflow.applyApproval requests requestId approver now now').1).
Proof. unfold ApprovalWorkflow.applyApproval. by repeat case_match. Qed.

Lemma checkApprovalStatus_structured key requests requestId now now' :
  structured (Checked (ApprovalWorkflow.checkApprovalStatus hmac_sha256 key requests
                         requestId now now').1).
Proof.
  unfold ApprovalWorkflow.checkApprovalStatus.
  destruct (requests !! requestId) as [r|]; [|by split].
  cbv zeta. case_bool_decide as Hs; simpl; [by split|].
  destruct (if _ && _ then _ else r) as [? ? ? ? st ? ? ? ? ?] eqn:E.
  simpl in Hs |- *. by destruct st.
Qed.

(** C8, amended: every public operation other than the vault's [init]
    returns a structured result, for every argument of its type and
    whatever the file system and the crypto library do, and does not
    throw. [init] has no result object: on a vault that is initialized,
    and for a password that is not a string of at least 12 characters,
    it throws an [Error] with a message of the program. *)
Theorem operations_return (s : system) (op : operation) :
  match op with
  | VaultInit masterPassword entropy =>
      (Vault.initialized (the_vault s) = true →
       invoke s op = Throw (Error "Vault has already been initialized."))
      ∧ (Vault.initialized (the_vault s) = false →
         (∀ password, masterPassword = Some password → length password < 12) →
         invoke s op
         = Throw (Error "Master password must be a string of at least 12 characters."))
  | _ => ∃ r, invoke s op = Return r ∧ structured r
  end.
Proof.
  destruct op as [pw e|k v e|k|entry ts|filters|o e n n'|rid a n n'|rid n n'];
    unfold Api.invoke.
  - unfold Vault.init. split; [by intros ->|]. intros -> Hpw.
    destruct pw as [pw|]; [|done].
    by rewrite (proj2 (Nat.ltb_lt _ _) (Hpw pw eq_refl)).
  - destruct (store_structured (the_vault s) k v e) as (r & -> & ?). by eexists.
  - destruct (retrieve_structured (the_vault s) k) as (r & -> & ?). by eexists.
  - destruct (appendLog_returns (log_file s) entry ts) as (r & -> & ?). by eexists.
  - destruct (queryLogs_returns (log_file s) filters) as (r & -> & ?). by eexists.
  - eexists. split; [done|]. apply createRequest_structured.
  - eexists. split; [done|]. apply applyApproval_structured.
  - eexists. split; [done|]. apply checkApprovalStatus_structured.
Qed.
End Libraries.

(** C8 as stated fails on [init] with a short password: the call throws. *)
Lemma init_throws :
  Api.invoke Samples.kdf Samples.encrypt Samples.decrypt Samples.digest Samples.mac
    Samples.fresh (VaultInit (Some []) Samples.zeros)
  = Throw (Error "Master password must be a string of at least 12 characters.")
  ∧ ¬ returns
        (Api.invoke Samples.kdf Samples.encrypt Samples.decrypt Samples.digest
           Samples.mac Samples.fresh (VaultInit (Some []) Samples.zeros)).
Proof. split; [reflexivity|]. by intros [r Hr]. Qed.

End ApiProofs.

(** * The bridge: properties *)

Module BridgeProofs.
Import Ipc.

(** ** Trimming *)

Lemma trim16_start_suffix s : Renderer.trim_start s `suffix_of` s.
Proof.
  induction s as [|u s IH]; [done|]. simpl.
  destruct (Renderer.is_white_space u); [by apply suffix_cons_r|done].
Qed.

(** What is left of a text starts with a character that is no space. *)
Lemma trim16_start_head s u t :
  Renderer.trim_start s = u :: t → Renderer.is_white_space u = false.
Proof.
  induction s as [|v s IH]; [done|]. simpl.
  destruct (Renderer.is_white_space v) eqn:Hv; [done|]. by intros [= <- <-].
Qed.

Lemma trim16_start_snoc s u :
  Renderer.is_white_space u = false → ∃ s', Renderer.trim_start (s ++ [u]) = s' ++ [u].
Proof.
  intros Hu. induction s as [|v s (s' & IH)]; simpl.
  - exists []. by rewrite Hu.
  - destruct (Renderer.is_white_space v); [by eauto|]. by exists (v :: s).
Qed.

(** A trimmed text that is not empty starts with a character that is no
    space. *)
Lemma trim16_head s u t : Renderer.trim s = u :: t → Renderer.is_white_space u = false.
Proof.
  unfold Renderer.trim. intros E.
  destruct (Renderer.trim_start s) as [|v s1] eqn:E1; [done|].
  pose proof (trim16_start_head _ _ _ E1) as Hv.
  destruct (trim16_start_snoc (rev s1) v Hv) as (s' & Hs'). simpl in E.
  rewrite Hs', rev_app_distr in E. simpl in E. by simplify_eq.
Qed.

(** A text that starts with a character that is no space is not blank. *)
Lemma trim16_cons u s : Renderer.is_white_space u = false → Renderer.trim (u :: s) ≠ [].
Proof.
  intros Hu. unfold Renderer.trim. simpl. rewrite Hu. simpl.
  destruct (trim16_start_snoc (rev s) u Hu) as (s' & ->).
  rewrite rev_app_distr. done.
Qed.

Lemma split16_cons u s :
  (u =? 10)%N = false → ∃ l ls, Renderer.split_lf (u :: s) = (u :: l) :: ls.
Proof.
  intros Hu. simpl. rewrite Hu.
  destruct (Renderer.split_lf s); eauto.
Qed.

Lemma split16_no_lf s : Forall (λ l, 10%N ∉ l) (Renderer.split_lf s).
Proof.
  induction s as [|u s IH]; simpl.
  - apply Forall_singleton, not_elem_of_nil.
  - destruct (N.eqb_spec u 10) as [->|Hu].
    + apply Forall_cons. split; [apply not_elem_of_nil|done].
    + destruct (Renderer.split_lf s) as [|l ls].
      * apply Forall_singleton. rewrite list_elem_of_singleton. congruence.
      * apply Forall_cons in IH as [Hl Hls]. apply Forall_cons. split; [|done].
        rewrite elem_of_cons. intros [?|?]; [congruence|done].
Qed.

Section Bridge.
Variable remote_error : string → option jserror → jserror.
Variable showMessageBox : jsstring → completion unit.
Variables now found : Z.

Abbreviation invoke := (Main.invoke remote_error now found showMessageBox).

(** X21: whenever the submit handler of the intake form calls
    [requestScan], its argument is an array of at least one string, each
    of them not empty and without line feed; [requestScan] accepts it,
    and the call resolves with the handler's result: [success: true]
    and the data of the scan. *)
Theorem scan_request_accepted input arg :
  Renderer.scan_request input = Some arg →
  ∃ paths,
    arg = VArray (VString <$> paths) ∧ paths ≠ []
    ∧ Forall (λ p, p ≠ [] ∧ 10%N ∉ p) paths
    ∧ Preload.requestScan invoke arg
      = Return (VObject
          [(units "success", VBoolean true);
           (units "data",
            VObject [(units "id", VString (units "scan_" ++ decimal now));
                     (units "status", VString (units "completed"));
                     (units "found", VNumber found)])]).
Proof.
  unfold Renderer.scan_request. case_bool_decide as Hblank; [done|]. intros [= <-].
  set (paths := filter _ _). exists paths.
  assert (Forall (λ p, p ≠ [] ∧ 10%N ∉ p) paths) as Hall.
  { apply Forall_forall. intros p [Hp Hin]%list_elem_of_filter. split.
    - by intros ->.
    - pose proof (split16_no_lf (Renderer.trim input)) as Hlf.
      rewrite Forall_forall in Hlf. by apply Hlf. }
  split; [done|]. split; [|split; [done|]].
  - destruct (Renderer.trim input) as [|u t] eqn:E; [done|].
    pose proof (trim16_head _ _ _ E) as Hu.
    destruct (split16_cons u t) as (l & ls & Hs).
    { destruct (N.eqb_spec u 10) as [->|]; [done|done]. }
    unfold paths. rewrite Hs, filter_cons_True; [done|]. by apply trim16_cons.
  - unfold Preload.requestScan.
    assert (forallb is_nonempty_string (VString <$> paths) = true) as ->.
    { apply forallb_forall. intros v (p & -> & Hp)%list_elem_of_In%list_elem_of_fmap.
      rewrite Forall_forall in Hall. destruct (Hall p Hp) as [Hne _]. by destruct p. }
    reflexivity.
Qed.

(** X22: for every argument, [requestVaultAccess] is rejected, or it
    resolves with the denial that asks for an approval: an argument that
    is not a non-empty string is rejected in the preload script, and for
    the others the handler of the main process, which reads [itemId] of
    what it gets, does not throw. Nothing else ever comes back. *)
Theorem vault_access_denied itemId :
  Preload.requestVaultAccess invoke itemId
  = if is_nonempty_string itemId then Return Main.DENIED
    else Throw (Error "Invalid argument: itemId must be a non-empty string.").
Proof. unfold Preload.requestVaultAccess. by destruct (is_nonempty_string itemId). Qed.

(** X23: [submitApproval] and [exportRecoveryPackage] never resolve: the
    main process registers no handler for their channels. *)
Theorem unhandled_channels_reject token :
  ¬ returns (Preload.submitApproval invoke token)
  ∧ ¬ returns (Preload.exportRecoveryPackage invoke)
  ∧ ("submit-approval"%string ∉ Main.CHANNELS)
  ∧ ("export-recovery-package"%string ∉ Main.CHANNELS).
Proof.
  split; [|split; [|split]].
  - unfold Preload.submitApproval. destruct (is_nonempty_string token); by intros [v Hv].
  - by intros [v Hv].
  - by refine (bool_decide_unpack _ _).
  - by refine (bool_decide_unpack _ _).
Qed.

(** X24: whenever the click handler of the approval button calls
    [requestApproval], the call is accepted by the preload script and
    resolves: with [success: true], the id [approval_] followed by the
    clock reading and the status [pending] when the message box, which
    names the action [Access Vault Item: ] followed by the item, is
    shown, and with [success: false] when showing it throws. *)
Theorem approval_request_resolves itemId justification arg :
  Renderer.approval_request itemId justification = Some arg →
  Preload.requestApproval invoke arg
  = match showMessageBox
            (Main.review_detail (VString (units "Access Vault Item: " ++ itemId))) with
    | Return _ =>
        Return (VObject
          [(units "success", VBoolean true);
           (units "data",
            VObject [(units "approvalId", VString (units "approval_" ++ decimal now));
                     (units "status", VString (units "pending"))])])
    | Throw _ =>
        Return (VObject
          [(units "success", VBoolean false);
           (units "error", VString (units "Could not initiate the approval process."))])
    end.
Proof.
  unfold Renderer.approval_request. destruct (_ || _); [done|]. intros [= <-].
  unfold Preload.requestApproval, Main.invoke, Main.handle_request_approval.
  cbn [is_object String.eqb Ascii.eqb Bool.eqb head default property list_find
       mbind completion_bind fmap option_fmap option_map snd fst decide].
  simpl. by destruct (showMessageBox _).
Qed.
End Bridge.

(** Stand-ins for Electron: the message box is shown, and a rejection
    says that the call was rejected. *)
Definition shown (detail : jsstring) : completion unit := Return ().
Definition rejected (channel : string) (cause : option jserror) : jserror := Error "rejected".

(** Two paths, with spaces around and an empty line between. *)
Definition sample_input : jsstring := units "  /home/a" ++ [10; 10]%N ++ units "/tmp/b ".

Definition sample_scan : value :=
  Eval vm_compute in default VUndefined (Renderer.scan_request sample_input).

Lemma scan_request_accepted_witness :
  ∃ paths,
    sample_scan = VArray (VString <$> paths) ∧ paths ≠ []
    ∧ Forall (λ p, p ≠ [] ∧ 10%N ∉ p) paths
    ∧ Preload.requestScan (Main.invoke rejected 0 3 shown) sample_scan
      = Main.handle_request_scan 0 3 sample_scan.
Proof.
  apply (scan_request_accepted rejected shown 0 3 sample_input sample_scan).
  vm_compute. reflexivity.
Defined.

(** The approval of the item [k] is asked for, with a justification. *)
Definition sample_approval : value :=
  Eval vm_compute in
    default VUndefined (Renderer.approval_request (units "k") (units " audit ")).

Lemma approval_request_resolves_witness :
  Preload.requestApproval (Main.invoke rejected 0 3 shown) sample_approval
  = match shown (Main.review_detail (VString (units "Access Vault Item: " ++ units "k"))) with
    | Return _ =>
        Return (VObject
          [(units "success", VBoolean true);
           (units "data",
            VObject [(units "approvalId", VString (units "approval_" ++ decimal 0));
                     (units "status", VString (units "pending"))])])
    | Throw _ =>
        Return (VObject
          [(units "success", VBoolean false);
           (units "error", VString (units "Could not initiate the approval process."))])
    end.
Proof.
  apply (approval_request_resolves rejected shown 0 3 (units "k") (units " audit ")
           sample_approval).
  vm_compute. reflexivity.
Defined.

End BridgeProofs.
